(** * Analytics pipeline of [Car_Rental_bakcend.js]: a shallow embedding

    The development models the CSV analytics part of the Express backend:
    the cache [salesDataFiles], the helper [normalizeSalesData] and the four
    handlers [/analytics/top-seller], [/analytics/moving-average],
    [/analytics/correlation] and [/analytics/forecast].

    Modelling choices, each stated where it is made:
    - a JavaScript number is a binary64 value, Rocq's primitive [float];
      [+ - * / Math.sqrt] are the primitive operations, so every closed
      computation below is the one a JavaScript engine performs;
    - array lengths, array indices and loop counters are [nat] or [Z] and are
      converted with [of_nat]/[of_Z] where the source mixes them with numbers;
    - a string is a sequence of 8-bit code units ([string]);
    - a plain object is the list of its own properties in creation order
      ([obj]); [Object_keys] applies the ECMAScript property order;
    - [Date.parse] on strings outside the ECMAScript date-time format is
      implementation-defined, so the date parser is a parameter [Date_parse];
    - an uncaught exception is the outcome [Throw]. *)

From Stdlib Require Import ZArith Zpower Lia Bool List String Ascii Floats.
From stdpp Require Import gmap strings list.

Local Open Scope string_scope.
Local Open Scope list_scope.
Local Open Scope Z_scope.

(** * The program *)

(** ** 1. Numbers *)

Abbreviation number := float.

Definition NaN : number := nan.

(** [x === y] on numbers: [NaN] differs from itself, [+0 === -0]. *)
Definition strict_eq (x y : number) : bool := (x =? y)%float.

(** [ToBoolean] on a number: [+0], [-0] and [NaN] are falsy. *)
Definition truthy (x : number) : bool := negb (is_zero x || is_nan x).

(** [x || 0] when [x] is a number. *)
Definition or_zero (x : number) : number := if truthy x then x else 0%float.

(** The number that an integer denotes (correctly rounded; exact below 2^53). *)
Definition of_Z (z : Z) : number := SF2Prim (binary_normalize prec emax z 0 false).

Definition of_nat (n : nat) : number := of_Z (Z.of_nat n).

(** [x ** 2]: engines evaluate an exponent of 2 as the product [x * x]. *)
Definition square (x : number) : number := (x * x)%float.

(** [l.reduce((a, b) => a + b, 0)]. *)
Definition sum (l : list number) : number := fold_left PrimFloat.add l 0%float.

(** The binary64 value nearest to the rational [p / q], ties to even, with the
    sign [neg]: the rounding that [Number] applies to a decimal literal. *)
Definition float_of_ratio (neg : bool) (p q : positive) : number :=
  SF2Prim (SFdiv prec emax (S754_finite neg p 0) (S754_finite false q 0)).

Definition signed_zero (neg : bool) : number :=
  if neg then neg_zero else 0%float.

Definition signed_infinity (neg : bool) : number :=
  if neg then neg_infinity else infinity.

(** [m * 10^e] rounded to binary64. The two magnitude tests keep the powers
    of ten small: above 10^310 every value rounds to infinity, below 10^-330
    to zero. *)
Definition float_of_decimal (neg : bool) (m e : Z) : number :=
  match m with
  | Zpos p =>
      let lg := Z.log2 m in
      if 310 <? lg / 4 + e then signed_infinity neg
      else if (lg + 1) / 3 + 1 + e <? -330 then signed_zero neg
      else match e with
           | Z0 => float_of_ratio neg p 1
           | Zpos _ => float_of_ratio neg (p * Z.to_pos (10 ^ e)) 1
           | Zneg _ => float_of_ratio neg p (Z.to_pos (10 ^ (- e)))
           end
  | _ => signed_zero neg
  end.

(** *** [Number(s)] for a string [s] (ECMAScript StringToNumber) *)

Definition code (c : ascii) : Z := Z.of_nat (nat_of_ascii c).

(** StrWhiteSpaceChar among the 8-bit code units: TAB, LF, VT, FF, CR, SP, NBSP. *)
Definition is_white (c : ascii) : bool :=
  let n := code c in
  ((9 <=? n) && (n <=? 13)) || (n =? 32) || (n =? 160).

Fixpoint drop_white (s : list ascii) : list ascii :=
  match s with
  | c :: s' => if is_white c then drop_white s' else s
  | [] => []
  end.

Definition trim (s : list ascii) : list ascii :=
  rev (drop_white (rev (drop_white s))).

(** The value of the digit [c] in the given radix, when it is one. *)
Definition digit_value (radix : Z) (c : ascii) : option Z :=
  let n := code c in
  let v := if (48 <=? n) && (n <=? 57) then n - 48
           else if (97 <=? n) && (n <=? 122) then n - 87
           else if (65 <=? n) && (n <=? 90) then n - 55
           else radix in
  if v <? radix then Some v else None.

(** Reads the longest prefix of digits: the accumulated value, the number of
    digits read, and the rest of the input. *)
Fixpoint read_digits (radix : Z) (s : list ascii) (acc : Z) (count : Z)
  : Z * Z * list ascii :=
  match s with
  | c :: s' =>
      match digit_value radix c with
      | Some v => read_digits radix s' (acc * radix + v) (count + 1)
      | None => (acc, count, s)
      end
  | [] => (acc, count, [])
  end.

Definition read_sign (s : list ascii) : bool * list ascii :=
  match s with
  | "+"%char :: s' => (false, s')
  | "-"%char :: s' => (true, s')
  | _ => (false, s)
  end.

(** ExponentPart (optional): the exponent, or [None] when what follows the
    mantissa is not a well-formed exponent reaching the end of the input. *)
Definition read_exponent (s : list ascii) : option Z :=
  match s with
  | [] => Some 0
  | c :: s' =>
      if (code c =? 101) || (code c =? 69) then
        let '(neg, s'') := read_sign s' in
        match read_digits 10 s'' 0 0 with
        | (v, n, []) => if 0 <? n then Some (if neg then - v else v) else None
        | _ => None
        end
      else None
  end.

(** StrUnsignedDecimalLiteral without [Infinity]. *)
Definition read_decimal (neg : bool) (s : list ascii) : number :=
  let '(ip, ni, r1) := read_digits 10 s 0 0 in
  let '(m, nf, r2) :=
    match r1 with
    | "."%char :: r => let '(m, n, r') := read_digits 10 r ip 0 in (m, n, r')
    | _ => (ip, 0, r1)
    end in
  if 0 <? ni + nf then
    match read_exponent r2 with
    | Some e => float_of_decimal neg m (e - nf)
    | None => NaN
    end
  else NaN.

(** NonDecimalIntegerLiteral: [0x], [0o], [0b] followed by at least one digit. *)
Definition read_radix (radix : Z) (s : list ascii) : number :=
  match read_digits radix s 0 0 with
  | (v, n, []) => if 0 <? n then of_Z v else NaN
  | _ => NaN
  end.

Definition StringToNumber (s : string) : number :=
  let t := trim (list_ascii_of_string s) in
  match t with
  | [] => 0%float
  | "0"%char :: c :: r =>
      let n := code c in
      if (n =? 120) || (n =? 88) then read_radix 16 r
      else if (n =? 111) || (n =? 79) then read_radix 8 r
      else if (n =? 98) || (n =? 66) then read_radix 2 r
      else read_decimal false t
  | _ =>
      let '(neg, u) := read_sign t in
      if String.eqb (string_of_list_ascii u) "Infinity" then signed_infinity neg
      else read_decimal neg u
  end.

(** *** [Number(x.toFixed(d))]

    [toFixed] prints the integer [n] nearest to [|x| * 10^d] (the larger one on
    a tie) with [d] decimals and the sign of [x] when [x < 0]; [Number] reads
    the text back. From 10^21 on, and for [NaN], [toFixed] prints [x] itself. *)
Definition toFixed_Number (d : nat) (x : number) : number :=
  match Prim2SF x with
  | S754_nan => NaN
  | S754_infinity _ => x
  | S754_zero _ => 0%float
  | S754_finite s m e =>
      if (1e21 <=? abs x)%float then x
      else
        let scale := 10 ^ Z.of_nat d in
        let n := match e with
                 | Zneg _ => (2 * Zpos m * scale + 2 ^ (- e)) / 2 ^ (1 - e)
                 | _ => Zpos m * 2 ^ e * scale
                 end in
        match n with
        | Zpos p => float_of_ratio s p (Z.to_pos scale)
        | _ => signed_zero s
        end
  end.

(** ** 2. Plain objects

    An object is the list of its own properties in creation order. Assigning
    to an existing key keeps its position; a new key goes last. *)

Definition obj (V : Type) : Type := list (string * V).

Fixpoint own {V : Type} (o : obj V) (k : string) : option V :=
  match o with
  | [] => None
  | (k', v) :: o' => if String.eqb k' k then Some v else own o' k
  end.

(** [o[k] = v]. *)
Fixpoint put {V : Type} (k : string) (v : V) (o : obj V) : obj V :=
  match o with
  | [] => [(k, v)]
  | (k', v') :: o' =>
      if String.eqb k' k then (k', v) :: o' else (k', v') :: put k v o'
  end.

(** An array index is the canonical decimal text of an integer below 2^32 - 1. *)
Definition array_index (k : string) : option Z :=
  match list_ascii_of_string k with
  | [] => None
  | c :: r =>
      match read_digits 10 (c :: r) 0 0 with
      | (v, _, []) =>
          if (negb (code c =? 48) || match r with [] => true | _ => false end)
             && (v <=? 4294967294)
          then Some v else None
      | _ => None
      end
  end.

Definition is_index (k : string) : bool :=
  match array_index k with Some _ => true | None => false end.

Definition index_value (k : string) : Z :=
  match array_index k with Some v => v | None => 0 end.

Fixpoint insert_index (k : string) (ks : list string) : list string :=
  match ks with
  | [] => [k]
  | k' :: ks' =>
      if index_value k <=? index_value k' then k :: ks
      else k' :: insert_index k ks'
  end.

Definition sort_indices (ks : list string) : list string :=
  fold_right insert_index [] ks.

(** OrdinaryOwnPropertyKeys on string keys: the array indices in ascending
    numeric order, then the other keys in creation order. *)
Definition property_order (ks : list string) : list string :=
  sort_indices (List.filter is_index ks)
  ++ List.filter (fun k => negb (is_index k)) ks.

Definition Object_keys {V : Type} (o : obj V) : list string :=
  property_order (map fst o).

Definition Object_entries {V : Type} (o : obj V) : list (string * V) :=
  omap (fun k => match own o k with Some v => Some (k, v) | None => None end)
       (Object_keys o).

(** *** Rows of the CSV parser

    A row maps header names to cell texts. Reading a key that the row does not
    own falls through to [Object.prototype]. *)

Abbreviation row := (obj string).

Inductive raw : Type :=
| Undefined
| Str (s : string)
| Inherited (k : string).

Definition Object_prototype_keys : list string :=
  ["constructor"; "__defineGetter__"; "__defineSetter__"; "hasOwnProperty";
   "__lookupGetter__"; "__lookupSetter__"; "isPrototypeOf";
   "propertyIsEnumerable"; "toString"; "valueOf"; "__proto__";
   "toLocaleString"]%string.

Definition inherited (k : string) : bool :=
  existsb (String.eqb k) Object_prototype_keys.

(** [r[k]]. *)
Definition get (r : row) (k : string) : raw :=
  match own r k with
  | Some s => Str s
  | None => if inherited k then Inherited k else Undefined
  end.

(** [r[k]] where [k] may be [undefined] (the property key is then the text
    ["undefined"]). *)
Definition get_key (r : row) (k : option string) : raw :=
  get r (match k with Some s => s | None => "undefined"%string end).

(** [Number(v || 0)]: [undefined] and the empty text are falsy. *)
Definition Number_or_zero (v : raw) : number :=
  match v with
  | Undefined => 0%float
  | Str s => if String.eqb s "" then 0%float else StringToNumber s
  | Inherited _ => NaN
  end.

(** The text of an inherited member, as [ToPrimitive] yields it. *)
Definition inherited_text (k : string) : string :=
  if String.eqb k "__proto__" then "[object Object]"%string
  else ("function " +:+ k +:+ "() { [native code] }")%string.

(** Rows that the parser can produce: distinct keys, none of them [__proto__]
    (the parser assigns [o[header] = cell], which cannot create it). *)
Fixpoint distinct (ks : list string) : bool :=
  match ks with
  | [] => true
  | k :: ks' => negb (existsb (String.eqb k) ks') && distinct ks'
  end.

Definition wf_row (r : row) : bool :=
  distinct (map fst r)
  && negb (existsb (String.eqb "__proto__") (map fst r)).

Definition wf_rows (rows : list row) : bool := forallb wf_row rows.

(** ** 3. Outcomes of a computation: a value or an uncaught exception *)

Inductive exn : Type :=
| TypeError (msg : string)
| RangeError (msg : string).

Inductive res (A : Type) : Type :=
| Ret (a : A)
| Throw (e : exn).

Arguments Ret {A} a.
Arguments Throw {A} e.

#[global] Instance res_ret : MRet res := fun A a => Ret a.

#[global] Instance res_bind : MBind res := fun A B f m =>
  match m with
  | Ret a => f a
  | Throw e => Throw e
  end.

(** [l.filter(p)] for a predicate that may throw: elements are visited in order. *)
Fixpoint filter_res {A : Type} (p : A -> res bool) (l : list A) : res (list A) :=
  match l with
  | [] => Ret []
  | x :: l' =>
      b ← p x;
      rest ← filter_res p l';
      Ret (if b : bool then x :: rest else rest)
  end.

(** A loop over [l] that threads an accumulator and may throw. *)
Fixpoint fold_res {A B : Type} (f : B -> A -> res B) (l : list A) (b : B) : res B :=
  match l with
  | [] => Ret b
  | x :: l' => b' ← f b x; fold_res f l' b'
  end.

(** [l.slice(s, e)]. *)
Definition slice {A : Type} (s e : nat) (l : list A) : list A :=
  firstn (e - s) (skipn s l).

(** [l.sort(cmp)] where [before a b] says that [cmp(a, b) < 0]: the stable
    order, which every conforming sort returns for a consistent comparator.
    A comparator that returns [NaN] is not consistent, and the order is then
    implementation-defined: from three elements on, an engine may return
    another order than this one. *)
Fixpoint insert_sorted {A : Type} (before : A -> A -> bool) (x : A) (l : list A)
  : list A :=
  match l with
  | [] => [x]
  | y :: l' => if before y x then y :: insert_sorted before x l' else x :: l
  end.

Fixpoint sort {A : Type} (before : A -> A -> bool) (l : list A) : list A :=
  match l with
  | [] => []
  | x :: l' => insert_sorted before x (sort before l')
  end.

(** ** 4. The cache and the handlers *)

(** The time value of a [Date]; [None] is the time value [NaN]. *)
Abbreviation time := (option Z).

(** A property of a normalized row: the [Date] under ["date"], or a number. *)
Inductive value : Type :=
| VDate (t : time)
| VNum (x : number).

Record normalized : Type := {
  dateCol : option string;
  seriesCols : list string;
  parsed : list (obj value)
}.

(** [salesDataFiles]: filename -> parsed rows. *)
Abbreviation store := (gmap string (list row)).

(** A handler reads and writes the cache and ends with a value or an
    uncaught exception. *)
Definition M (A : Type) : Type := store -> res A * store.

#[global] Instance M_ret : MRet M := fun A a σ => (Ret a, σ).

#[global] Instance M_bind : MBind M := fun A B f m σ =>
  match m σ with
  | (Ret a, σ') => f a σ'
  | (Throw e, σ') => (Throw e, σ')
  end.

(** [salesDataFiles.get(k)]; a key that is not a string is never present. *)
Definition Map_get (k : option string) : M (option (list row)) :=
  fun σ => (Ret (match k with Some f => σ !! f | None => None end), σ).

(** [salesDataFiles.set(k, v)]. *)
Definition Map_set (k : string) (v : list row) : M unit :=
  fun σ => (Ret tt, <[k := v]> σ).

Definition lift {A : Type} (r : res A) : M A := fun σ => (r, σ).

(** The body of a request, for the bodies that are JSON objects: [fileId] and
    [product] are [None] when absent or not a string; [window] and
    [monthsForecast] are [None] when absent and integers otherwise. A request
    without a body, and a body with another value there (a [monthsForecast]
    of [1e999], which JSON reads as [Infinity] and on which the loop of
    [forecast] does not end), are outside the model. *)
Record request : Type := {
  fileId : option string;
  product : option string;
  window : option Z;
  monthsForecast : option Z
}.

Record ma_entry : Type := { ma_index : nat; ma_date : Z; ma : number }.

Record fc_entry : Type := { monthIndex : Z; predicted : number }.

Inductive payload : Type :=
| Error (error : string)
| Uploaded (fileId : string) (rows : nat)
| TopSeller (topProduct : string) (total : number)
| MovingAverage (product : option string) (window : number)
    (movingAverage : list ma_entry)
| Correlation (correlation : obj (obj number))
| Forecast (product : option string) (slope intercept : number)
    (forecast : list fc_entry).

Record response : Type := { status : Z; json : payload }.

(** [res.json(p)] and [res.status(c).json(p)]. *)
Definition json_ok (p : payload) : response := {| status := 200; json := p |}.

Definition bad_request (msg : string) : response :=
  {| status := 400; json := Error msg |}.

(** [r[c] || 0] on a normalized row. A missing property reads [undefined].
    Under ["date"] a row built by [normalizeSalesData] below holds either the
    [Date] or a series number; the [Date] is read only through [.date], never
    through a series column (lemma [series_value_number]). *)
Definition series_value (r : obj value) (c : string) : number :=
  match own r c with
  | Some (VNum x) => or_zero x
  | _ => 0%float
  end.

(** [seriesCols.includes(product)]. *)
Definition includes (cols : list string) (p : option string) : bool :=
  match p with
  | Some s => existsb (String.eqb s) cols
  | None => false
  end.

(** The comparator [(a, b) => b[1] - a[1]] says "a before b" when negative. *)
Definition by_total_desc (a b : string * number) : bool :=
  (snd b - snd a <? 0)%float.

(** [pearson(x, y)] of the correlation handler. *)
Definition pearson (x y : list number) : number :=
  let n := of_nat (length x) in
  let mx := (sum x / n)%float in
  let my := (sum y / n)%float in
  let num := sum (imap (fun i xi => ((xi - mx) * (nth i y NaN - my))%float) x) in
  let denx := sqrt (sum (map (fun xi => square (xi - mx)%float) x)) in
  let deny := sqrt (sum (map (fun yi => square (yi - my)%float) y)) in
  let den := (denx * deny)%float in
  if strict_eq den 0 then 0%float else (num / den)%float.

(** The object [totals] of the top-seller handler after its two loops. *)
Definition column_totals (nz : normalized) : obj number :=
  let totals0 := fold_left (fun t col => put col 0%float t) (seriesCols nz) [] in
  fold_left (fun t r =>
    fold_left (fun t c =>
      put c (match own t c with Some x => x | None => NaN end
             + series_value r c)%float t)
      (seriesCols nz) t)
    (parsed nz) totals0.

(** [Object.entries(totals).sort((a, b) => b[1] - a[1])]. *)
Definition ranking (nz : normalized) : list (string * number) :=
  sort by_total_desc (Object_entries (column_totals nz)).

Section Analytics.

(** [Date.parse]: the time value of a date text, [None] for [NaN]. *)
Variable Date_parse : string -> time.

(** [new Date(v)]. *)
Definition new_Date (v : raw) : time :=
  match v with
  | Undefined => None
  | Str s => Date_parse s
  | Inherited k => Date_parse (inherited_text k)
  end.

(** [!isNaN(x.date.getTime())]. *)
Definition has_valid_date (x : obj value) : res bool :=
  match own x "date" with
  | Some (VDate t) => Ret (bool_decide (is_Some t))
  | Some (VNum _) => Throw (TypeError "x.date.getTime is not a function")
  | None => Throw (TypeError "Cannot read properties of undefined (reading 'getTime')")
  end.

(** The body of [rows.map(r => ...)] in [normalizeSalesData]. *)
Definition normalize_row (dateCol : option string) (seriesCols : list string)
  (r : row) : obj value :=
  fold_left (fun out c => put c (VNum (Number_or_zero (get r c))) out)
    seriesCols [("date"%string, VDate (new_Date (get_key r dateCol)))].

Definition normalizeSalesData (rows : option (list row)) : res (option normalized) :=
  match rows with
  | None => Ret None
  | Some [] => Ret None
  | Some ((r0 :: _) as rs) =>
      let cols := Object_keys r0 in
      let dateCol := head cols in
      let seriesCols := tail cols in
      parsed ← filter_res has_valid_date (map (normalize_row dateCol seriesCols) rs);
      Ret (Some {| dateCol := dateCol; seriesCols := seriesCols; parsed := parsed |})
  end.

(** The [end] callback of [POST /upload-sales]. *)
Definition upload_end (filename : string) (results : list row) : M response :=
  _ ← Map_set filename results;
  mret (json_ok (Uploaded filename (length results))).

(** [POST /analytics/top-seller]. *)
Definition top_seller (req : request) : M response :=
  rows ← Map_get (fileId req);
  normalized ← lift (normalizeSalesData rows);
  match normalized with
  | None => mret (bad_request "invalid or missing fileId")
  | Some nz =>
      match ranking nz with
      | [] => lift (Throw (TypeError "Cannot read properties of undefined (reading '0')"))
      | top :: _ => mret (json_ok (TopSeller (fst top) (snd top)))
      end
  end.

(** [normalized.parsed[i].date.toISOString()], kept as the time value. *)
Definition date_of (r : option (obj value)) : res Z :=
  match r with
  | None => Throw (TypeError "Cannot read properties of undefined (reading 'date')")
  | Some x =>
      match own x "date" with
      | Some (VDate (Some t)) => Ret t
      | Some (VDate None) => Throw (RangeError "Invalid time value")
      | Some (VNum _) => Throw (TypeError "toISOString is not a function")
      | None => Throw (TypeError "Cannot read properties of undefined (reading 'toISOString')")
      end
  end.

(** [POST /analytics/moving-average]. *)
Definition moving_average (req : request) : M response :=
  let w := default 3 (window req) in
  rows ← Map_get (fileId req);
  normalized ← lift (normalizeSalesData rows);
  match normalized with
  | None => mret (bad_request "invalid or missing fileId")
  | Some nz =>
      if negb (includes (seriesCols nz) (product req))
      then mret (bad_request "product not found")
      else
        let p := default ""%string (product req) in
        let values := map (fun r => series_value r p) (parsed nz) in
        mov ← lift (fold_res (fun mov i =>
                 let start := Z.to_nat (Z.max 0 (Z.of_nat i - w + 1)) in
                 let slice := slice start (i + 1) values in
                 let avg := (sum slice / of_nat (length slice))%float in
                 d ← date_of (parsed nz !! i);
                 Ret (mov ++ [{| ma_index := i; ma_date := d; ma := avg |}]))
               (seq 0 (length values)) []);
        mret (json_ok (MovingAverage (product req) (of_Z w) mov))
  end.

(** [POST /analytics/correlation]. *)
Definition correlation (req : request) : M response :=
  rows ← Map_get (fileId req);
  normalized ← lift (normalizeSalesData rows);
  match normalized with
  | None => mret (bad_request "invalid or missing fileId")
  | Some nz =>
      let cols := seriesCols nz in
      let values :=
        fold_left (fun vs c => put c (map (fun r => series_value r c) (parsed nz)) vs)
          cols [] in
      let column c : res (list number) :=
        match own values c with
        | Some x => Ret x
        | None => Throw (TypeError "Cannot read properties of undefined (reading 'length')")
        end in
      matrix ← lift (fold_res (fun matrix ci =>
                 fold_res (fun matrix cj =>
                   x ← column ci;
                   y ← column cj;
                   let v := toFixed_Number 4 (pearson x y) in
                   match own matrix ci with
                   | Some inner => Ret (put ci (put cj v inner) matrix)
                   | None => Throw (TypeError "Cannot set properties of undefined")
                   end)
                   cols (put ci [] matrix))
               cols []);
      mret (json_ok (Correlation matrix))
  end.

(** [POST /analytics/forecast]. *)
Definition forecast (req : request) : M response :=
  let months := default 3 (monthsForecast req) in
  rows ← Map_get (fileId req);
  normalized ← lift (normalizeSalesData rows);
  match normalized with
  | None => mret (bad_request "invalid or missing fileId")
  | Some nz =>
      if negb (includes (seriesCols nz) (product req))
      then mret (bad_request "product not found")
      else
        let p := default ""%string (product req) in
        let y := map (fun r => series_value r p) (parsed nz) in
        let X := imap (fun i _ => i) (parsed nz) in
        let n := length X in
        let xMean := (sum (map of_nat X) / of_nat n)%float in
        let yMean := (sum y / of_nat n)%float in
        let num := sum (imap (fun i xi => ((of_nat xi - xMean) * (nth i y NaN - yMean))%float) X) in
        let den := sum (map (fun xi => square (of_nat xi - xMean)%float) X) in
        let slope := if strict_eq den 0 then 0%float else (num / den)%float in
        let intercept := (yMean - slope * xMean)%float in
        let forecast :=
          fold_left (fun forecast m =>
            let idx := Z.of_nat n + (m - 1) in
            let pred := (intercept + slope * of_Z idx)%float in
            forecast ++ [{| monthIndex := idx; predicted := toFixed_Number 2 pred |}])
            (map Z.of_nat (seq 1 (Z.to_nat months))) [] in
        mret (json_ok (Forecast (product req) (toFixed_Number 4 slope)
                         (toFixed_Number 4 intercept) forecast))
  end.

End Analytics.

(** ** 5. Two date parsers

    [Date_parse_iso] accepts the date-only form [YYYY-MM-DD] of the ECMAScript
    date-time format, which every engine reads as UTC midnight, and nothing
    else: on such a text it is what every engine returns, while on other
    texts an engine may accept more than it does (Node.js reads ['7'] and
    ['2024/03/01'] as dates). [Date_parse_named] also accepts a bare English
    month abbreviation, as the example of the specification supposes and as
    an engine with a lenient fallback may; Node.js does not: there
    [Date.parse('Jan')] is [NaN], and a computation with [Date_parse_named]
    on such labels is not one that Node.js performs. *)

Definition days_from_civil (y m d : Z) : Z :=
  let y' := if m <=? 2 then y - 1 else y in
  let era := y' / 400 in
  let yoe := y' - era * 400 in
  let mp := (m + 9) mod 12 in
  let doy := (153 * mp + 2) / 5 + d - 1 in
  let doe := yoe * 365 + yoe / 4 - yoe / 100 + doy in
  era * 146097 + doe - 719468.

Definition days_in_month (y m : Z) : Z :=
  if m =? 2 then
    if ((y mod 4 =? 0) && negb (y mod 100 =? 0)) || (y mod 400 =? 0) then 29 else 28
  else if (m =? 4) || (m =? 6) || (m =? 9) || (m =? 11) then 30
  else 31.

Definition fixed_digits (s : list ascii) (n : Z) : option Z :=
  match read_digits 10 s 0 0 with
  | (v, k, []) => if k =? n then Some v else None
  | _ => None
  end.

Definition Date_parse_iso (s : string) : time :=
  match list_ascii_of_string s with
  | [y1; y2; y3; y4; "-"%char; m1; m2; "-"%char; d1; d2] =>
      y ← fixed_digits [y1; y2; y3; y4] 4;
      m ← fixed_digits [m1; m2] 2;
      d ← fixed_digits [d1; d2] 2;
      if (1 <=? m) && (m <=? 12) && (1 <=? d) && (d <=? days_in_month y m)
      then Some (days_from_civil y m d * 86400000)
      else None
  | _ => None
  end.

Definition month_names : list string :=
  ["Jan"; "Feb"; "Mar"; "Apr"; "May"; "Jun";
   "Jul"; "Aug"; "Sep"; "Oct"; "Nov"; "Dec"]%string.

Fixpoint month_number (s : string) (names : list string) (m : Z) : option Z :=
  match names with
  | [] => None
  | n :: names' => if String.eqb s n then Some m else month_number s names' (m + 1)
  end.

Definition Date_parse_named (s : string) : time :=
  match Date_parse_iso s with
  | Some t => Some t
  | None =>
      m ← month_number s month_names 1;
      Some (days_from_civil 2001 m 1 * 86400000)
  end.

(** ** 5a. The upload handler

    [POST /upload-sales] answers at once when no file came with the request;
    otherwise the answer waits for the CSV stream, which either ends with
    the parsed rows or fails with an error. *)

Inductive parse_result : Type :=
| Parsed (results : list row)
| Failed (err : string).

(** [file] is [req.file]: the name that the upload middleware gave the file,
    and what the CSV stream of the file produces. *)
Definition upload_sales (file : option (string * parse_result)) : M response :=
  match file with
  | None => mret (bad_request "file required")
  | Some (filename, Parsed results) => upload_end filename results
  | Some (filename, Failed err) => mret {| status := 500; json := Error err |}
  end.

(** ** 5b. The car and rental API

    The in-memory stores [cars], [customers], [rentals], [rentalHistory] and
    the handlers of [/cars], [/cars/:id], [/rent], [/return], [/extend],
    [/rentals] and [/rental-history].

    - A [Map] is the list of its entries in insertion order; [own] is
      [Map.get] on a string key, [put] is [Map.set] (an existing key keeps its
      place) and [map snd] lists [Map.values()].
    - The body of a request is a JSON object; a field of it is [undefined]
      or a JSON scalar. Arrays and objects as field values are outside the
      model.
    - [Math.random] and [new Date()] are inputs of a request: the random
      suffix of every [genId] call and the text of every [nowISO] call. *)

Module CarRental.

Inductive scalar : Type :=
| JNull
| JBool (b : bool)
| JNum (x : number)
| JStr (s : string).

(** A field of [req.body]; [None] is [undefined]. *)
Definition field : Type := option scalar.

(** [ToBoolean]: what [!v] tests. *)
Definition ToBoolean (v : field) : bool :=
  match v with
  | None => false
  | Some JNull => false
  | Some (JBool b) => b
  | Some (JNum x) => truthy x
  | Some (JStr s) => negb (String.eqb s "")
  end.

(** [Number(v)]. *)
Definition ToNumber (v : field) : number :=
  match v with
  | None => NaN
  | Some JNull => 0%float
  | Some (JBool b) => if b then 1%float else 0%float
  | Some (JNum x) => x
  | Some (JStr s) => StringToNumber s
  end.

(** [{ carId, brand, model, pricePerDay, available }]. *)
Record car : Type := {
  carId : string;
  brand : field;
  model : field;
  pricePerDay : number;
  available : bool
}.

(** [{ customerId, name }]. *)
Record customer : Type := {
  customerId : string;
  name : field
}.

(** [{ id, carId, customerId, days, startAt }]; the fields carry the prefix
    [rental_] because a record of the same scope has [carId] already. *)
Record rental : Type := {
  rental_id : string;
  rental_carId : string;
  rental_customerId : string;
  rental_days : number;
  rental_startAt : string
}.

(** An entry of [rentalHistory]: a copy of the rental with its [action] and
    the fields the action adds. *)
Inductive history_entry : Type :=
| Rented (r : rental)
| Returned (r : rental) (returnedAt : string)
| Extended (r : rental) (extraDays : number) (at_ : string).

Record state : Type := {
  cars : obj car;
  customers : obj customer;
  rentals : list rental;
  rentalHistory : list history_entry
}.

(** The body of a response. *)
Inductive body : Type :=
| Error (error : string)
| CarList (l : list car)
| CarJson (c : car)
| RentalCreated (r : rental) (totalPrice : number)
| CarReturned (r : rental)
| RentalExtended (newDays newTotal : number)
| RentalList (l : list rental)
| HistoryList (l : list history_entry).

Record reply : Type := { status : Z; json : body }.

(** [genId(prefix)], where [rnd] is [Math.random().toString(36).slice(2, 9)]. *)
Definition genId (prefix rnd : string) : string := prefix +:+ rnd.

(** [m.get(k)] on a map with string keys: a key that is not a string is
    never present. *)
Definition Map_get {V : Type} (m : obj V) (k : field) : option V :=
  match k with
  | Some (JStr s) => own m s
  | _ => None
  end.

(** [r.carId === carId]. *)
Definition has_carId (carId : field) (r : rental) : bool :=
  match carId with
  | Some (JStr s) => String.eqb (rental_carId r) s
  | _ => false
  end.

(** [rentals.findIndex(r => r.carId === carId)] together with the element at
    that index, which is what [rentals.find] returns and what
    [rentals.splice(idx, 1)[0]] removes; [None] is -1 or [undefined]. *)
Definition find_rental (carId : field) (rentals : list rental)
  : option (nat * rental) :=
  list_find (fun r => has_carId carId r = true) rentals.

(** The five cars seeded at start-up. *)
Definition seed : list car :=
  [ {| carId := "C001"; brand := Some (JStr "Toyota"); model := Some (JStr "Fortuner");
       pricePerDay := 60; available := true |};
    {| carId := "C002"; brand := Some (JStr "Hyundai"); model := Some (JStr "Creta");
       pricePerDay := 70; available := true |};
    {| carId := "C003"; brand := Some (JStr "Mahindra"); model := Some (JStr "Thar");
       pricePerDay := 150; available := true |};
    {| carId := "C004"; brand := Some (JStr "Tesla"); model := Some (JStr "Model 3");
       pricePerDay := 200; available := true |};
    {| carId := "C005"; brand := Some (JStr "BMW"); model := Some (JStr "X5");
       pricePerDay := 250; available := true |} ]%float.

(** The stores after start-up: [seed.forEach(c => cars.set(c.carId, c))]. *)
Definition init : state :=
  {| cars := fold_left (fun m c => put (carId c) c m) seed [];
     customers := [];
     rentals := [];
     rentalHistory := [] |}.

Definition set_available (b : bool) (c : car) : car :=
  {| carId := carId c; brand := brand c; model := model c;
     pricePerDay := pricePerDay c; available := b |}.

Definition add_days (n : number) (r : rental) : rental :=
  {| rental_id := rental_id r; rental_carId := rental_carId r;
     rental_customerId := rental_customerId r;
     rental_days := (rental_days r + n)%float;
     rental_startAt := rental_startAt r |}.

(** [GET /cars]. *)
Definition get_cars (st : state) : res reply * state :=
  (Ret {| status := 200; json := CarList (map snd (cars st)) |}, st).

(** [POST /cars]. *)
Definition post_cars (brand model pricePerDay : field) (rnd : string) (st : state)
  : res reply * state :=
  if negb (ToBoolean brand) || negb (ToBoolean model) || negb (ToBoolean pricePerDay)
  then (Ret {| status := 400; json := Error "brand, model, pricePerDay required" |}, st)
  else
    let carId := genId "C" rnd in
    let car := {| carId := carId; brand := brand; model := model;
                  pricePerDay := ToNumber pricePerDay; available := true |} in
    (Ret {| status := 201; json := CarJson car |},
     {| cars := put carId car (cars st); customers := customers st;
        rentals := rentals st; rentalHistory := rentalHistory st |}).

(** [GET /cars/:id]. *)
Definition get_car (id : string) (st : state) : res reply * state :=
  match own (cars st) id with
  | None => (Ret {| status := 404; json := Error "car not found" |}, st)
  | Some car => (Ret {| status := 200; json := CarJson car |}, st)
  end.

(** [POST /rent]. The three inputs are the suffixes of [genId('CUS')] and
    [genId('R')] and the text of [nowISO()], in the order of the calls. *)
Definition post_rent (carId customerName days : field)
  (rnd_customer rnd_rental now : string) (st : state) : res reply * state :=
  if negb (ToBoolean carId) || negb (ToBoolean customerName) || negb (ToBoolean days)
  then (Ret {| status := 400; json := Error "carId, customerName, days required" |}, st)
  else
    match carId with
    | Some (JStr k) =>
        match own (cars st) k with
        | None => (Ret {| status := 404; json := Error "car not found" |}, st)
        | Some car =>
            if negb (available car)
            then (Ret {| status := 409; json := Error "car not available" |}, st)
            else
              let customerId := genId "CUS" rnd_customer in
              let customer := {| customerId := customerId; name := customerName |} in
              let rentalId := genId "R" rnd_rental in
              let rental := {| rental_id := rentalId; rental_carId := k;
                               rental_customerId := customerId;
                               rental_days := ToNumber days;
                               rental_startAt := now |} in
              (Ret {| status := 201;
                      json := RentalCreated rental
                                (pricePerDay car * ToNumber days)%float |},
               {| cars := put k (set_available false car) (cars st);
                  customers := put customerId customer (customers st);
                  rentals := rentals st ++ [rental];
                  rentalHistory := rentalHistory st ++ [Rented rental] |})
        end
    | _ => (Ret {| status := 404; json := Error "car not found" |}, st)
    end.

(** [POST /return]. *)
Definition post_return (carId : field) (now : string) (st : state)
  : res reply * state :=
  if negb (ToBoolean carId)
  then (Ret {| status := 400; json := Error "carId required" |}, st)
  else
    match find_rental carId (rentals st) with
    | None => (Ret {| status := 404; json := Error "rental not found" |}, st)
    | Some (idx, rental) =>
        let cars' :=
          match carId with
          | Some (JStr k) =>
              match own (cars st) k with
              | Some car => put k (set_available true car) (cars st)
              | None => cars st
              end
          | _ => cars st
          end in
        (Ret {| status := 200; json := CarReturned rental |},
         {| cars := cars'; customers := customers st;
            rentals := delete idx (rentals st);
            rentalHistory := rentalHistory st ++ [Returned rental now] |})
    end.

(** [POST /extend]. The rental is changed and the history entry is pushed
    before the car is read, so an uncaught exception at [car.pricePerDay]
    leaves both changes in place. *)
Definition post_extend (carId extraDays : field) (now : string) (st : state)
  : res reply * state :=
  if negb (ToBoolean carId) || negb (ToBoolean extraDays)
  then (Ret {| status := 400; json := Error "carId and extraDays required" |}, st)
  else
    match find_rental carId (rentals st) with
    | None => (Ret {| status := 404; json := Error "rental not found" |}, st)
    | Some (idx, r0) =>
        let r := add_days (ToNumber extraDays) r0 in
        let st' :=
          {| cars := cars st; customers := customers st;
             rentals := <[idx := r]> (rentals st);
             rentalHistory :=
               rentalHistory st ++ [Extended r (ToNumber extraDays) now] |} in
        match Map_get (cars st) carId with
        | None =>
            (Throw (TypeError
               "Cannot read properties of undefined (reading 'pricePerDay')"), st')
        | Some car =>
            (Ret {| status := 200;
                    json := RentalExtended (rental_days r)
                              (pricePerDay car * rental_days r)%float |}, st')
        end
    end.

(** [GET /rentals] and [GET /rental-history]. *)
Definition get_rentals (st : state) : res reply * state :=
  (Ret {| status := 200; json := RentalList (rentals st) |}, st).

Definition get_rental_history (st : state) : res reply * state :=
  (Ret {| status := 200; json := HistoryList (rentalHistory st) |}, st).

(** A request to the car and rental API, with the inputs it consumes. *)
Inductive call : Type :=
| GetCars
| PostCars (brand model pricePerDay : field) (rnd : string)
| GetCar (id : string)
| PostRent (carId customerName days : field) (rnd_customer rnd_rental now : string)
| PostReturn (carId : field) (now : string)
| PostExtend (carId extraDays : field) (now : string)
| GetRentals
| GetRentalHistory.

Definition handle (c : call) (st : state) : res reply * state :=
  match c with
  | GetCars => get_cars st
  | PostCars b m p rnd => post_cars b m p rnd st
  | GetCar id => get_car id st
  | PostRent k n d r1 r2 now => post_rent k n d r1 r2 now st
  | PostReturn k now => post_return k now st
  | PostExtend k e now => post_extend k e now st
  | GetRentals => get_rentals st
  | GetRentalHistory => get_rental_history st
  end.

(** The stores after a sequence of requests; a request that ends in an
    uncaught exception keeps the changes made before it. *)
Definition run (cs : list call) (st : state) : state :=
  fold_left (fun st c => snd (handle c st)) cs st.

(** *** [GET /cars/search] and the routes

    [String.prototype.toLowerCase] on 8-bit code units: the letters A-Z and
    the Latin-1 capitals from U+00C0 to U+00DE other than the multiplication
    sign U+00D7. *)
Definition lower_char (c : ascii) : ascii :=
  let n := code c in
  if ((65 <=? n) && (n <=? 90)) || ((192 <=? n) && (n <=? 222) && negb (n =? 215))
  then ascii_of_nat (Z.to_nat (n + 32)) else c.

Fixpoint toLowerCase (s : string) : string :=
  match s with
  | EmptyString => EmptyString
  | String c s' => String (lower_char c) (toLowerCase s')
  end.

Fixpoint starts_with (p s : string) : bool :=
  match p, s with
  | EmptyString, _ => true
  | String a p', String b s' => Ascii.eqb a b && starts_with p' s'
  | String _ _, EmptyString => false
  end.

(** [s.includes(q)]. *)
Fixpoint string_includes (s q : string) : bool :=
  starts_with q s
  || match s with
     | EmptyString => false
     | String _ s' => string_includes s' q
     end.

(** [v.toLowerCase().includes(q)] for a field [v] of a car. *)
Definition lower_includes (what : string) (v : field) (q : string) : res bool :=
  match v with
  | Some (JStr s) => Ret (string_includes (toLowerCase s) q)
  | Some JNull =>
      Throw (TypeError "Cannot read properties of null (reading 'toLowerCase')")
  | None =>
      Throw (TypeError "Cannot read properties of undefined (reading 'toLowerCase')")
  | Some _ => Throw (TypeError (what +:+ ".toLowerCase is not a function"))
  end.

(** The handler registered for [GET /cars/search]; [q] is [req.query.q] when
    it is a string. *)
Definition search_cars (q : option string) (st : state) : res reply * state :=
  let q := toLowerCase (match q with Some s => s | None => "" end) in
  (result ← filter_res (fun c =>
               b ← lower_includes "c.brand" (brand c) q;
               if b : bool then Ret true else lower_includes "c.model" (model c) q)
             (map snd (cars st));
   Ret {| status := 200; json := CarList result |}, st).

(** The routes in the order of their registration. A path is the list of
    its segments, without percent-escapes; a parameter takes one segment. *)
Inductive method : Type := GET | POST.

Inductive segment : Type :=
| Lit (s : string)
| Param (name : string).

Inductive endpoint : Type :=
| EpCars | EpCreateCar | EpCarById | EpSearch
| EpRent | EpReturn | EpExtend | EpRentals | EpRentalHistory
| EpUploadSales | EpTopSeller | EpMovingAverage | EpCorrelation | EpForecast
| EpHealth.

Definition routes : list (method * list segment * endpoint) :=
  [ (GET, [Lit "cars"], EpCars);
    (POST, [Lit "cars"], EpCreateCar);
    (GET, [Lit "cars"; Param "id"], EpCarById);
    (GET, [Lit "cars"; Lit "search"], EpSearch);
    (POST, [Lit "rent"], EpRent);
    (POST, [Lit "return"], EpReturn);
    (POST, [Lit "extend"], EpExtend);
    (GET, [Lit "rentals"], EpRentals);
    (GET, [Lit "rental-history"], EpRentalHistory);
    (POST, [Lit "upload-sales"], EpUploadSales);
    (POST, [Lit "analytics"; Lit "top-seller"], EpTopSeller);
    (POST, [Lit "analytics"; Lit "moving-average"], EpMovingAverage);
    (POST, [Lit "analytics"; Lit "correlation"], EpCorrelation);
    (POST, [Lit "analytics"; Lit "forecast"], EpForecast);
    (GET, [Lit "health"], EpHealth) ].

Definition method_eqb (a b : method) : bool :=
  match a, b with
  | GET, GET | POST, POST => true
  | _, _ => false
  end.

(** Whether a route pattern matches a path, and [req.params] when it does.
    Literal segments compare without regard to case. *)
Fixpoint match_path (pat : list segment) (path : list string) : option (obj string) :=
  match pat, path with
  | [], [] => Some []
  | Lit s :: pat', x :: path' =>
      if String.eqb (toLowerCase s) (toLowerCase x) then match_path pat' path'
      else None
  | Param name :: pat', x :: path' =>
      if String.eqb x "" then None
      else ps ← match_path pat' path'; Some (put name x ps)
  | _, _ => None
  end.

(** The first route that matches: every handler answers without calling
    [next], so no later route is tried. *)
Fixpoint first_match (rs : list (method * list segment * endpoint))
  (m : method) (path : list string) : option (endpoint * obj string) :=
  match rs with
  | [] => None
  | (m', pat, ep) :: rs' =>
      match (if method_eqb m m' then match_path pat path else None) with
      | Some ps => Some (ep, ps)
      | None => first_match rs' m path
      end
  end.

Definition dispatch (m : method) (path : list string) : option (endpoint * obj string) :=
  first_match routes m path.

(** What a [GET] request to the car and rental API is answered with; [None]
    when no route of this API matches. *)
Definition serve_get (path : list string) (q : option string) (st : state)
  : option (res reply * state) :=
  match dispatch GET path with
  | Some (EpCars, _) => Some (get_cars st)
  | Some (EpCarById, params) =>
      Some (get_car (match own params "id" with Some id => id | None => "" end) st)
  | Some (EpSearch, _) => Some (search_cars q st)
  | Some (EpRentals, _) => Some (get_rentals st)
  | Some (EpRentalHistory, _) => Some (get_rental_history st)
  | _ => None
  end.

(** Every key of [cars] starts with the letter C, as the seeded ids and the
    ids of [genId('C')] do. *)
Definition ids_generated (st : state) : bool :=
  forallb (starts_with "C") (map fst (cars st)).

(** The ids of the cars that have an active rental. *)
Definition rented_cars (st : state) : list string :=
  map rental_carId (rentals st).

(** The entry of [cars] is stored under its own [carId], and the car is
    available exactly when no active rental names it. *)
Definition car_entry_ok (st : state) (e : string * car) : bool :=
  String.eqb (carId (snd e)) (fst e)
  && Bool.eqb (available (snd e))
       (negb (existsb (String.eqb (fst e)) (rented_cars st))).

(** Every active rental names a car of [cars]. *)
Definition rentals_known (st : state) : bool :=
  forallb (fun k => existsb (String.eqb k) (map fst (cars st))) (rented_cars st).

(** The stores agree: the keys of [cars] are distinct, every entry is
    [car_entry_ok], no car has two active rentals, and every active rental
    names a car of [cars]. *)
Definition consistent (st : state) : bool :=
  distinct (map fst (cars st))
  && forallb (car_entry_ok st) (cars st)
  && distinct (rented_cars st)
  && rentals_known st.

(** The id that [POST /cars] generates is not the id of a car in the store. *)
Definition fresh (c : call) (st : state) : bool :=
  match c with
  | PostCars _ _ _ rnd => negb (existsb (String.eqb (genId "C" rnd)) (map fst (cars st)))
  | _ => true
  end.

Fixpoint fresh_ids (cs : list call) (st : state) : bool :=
  match cs with
  | [] => true
  | c :: cs' => fresh c st && fresh_ids cs' (snd (handle c st))
  end.

(** A sequence of requests used by the closed statements: a car is created,
    C001 is rented, extended, asked for again, returned, and returned again. *)
Definition session : list call :=
  [ PostCars (Some (JStr "Kia")) (Some (JStr "Seltos")) (Some (JNum 80)) "k3x9q2a";
    PostRent (Some (JStr "C001")) (Some (JStr "Asha")) (Some (JNum 3))
      "a1b2c3d" "e4f5g6h" "2024-01-01T00:00:00.000Z";
    PostExtend (Some (JStr "C001")) (Some (JStr "2")) "2024-01-02T00:00:00.000Z";
    PostRent (Some (JStr "C001")) (Some (JStr "Ravi")) (Some (JNum 1))
      "i7j8k9l" "m1n2o3p" "2024-01-03T00:00:00.000Z";
    PostReturn (Some (JStr "C001")) "2024-01-04T00:00:00.000Z";
    PostReturn (Some (JStr "C001")) "2024-01-05T00:00:00.000Z" ].

End CarRental.

(** * Vocabulary of the statements *)

(** ** 6. Orders

    The order of the binary64 values as integers, and the order of property
    keys. *)

(** The order of the non-NaN values, as integers (unit 2^-1074). *)
Definition ord (x : spec_float) : Z :=
  match x with
  | S754_zero _ => 0
  | S754_infinity s => if s then - 2 ^ 2200 else 2 ^ 2200
  | S754_nan => 0
  | S754_finite s m e => if s then - (Zpos m * 2 ^ (e + 1074)) else Zpos m * 2 ^ (e + 1074)
  end.

Definition not_nan (x : spec_float) : Prop := x <> S754_nan.

Definition rank (x : float) : Z := ord (Prim2SF x).

(** [mrs] holds the non-negative integer [P] shifted right by [k] places:
    its mantissa is the quotient, its round bit the first place shifted out
    and its sticky bit tells whether anything below that place is set. *)
Definition shifted (P k : Z) (mrs : shr_record) : Prop :=
  0 <= shr_m mrs /\
  exists low, 0 <= low < 2 ^ k
    /\ 2 * P = (2 * shr_m mrs + Z.b2z (shr_r mrs)) * 2 ^ k + low
    /\ shr_s mrs = negb (low =? 0).

(** Ascending index values. *)
Fixpoint ascending (ks : list string) : Prop :=
  match ks with
  | [] => True
  | k :: ks' =>
      match ks' with
      | [] => True
      | k' :: _ => index_value k <= index_value k'
      end /\ ascending ks'
  end.

(** A key list in property order: ascending indices, then the other keys. *)
Definition key_ordered (ks : list string) : Prop :=
  exists idx others,
    ks = idx ++ others
    /\ Forall (fun k => is_index k = true) idx
    /\ ascending idx
    /\ Forall (fun k => is_index k = false) others.

(** ** 7. Parts of the normalizer and of the handlers *)

(** Whether [new Date(r[dateCol])] is a valid date. *)
Definition date_parses (Date_parse : string -> time) (d : option string) (r : row)
  : bool :=
  bool_decide (is_Some (new_Date Date_parse (get_key r d))).

(** The columns that [normalizeSalesData] infers from the first row. *)
Definition inferred_dateCol (r0 : row) : option string := head (Object_keys r0).

Definition inferred_seriesCols (r0 : row) : list string := tail (Object_keys r0).

(** [salesDataFiles.get(fileId)]. *)
Definition cached_rows (σ : store) (req : request) : option (list row) :=
  match fileId req with Some f => σ !! f | None => None end.

(** A computation that leaves the cache as it found it. *)
Definition read_only {A : Type} (m : M A) : Prop := forall σ, snd (m σ) = σ.

(** The time value under ["date"] of a normalized row. *)
Definition row_time (x : obj value) : Z :=
  match own x "date" with
  | Some (VDate (Some t)) => t
  | _ => 0
  end.

(** The loops of the correlation handler over the series columns [cols],
    where [column c] reads [values[c]] and [col c] is the array it holds:
    the value stored under [matrix[a][b]], the body of the inner loop, and
    the inner object under [matrix[a]] when the loops are over. *)
Definition entry (col : string -> list number) (a b : string) : number :=
  toFixed_Number 4 (pearson (col a) (col b)).

Definition fill_cell (column : string -> res (list number))
  (ci : string) (matrix : obj (obj number)) (cj : string) : res (obj (obj number)) :=
  x ← column ci;
  y ← column cj;
  let v := toFixed_Number 4 (pearson x y) in
  match own matrix ci with
  | Some inner => Ret (put ci (put cj v inner) matrix)
  | None => Throw (TypeError "Cannot set properties of undefined")
  end.

Definition matrix_row (cols : list string) (col : string -> list number)
  (a : string) : obj number :=
  fold_left (fun inner cj => put cj (entry col a cj) inner) cols [].

(** ** 8. The formulas of the specification *)

(** The series that the handlers read: [parsed.map(r => r[p] || 0)]. *)
Definition series (nz : normalized) (p : string) : list number :=
  map (fun r => series_value r p) (parsed nz).

(** The arithmetic mean, in binary64: the sum from the left, divided by the
    count. *)
Definition mean (l : list number) : number := (sum l / of_nat (length l))%float.

(** Ordinary least squares over x = 0, 1, ..., n-1, following the
    specification: slope = Σ(x-x̄)(y-ȳ) / Σ(x-x̄)², 0 when the denominator is
    zero; intercept = ȳ - slope·x̄. *)
Definition ols_xbar (n : nat) : number := mean (map of_nat (seq 0 n)).

Definition ols_numerator (y : list number) : number :=
  sum (map (fun i => ((of_nat i - ols_xbar (length y)) * (nth i y NaN - mean y))%float)
         (seq 0 (length y))).

Definition ols_denominator (n : nat) : number :=
  sum (map (fun i => square (of_nat i - ols_xbar n)%float) (seq 0 n)).

Definition ols_slope (y : list number) : number :=
  if strict_eq (ols_denominator (length y)) 0 then 0%float
  else (ols_numerator y / ols_denominator (length y))%float.

Definition ols_intercept (y : list number) : number :=
  (mean y - ols_slope y * ols_xbar (length y))%float.

(** The prediction at index [idx], rounded to two decimals. *)
Definition ols_prediction (y : list number) (idx : Z) : fc_entry :=
  {| monthIndex := idx;
     predicted := toFixed_Number 2 (ols_intercept y + ols_slope y * of_Z idx)%float |}.

(** The binary64 number nearest to the decimal n / 10^d (n >= 0), with the
    sign [neg]: what [Number] reads from the digits of n with d decimals. *)
Definition decimal (neg : bool) (n : Z) (d : nat) : number :=
  match n with
  | Zpos p => float_of_ratio neg p (Z.to_pos (10 ^ Z.of_nat d))
  | _ => signed_zero neg
  end.

(** "x rounded to d decimals", in the words of the specification: [r] is the
    decimal n / 10^d nearest to x. For x = ±m·2^e the integer n is the one with
    n - 1/2 <= m·2^e·10^d < n + 1/2 (a tie goes away from zero), stated here
    with both sides multiplied by 2 and by 2^-e when e is negative; [r] has
    the sign of x. [NaN], the infinities and the numbers from 10^21 on have no
    decimals to round and are kept; a zero gives +0. *)
Definition rounds_to (d : nat) (x r : number) : Prop :=
  match Prim2SF x with
  | S754_nan => r = NaN
  | S754_infinity _ => r = x
  | S754_zero _ => r = 0%float
  | S754_finite s m e =>
      if (1e21 <=? abs x)%float then r = x
      else
        exists n : Z,
          (2 * n - 1) * 2 ^ Z.max 0 (- e)
            <= 2 * (Zpos m * 2 ^ Z.max 0 e) * 10 ^ Z.of_nat d
            < (2 * n + 1) * 2 ^ Z.max 0 (- e)
          /\ r = decimal s n d
  end.

(** The values of the series at the indices from [lo] to [hi], inclusive. *)
Definition values_between (values : list number) (lo hi : nat) : list number :=
  map (fun j => nth j values 0%float) (seq lo (S hi - lo)).

(** The first index of the trailing window that ends at [i]. *)
Definition window_start (w : Z) (i : nat) : nat :=
  Z.to_nat (Z.max 0 (Z.of_nat i - w + 1)).

(** The sum of a series column, added up in row order from 0. *)
Definition column_sum (nz : normalized) (c : string) : number := sum (series nz c).

(** The date parser accepts the three month labels of the example. *)
Definition labels_parse (Date_parse : string -> time) : Prop :=
  is_Some (Date_parse "Jan") /\ is_Some (Date_parse "Feb") /\ is_Some (Date_parse "Mar").

(** Σ(x-x̄)², in binary64. *)
Definition centred_squares (x : list number) : number :=
  sum (map (fun xi => square (xi - mean x)%float) x).

(** Σ(x-x̄)(y-ȳ) over the rows, in binary64. *)
Definition deviations_product (x y : list number) : number :=
  sum (map (fun p => ((fst p - mean x) * (snd p - mean y))%float) (combine x y)).

(** The Pearson coefficient following the specification: the covariance over
    the product of the standard deviations (population formulas, with the
    common factor 1/n cancelled), and 0 when the denominator is zero. *)
Definition pearson_denominator (x y : list number) : number :=
  (sqrt (centred_squares x) * sqrt (centred_squares y))%float.

Definition pearson_coefficient (x y : list number) : number :=
  if strict_eq (pearson_denominator x y) 0 then 0%float
  else (deviations_product x y / pearson_denominator x y)%float.

(** [M[a][b]]. *)
Definition cell (m : obj (obj number)) (a b : string) : option number :=
  match own m a with
  | Some r => own r b
  | None => None
  end.

(** The coefficient of a series with itself, in terms of s = Σ(x-x̄)². *)
Definition self_coefficient (x : list number) : number :=
  let s := centred_squares x in
  let d := (sqrt s * sqrt s)%float in
  if strict_eq d 0 then 0%float else (s / d)%float.

(** ** 9. Inputs of the closed statements *)

(** The second of three rows has a date text that does not parse. *)
Definition rows_with_bad_date : list row :=
  [ [("Month", "2024-01-01"); ("A", "10")];
    [("Month", "not a date"); ("A", "20")];
    [("Month", "2024-03-01"); ("A", "30")] ].


(** The CSV header [Month,2023]: the second name is an array index. *)
Definition rows_with_year_header : list row :=
  [ [("Month", "2024-01-01"); ("2023", "7")] ].

(** The CSV header [id,date,amount]: a series column named ["date"]. *)
Definition rows_with_date_series : list row :=
  [ [("id", "2024-01-01"); ("date", "2024-01-01"); ("amount", "5")] ].



Definition cache_with_date_series : store := {[ "f1" := rows_with_date_series ]}.

Definition request_units : request :=
  {| fileId := Some "f1"; product := Some "units";
     window := None; monthsForecast := None |}.

(** A dataset with the date column only. *)
Definition rows_with_one_key : list row := [ [("Month", "2024-01-01")] ].

Definition request_f1 : request :=
  {| fileId := Some "f1"; product := None; window := None; monthsForecast := None |}.

Definition cache_with_bad_date : store := {[ "f1" := rows_with_bad_date ]}.

Definition cache_with_one_key : store := {[ "f1" := rows_with_one_key ]}.

(** The linear series 10, 20, 30, 40. *)
Definition rows_linear : list row :=
  [ [("Month", "2024-01-01"); ("y", "10")];
    [("Month", "2024-02-01"); ("y", "20")];
    [("Month", "2024-03-01"); ("y", "30")];
    [("Month", "2024-04-01"); ("y", "40")] ].

Definition cache_linear : store := {[ "f1" := rows_linear ]}.

Definition request_y : request :=
  {| fileId := Some "f1"; product := Some "y";
     window := None; monthsForecast := None |}.

(** The series 1, 2, 4, whose least-squares line has the intercept 5/6. *)
Definition rows_curved : list row :=
  [ [("Month", "2024-01-01"); ("y", "1")];
    [("Month", "2024-02-01"); ("y", "2")];
    [("Month", "2024-03-01"); ("y", "4")] ].

Definition cache_curved : store := {[ "f1" := rows_curved ]}.


(** The dataset of the specification's example. *)
Definition rows_example : list row :=
  [ [("Month", "Jan"); ("A", "10"); ("B", "5")];
    [("Month", "Feb"); ("A", "20"); ("B", "15")];
    [("Month", "Mar"); ("A", "30"); ("B", "10")] ].

Definition cache_example : store := {[ "f1" := rows_example ]}.

(** The example with dates in the form [YYYY-MM-DD], and a third column T
    whose squared deviations are subnormal numbers. *)
Definition rows_dated : list row :=
  [ [("Month", "2024-01-01"); ("A", "10"); ("B", "5"); ("T", "0")];
    [("Month", "2024-02-01"); ("A", "20"); ("B", "15"); ("T", "1e-160")];
    [("Month", "2024-03-01"); ("A", "30"); ("B", "10"); ("T", "0")] ].

Definition cache_dated : store := {[ "f1" := rows_dated ]}.

(** Column A adds up to [Infinity + -Infinity], which is [NaN]. *)
Definition rows_with_infinities : list row :=
  [ [("Month", "2024-01-01"); ("A", "Infinity"); ("B", "2")];
    [("Month", "2024-02-01"); ("A", "-Infinity"); ("B", "3")] ].

Definition cache_with_infinities : store := {[ "f1" := rows_with_infinities ]}.

(** Two finite values whose squared deviations overflow. *)
Definition rows_with_huge_value : list row :=
  [ [("Month", "2024-01-01"); ("A", "0")];
    [("Month", "2024-02-01"); ("A", "1e200")] ].

Definition cache_with_huge_value : store := {[ "f1" := rows_with_huge_value ]}.

(** Two different values whose squared deviations underflow to zero. *)
Definition rows_with_tiny_value : list row :=
  [ [("Month", "2024-01-01"); ("A", "0")];
    [("Month", "2024-02-01"); ("A", "1e-200")] ].

Definition cache_with_tiny_value : store := {[ "f1" := rows_with_tiny_value ]}.

(** * Properties *)

(** ** 10. Facts about binary64 arithmetic

    The primitive operations are specified by the standard library as the
    functions of [SpecFloat] on [Prim2SF]; the facts below are proved on that
    specification. *)

Lemma Prim2SF_one : Prim2SF 1%float = S754_finite false 4503599627370496 (-52).
Proof. reflexivity. Qed.

Lemma Prim2SF_zero : Prim2SF 0%float = S754_zero false.
Proof. reflexivity. Qed.

Ltac fexp_lia := unfold fexp, SpecFloat.emin, prec, emax in *; lia.

(** [SpecFloat] is written with the integer functions of the core library;
    this states a goal with the standard library's names for them. *)
Ltac std_Z :=
  change IntDef.Z.add with Z.add in *;
  change IntDef.Z.sub with Z.sub in *;
  change IntDef.Z.mul with Z.mul in *;
  change IntDef.Z.opp with Z.opp in *;
  change IntDef.Z.min with Z.min in *;
  change IntDef.Z.max with Z.max in *;
  change IntDef.Z.leb with Z.leb in *;
  change IntDef.Z.eqb with Z.eqb in *;
  change IntDef.Z.compare with Z.compare in *;
  change IntDef.Z.div_eucl with Z.div_eucl in *;
  change IntDef.Z.shiftl with Z.shiftl in *.

Lemma bounded_inv m e :
  bounded prec emax m e = true ->
  fexp prec emax (Zpos (digits2_pos m) + e) = e /\ e <= 971.
Proof.
  unfold bounded, canonical_mantissa.
  rewrite andb_true_iff, Z.eqb_eq, Z.leb_le. unfold prec, emax. lia.
Qed.

Lemma div_eucl_shift m k j :
  0 <= j -> 0 <= k ->
  Z.div_eucl (Z.shiftl (Zpos m) (k + j)) (2 ^ k) = (Zpos m * 2 ^ j, 0).
Proof.
  intros Hj Hk.
  rewrite Z.shiftl_mul_pow2 by lia.
  rewrite Z.pow_add_r by lia.
  pose proof (Z.pow_pos_nonneg 2 k ltac:(lia) Hk) as Hp.
  assert (Hd : Zpos m * (2 ^ k * 2 ^ j) = Zpos m * 2 ^ j * 2 ^ k) by ring.
  rewrite Hd.
  generalize (Z_div_mod (Zpos m * 2 ^ j * 2 ^ k) (2 ^ k) ltac:(lia)).
  destruct (Z.div_eucl (Zpos m * 2 ^ j * 2 ^ k) (2 ^ k)) as [q r].
  intros [Heq Hr].
  assert (q = Zpos m * 2 ^ j) by nia.
  subst q. f_equal. lia.
Qed.

(** Rounding a value that is already in the format returns it. *)
Lemma round_exact s m e :
  fexp prec emax (Zpos (digits2_pos m) + e) = e -> e <= 971 ->
  binary_round_aux prec emax s (Zpos m) e loc_Exact = S754_finite s m e.
Proof.
  intros Hc He.
  unfold binary_round_aux, shr_fexp.
  cbn [Zdigits2 shr_record_of_loc]. std_Z.
  rewrite Hc, Z.sub_diag.
  cbn [shr shr_m loc_of_shr_record round_nearest_even Zdigits2 shr_record_of_loc].
  std_Z. rewrite Hc, Z.sub_diag.
  cbn [shr shr_m]. std_Z.
  replace (e <=? emax - prec) with true; [reflexivity|].
  symmetry. apply Z.leb_le. unfold emax, prec. lia.
Qed.

(** The same when the mantissa carries one extra zero bit. *)
Lemma round_exact_double s m e :
  fexp prec emax (Zpos (digits2_pos m) + e) = e -> e <= 971 -> -1074 < e ->
  binary_round_aux prec emax s (Zpos m~0) (e - 1) loc_Exact = S754_finite s m e.
Proof.
  intros Hc He Hlt.
  unfold binary_round_aux, shr_fexp.
  cbn [Zdigits2 shr_record_of_loc digits2_pos]. std_Z.
  rewrite Pos2Z.inj_succ.
  replace (fexp prec emax (Z.succ (Z.pos (digits2_pos m)) + (e - 1)) - (e - 1))
    with 1 by fexp_lia.
  cbn [shr SpecFloat.iter_pos shr_1 shr_m loc_of_shr_record round_nearest_even Zdigits2
       shr_record_of_loc orb].
  std_Z. replace (e - 1 + 1) with e by lia.
  rewrite Hc, Z.sub_diag.
  cbn [shr shr_m]. std_Z.
  replace (e <=? emax - prec) with true; [reflexivity|].
  symmetry. apply Z.leb_le. unfold emax, prec. lia.
Qed.

Lemma SFdiv_one x :
  valid_binary x = true ->
  SFdiv prec emax x (S754_finite false 4503599627370496 (-52)) = x.
Proof.
  destruct x as [s|s| |s m e]; cbn [SFdiv SpecFloat.valid_binary]; intros Hv.
  - now destruct s.
  - now destruct s.
  - reflexivity.
  - apply bounded_inv in Hv as [Hc He].
    rewrite xorb_false_r.
    unfold SFdiv_core_binary.
    change (Zdigits2 (Z.pos m)) with (Zpos (digits2_pos m)).
    change (Zdigits2 4503599627370496) with 53.
    assert (Hcase : e = -1074 \/ (-1074 < e /\ Zpos (digits2_pos m) = 53)) by fexp_lia.
    destruct Hcase as [-> | [Hlt Hd]].
    + replace (Z.min (fexp prec emax (Zpos (digits2_pos m) + -1074 - (53 + -52))) (-1074 - -52))
        with (-1074) by fexp_lia.
      change (-1074 - -52 - -1074) with 52.
      cbv iota.
      change (IntDef.Z.div_eucl (IntDef.Z.shiftl (Z.pos m) 52) 4503599627370496)
        with (Z.div_eucl (Z.shiftl (Z.pos m) (52 + 0)) (2 ^ 52)).
      rewrite div_eucl_shift by lia.
      rewrite Z.pow_0_r, Z.mul_1_r.
      change (new_location 4503599627370496 0) with loc_Exact.
      cbv iota beta.
      now apply round_exact.
    + replace (Z.min (fexp prec emax (Zpos (digits2_pos m) + e - (53 + -52))) (e - -52))
        with (e - 1) by fexp_lia.
      replace (e - -52 - (e - 1)) with 53 by lia.
      cbv iota.
      change (IntDef.Z.div_eucl (IntDef.Z.shiftl (Z.pos m) 53) 4503599627370496)
        with (Z.div_eucl (Z.shiftl (Z.pos m) (52 + 1)) (2 ^ 52)).
      rewrite div_eucl_shift by lia.
      change (new_location 4503599627370496 0) with loc_Exact.
      replace (Z.pos m * 2 ^ 1) with (Zpos m~0) by lia.
      cbv iota beta.
      now apply round_exact_double.
Qed.

Lemma div_one (x : float) : (x / 1)%float = x.
Proof.
  apply Prim2SF_inj. rewrite FloatAxioms.div_spec, Prim2SF_one.
  apply SFdiv_one, Prim2SF_valid.
Qed.

Lemma SFadd_zero_l y :
  y <> S754_zero true -> SFadd prec emax (S754_zero false) y = y.
Proof. destruct y as [[]|[]| |s m e]; cbn; congruence. Qed.

Lemma SFmul_comm x y : SFmul prec emax x y = SFmul prec emax y x.
Proof.
  destruct x as [sx|sx| |sx mx ex], y as [sy|sy| |sy my ey]; cbn [SFmul];
    rewrite ?(xorb_comm sx sy); try reflexivity.
  now rewrite Pos.mul_comm, Z.add_comm.
Qed.

Lemma mul_comm (x y : float) : (x * y)%float = (y * x)%float.
Proof. apply Prim2SF_inj. rewrite !FloatAxioms.mul_spec. apply SFmul_comm. Qed.
Lemma digits_log2 p : Zpos (digits2_pos p) = Z.log2 (Zpos p) + 1.
Proof.
  assert (H : forall q, digits2_pos q = Pos.size q) by (induction q; simpl; congruence).
  rewrite H. destruct p; simpl; lia.
Qed.

Lemma digits_bounds p :
  2 ^ (Zpos (digits2_pos p) - 1) <= Zpos p < 2 ^ Zpos (digits2_pos p).
Proof.
  rewrite digits_log2.
  pose proof (Z.log2_spec (Zpos p) ltac:(lia)) as H.
  replace (Z.log2 (Z.pos p) + 1 - 1) with (Z.log2 (Zpos p)) by lia.
  replace (Z.log2 (Z.pos p) + 1) with (Z.succ (Z.log2 (Zpos p))) by lia.
  exact H.
Qed.

Lemma finite_ord_bounds m e :
  bounded prec emax m e = true ->
  0 < Zpos m * 2 ^ (e + 1074) < 2 ^ 2200.
Proof.
  intros [Hc He]%bounded_inv.
  pose proof (digits_bounds m) as [Hlo Hhi].
  assert (He' : -1074 <= e) by fexp_lia.
  assert (Hd : Zpos (digits2_pos m) <= 53) by fexp_lia.
  assert (0 < 2 ^ (e + 1074)) by (apply Z.pow_pos_nonneg; lia).
  split; [lia|].
  assert (Zpos m < 2 ^ 53).
  { eapply Z.lt_le_trans; [exact Hhi|]. apply Z.pow_le_mono_r; lia. }
  assert (2 ^ (e + 1074) <= 2 ^ 2045) by (apply Z.pow_le_mono_r; lia).
  replace (2 ^ 2200) with (2 ^ 53 * (2 ^ 2045 * 2 ^ 102)) by (rewrite <- !Z.pow_add_r by lia; reflexivity).
  assert (0 < 2 ^ 102) by (apply Z.pow_pos_nonneg; lia).
  assert (0 < 2 ^ 2045) by (apply Z.pow_pos_nonneg; lia).
  nia.
Qed.

Lemma finite_ord_compare m1 e1 m2 e2 :
  bounded prec emax m1 e1 = true -> bounded prec emax m2 e2 = true ->
  match e1 ?= e2 with
  | Lt => Lt
  | Gt => Gt
  | Eq => Pos.compare_cont Eq m1 m2
  end = (Zpos m1 * 2 ^ (e1 + 1074) ?= Zpos m2 * 2 ^ (e2 + 1074)).
Proof.
  intros [Hc1 He1]%bounded_inv [Hc2 He2]%bounded_inv.
  pose proof (digits_bounds m1) as [Hlo1 Hhi1].
  pose proof (digits_bounds m2) as [Hlo2 Hhi2].
  assert (Hmin1 : -1074 <= e1) by fexp_lia.
  assert (Hmin2 : -1074 <= e2) by fexp_lia.
  assert (Hd1 : Zpos (digits2_pos m1) <= 53) by fexp_lia.
  assert (Hd2 : Zpos (digits2_pos m2) <= 53) by fexp_lia.
  assert (Hu1 : Zpos m1 < 2 ^ 53).
  { eapply Z.lt_le_trans; [exact Hhi1|]. apply Z.pow_le_mono_r; lia. }
  assert (Hu2 : Zpos m2 < 2 ^ 53).
  { eapply Z.lt_le_trans; [exact Hhi2|]. apply Z.pow_le_mono_r; lia. }
  destruct (Z.compare_spec e1 e2) as [Heq | Hlt | Hgt].
  - subst e2. fold (Pos.compare m1 m2).
    assert (0 < 2 ^ (e1 + 1074)) by (apply Z.pow_pos_nonneg; lia).
    change (Pos.compare m1 m2) with (Zpos m1 ?= Zpos m2).
    destruct (Z.compare_spec (Zpos m1) (Zpos m2)); symmetry.
    + apply Z.compare_eq_iff. congruence.
    + apply Z.compare_lt_iff. nia.
    + apply Z.compare_gt_iff. nia.
  - symmetry. apply Z.compare_lt_iff.
    assert (Hd : Zpos (digits2_pos m2) = 53) by fexp_lia.
    rewrite Hd in Hlo2. change (53 - 1) with 52 in Hlo2.
    replace (e2 + 1074) with ((e1 + 1074) + (e2 - e1)) by lia.
    rewrite (Z.pow_add_r 2 (e1 + 1074) (e2 - e1)) by lia.
    assert (0 < 2 ^ (e1 + 1074)) by (apply Z.pow_pos_nonneg; lia).
    assert (2 ^ 1 <= 2 ^ (e2 - e1)) by (apply Z.pow_le_mono_r; lia).
    set (P := 2 ^ (e1 + 1074)) in *. set (Q := 2 ^ (e2 - e1)) in *.
    change (2 ^ 1) with 2 in *. change (2 ^ 52) with 4503599627370496 in *.
    change (2 ^ 53) with 9007199254740992 in *.
    assert (Z.pos m1 * P < 9007199254740992 * P) by nia.
    assert (9007199254740992 <= Z.pos m2 * Q) by nia.
    nia.
  - symmetry. apply Z.compare_gt_iff.
    assert (Hd : Zpos (digits2_pos m1) = 53) by fexp_lia.
    rewrite Hd in Hlo1. change (53 - 1) with 52 in Hlo1.
    replace (e1 + 1074) with ((e2 + 1074) + (e1 - e2)) by lia.
    rewrite (Z.pow_add_r 2 (e2 + 1074) (e1 - e2)) by lia.
    assert (0 < 2 ^ (e2 + 1074)) by (apply Z.pow_pos_nonneg; lia).
    assert (2 ^ 1 <= 2 ^ (e1 - e2)) by (apply Z.pow_le_mono_r; lia).
    set (P := 2 ^ (e2 + 1074)) in *. set (Q := 2 ^ (e1 - e2)) in *.
    change (2 ^ 1) with 2 in *. change (2 ^ 52) with 4503599627370496 in *.
    change (2 ^ 53) with 9007199254740992 in *.
    assert (Z.pos m2 * P < 9007199254740992 * P) by nia.
    assert (9007199254740992 <= Z.pos m1 * Q) by nia.
    nia.
Qed.

Lemma SFcompare_ord x y :
  valid_binary x = true -> valid_binary y = true ->
  x <> S754_nan -> y <> S754_nan ->
  SFcompare x y = Some (ord x ?= ord y).
Proof.
  intros Hx Hy Nx Ny.
  assert (Hbig : 0 < 2 ^ 2200) by (apply Z.pow_pos_nonneg; lia).
  destruct x as [sx|sx| |sx mx ex], y as [sy|sy| |sy my ey];
    try congruence; cbn [SFcompare ord SpecFloat.valid_binary] in *;
    try (pose proof (finite_ord_bounds _ _ Hx));
    try (pose proof (finite_ord_bounds _ _ Hy)).
  all: try (f_equal; symmetry;
            repeat match goal with |- context [if ?b then _ else _] => destruct b end;
            first [ apply Z.compare_eq_iff; lia | apply Z.compare_lt_iff; lia
                  | apply Z.compare_gt_iff; lia ]).
  f_equal. destruct sx, sy.
  - pose proof (finite_ord_compare _ _ _ _ Hx Hy) as Hc.
    rewrite Z.compare_opp, (Z.compare_antisym (Zpos mx * 2 ^ (ex + 1074))), <- Hc.
    now destruct (ex ?= ey).
  - symmetry. apply Z.compare_lt_iff. lia.
  - symmetry. apply Z.compare_gt_iff. lia.
  - apply finite_ord_compare; assumption.
Qed.

Lemma shr_1_m mrs : 0 <= shr_m mrs -> shr_m (shr_1 mrs) = shr_m mrs / 2.
Proof.
  destruct mrs as [m r s]; cbn [shr_m]. intros Hm.
  destruct m as [|p|p]; [reflexivity| |lia].
  destruct p as [p|p|]; cbn [shr_1 shr_m].
  - rewrite Pos2Z.inj_xI. apply Z.div_unique with 1; lia.
  - rewrite Pos2Z.inj_xO. apply Z.div_unique with 0; lia.
  - reflexivity.
Qed.

Lemma shr_iter_m p : forall mrs,
  0 <= shr_m mrs -> shr_m (SpecFloat.iter_pos shr_1 p mrs) = shr_m mrs / 2 ^ Zpos p.
Proof.
  induction p as [p IH|p IH|]; intros mrs Hm; cbn [SpecFloat.iter_pos].
  - assert (H1 : 0 <= shr_m (shr_1 mrs)) by (rewrite shr_1_m by lia; apply Z.div_pos; lia).
    assert (H2 : 0 <= shr_m (SpecFloat.iter_pos shr_1 p (shr_1 mrs))).
    { rewrite IH by lia. apply Z.div_pos; [lia|]. apply Z.pow_pos_nonneg; lia. }
    rewrite IH, IH, shr_1_m by lia.
    rewrite !Z.div_div by (try apply Z.pow_pos_nonneg; lia).
    f_equal. replace (Zpos p~1) with (1 + Zpos p + Zpos p) by lia.
    rewrite !Z.pow_add_r by lia. ring.
  - assert (H2 : 0 <= shr_m (SpecFloat.iter_pos shr_1 p mrs)).
    { rewrite IH by lia. apply Z.div_pos; [lia|]. apply Z.pow_pos_nonneg; lia. }
    rewrite IH, IH by lia.
    rewrite !Z.div_div by (try apply Z.pow_pos_nonneg; lia).
    f_equal. replace (Zpos p~0) with (Zpos p + Zpos p) by lia.
    rewrite !Z.pow_add_r by lia. ring.
  - now rewrite shr_1_m.
Qed.

(** Shifting to the format keeps a positive mantissa positive. *)
Lemma shr_fexp_pos m e l :
  -1074 <= e ->
  exists m' r s e',
    shr_fexp prec emax (Zpos m) e l
    = ({| shr_m := Zpos m'; shr_r := r; shr_s := s |}, e') /\ -1074 <= e'.
Proof.
  intros He. unfold shr_fexp. cbn [Zdigits2].
  pose proof (digits_bounds m) as [Hlo Hhi].
  set (d := Zpos (digits2_pos m)) in *.
  destruct (fexp prec emax (d + e) - e) as [|p|p] eqn:Hn; cbn [shr].
  - destruct l as [|[]]; cbn; eauto 10.
  - assert (Hp : Zpos p = d - 53) by fexp_lia.
    assert (Hpos : 0 < Zpos m / 2 ^ Zpos p).
    { apply Z.div_str_pos. split; [apply Z.pow_pos_nonneg; lia|].
      eapply Z.le_trans; [|exact Hlo]. apply Z.pow_le_mono_r; lia. }
    destruct (SpecFloat.iter_pos shr_1 p (shr_record_of_loc (Zpos m) l)) as [m' r s] eqn:Hit.
    assert (Hm' : m' = Zpos m / 2 ^ Zpos p).
    { change m' with (shr_m {| shr_m := m'; shr_r := r; shr_s := s |}).
      rewrite <- Hit, shr_iter_m; destruct l as [|[]]; cbn; lia. }
    destruct m' as [|m'|m']; try lia.
    exists m', r, s, (e + Zpos p). split; [reflexivity|lia].
  - destruct l as [|[]]; cbn; eauto 10.
Qed.

Lemma round_pos sx m e l :
  -1074 <= e ->
  (exists m' e', binary_round_aux prec emax sx (Zpos m) e l = S754_finite sx m' e')
  \/ binary_round_aux prec emax sx (Zpos m) e l = S754_infinity sx.
Proof.
  intros He. unfold binary_round_aux.
  destruct (shr_fexp_pos m e l He) as (m1 & r1 & s1 & e1 & -> & He1).
  cbn [shr_m].
  assert (Hr : exists m2, round_nearest_even (Zpos m1)
                 (loc_of_shr_record {| shr_m := Zpos m1; shr_r := r1; shr_s := s1 |})
               = Zpos m2).
  { destruct r1, s1; cbn [loc_of_shr_record round_nearest_even];
      try destruct (Z.even (Zpos m1)); eauto;
      exists (m1 + 1)%positive; lia. }
  destruct Hr as [m2 ->].
  destruct (shr_fexp_pos m2 e1 loc_Exact He1) as (m3 & r3 & s3 & e3 & -> & He3).
  cbn [shr_m]. destruct (e3 <=? emax - prec); eauto.
Qed.

Lemma shl_align_spec m e e' :
  e' <= e ->
  Zpos (fst (shl_align m e e')) = Zpos m * 2 ^ (e - e').
Proof.
  intros Hle. unfold shl_align.
  destruct (e' - e) as [|d|d] eqn:Hd; cbn [fst]; try lia.
  - replace (e - e') with 0 by lia. lia.
  - replace (e - e') with (Zpos d) by lia.
    change (Pos.iter xO m d) with (shift_pos d m).
    rewrite shift_pos_correct, Z.pow_pos_fold. ring.
Qed.

Lemma shl_align_snd m e e' :
  -1074 <= e -> -1074 <= e' -> -1074 <= snd (shl_align m e e').
Proof.
  intros. unfold shl_align. destruct (e' - e); cbn [snd]; lia.
Qed.

Lemma binary_round_sign sx m e :
  -1074 <= e ->
  (exists m' e', binary_round prec emax sx m e = S754_finite sx m' e')
  \/ binary_round prec emax sx m e = S754_infinity sx.
Proof.
  intros He. unfold binary_round.
  pose proof (shl_align_snd m e (fexp prec emax (Zpos (digits2_pos m) + e)) He
                ltac:(fexp_lia)) as Hs.
  destruct (shl_align m e (fexp prec emax (Zpos (digits2_pos m) + e))) as [mz ez].
  apply round_pos. exact Hs.
Qed.

Lemma SFsub_sign x y :
  valid_binary x = true -> valid_binary y = true ->
  x <> S754_nan -> y <> S754_nan ->
  SFltb (SFsub prec emax x y) (S754_zero false) = (ord x <? ord y).
Proof.
  intros Hx Hy Nx Ny.
  assert (Hbig : 0 < 2 ^ 2200) by (apply Z.pow_pos_nonneg; lia).
  destruct x as [sx|sx| |sx mx ex], y as [sy|sy| |sy my ey];
    try congruence; cbn [SFsub ord SpecFloat.valid_binary] in *;
    try (pose proof (finite_ord_bounds _ _ Hx));
    try (pose proof (finite_ord_bounds _ _ Hy)).
  all: try (unfold SFltb; destruct sx; try destruct sy; cbn [SFcompare negb];
            symmetry; first [apply Z.ltb_lt; lia | apply Z.ltb_ge; lia]).
  - pose proof Hx as [Hcx Hex]%bounded_inv. pose proof Hy as [Hcy Hey]%bounded_inv.
    assert (Hmx : -1074 <= ex) by fexp_lia.
    assert (Hmy : -1074 <= ey) by fexp_lia.
    set (ez := Z.min ex ey).
    assert (Hez : -1074 <= ez) by lia.
    rewrite (shl_align_spec mx ex ez), (shl_align_spec my ey ez) by lia.
    set (vx := cond_Zopp sx (Zpos mx * 2 ^ (ex - ez))).
    set (vy := cond_Zopp sy (Zpos my * 2 ^ (ey - ez))).
    assert (Hox : (if sx then - (Zpos mx * 2 ^ (ex + 1074)) else Zpos mx * 2 ^ (ex + 1074))
                  = vx * 2 ^ (ez + 1074)).
    { unfold vx. replace (ex + 1074) with ((ex - ez) + (ez + 1074)) by lia.
      rewrite Z.pow_add_r by lia. destruct sx; cbn [cond_Zopp]; ring. }
    assert (Hoy : (if sy then - (Zpos my * 2 ^ (ey + 1074)) else Zpos my * 2 ^ (ey + 1074))
                  = vy * 2 ^ (ez + 1074)).
    { unfold vy. replace (ey + 1074) with ((ey - ez) + (ez + 1074)) by lia.
      rewrite Z.pow_add_r by lia. destruct sy; cbn [cond_Zopp]; ring. }
    rewrite Hox, Hoy.
    assert (Hp : 0 < 2 ^ (ez + 1074)) by (apply Z.pow_pos_nonneg; lia).
    destruct (vx - vy) as [|p|p] eqn:Hd; cbn [binary_normalize].
    + unfold SFltb; cbn [SFcompare]. symmetry. apply Z.ltb_ge. nia.
    + destruct (binary_round_sign false p ez Hez) as [(m' & e' & ->) | ->];
        unfold SFltb; cbn [SFcompare]; symmetry; apply Z.ltb_ge; nia.
    + destruct (binary_round_sign true p ez Hez) as [(m' & e' & ->) | ->];
        unfold SFltb; cbn [SFcompare]; symmetry; apply Z.ltb_lt; nia.
Qed.

Lemma SFcompare_refl x : x <> S754_nan -> SFcompare x x = Some Eq.
Proof.
  destruct x as [s|s| |s m e]; cbn [SFcompare]; intros H; try congruence.
  - now destruct s.
  - rewrite Z.compare_refl. fold (Pos.compare m m). rewrite Pos.compare_refl.
    now destruct s.
Qed.

Lemma nan_iff (x : float) : is_nan x = false <-> Prim2SF x <> S754_nan.
Proof.
  unfold is_nan. rewrite FloatAxioms.eqb_spec. unfold SFeqb. split.
  - intros H E. rewrite E in H. discriminate.
  - intros H. now rewrite SFcompare_refl.
Qed.

Lemma ltb_rank (a b : float) :
  is_nan a = false -> is_nan b = false -> (a <? b)%float = (rank a <? rank b).
Proof.
  intros Ha%nan_iff Hb%nan_iff.
  rewrite FloatAxioms.ltb_spec. unfold SFltb, rank.
  rewrite SFcompare_ord by (auto using Prim2SF_valid).
  destruct (Z.compare_spec (ord (Prim2SF a)) (ord (Prim2SF b)));
    symmetry; first [apply Z.ltb_lt; lia | apply Z.ltb_ge; lia].
Qed.

Lemma sub_negative (a b : float) :
  is_nan a = false -> is_nan b = false ->
  (b - a <? 0)%float = (b <? a)%float.
Proof.
  intros Ha Hb. rewrite (ltb_rank b a) by assumption.
  apply nan_iff in Ha, Hb.
  rewrite FloatAxioms.ltb_spec, FloatAxioms.sub_spec.
  change (Prim2SF 0) with (S754_zero false).
  apply SFsub_sign; auto using Prim2SF_valid.
Qed.

(** [x || 0] is a number other than [NaN] and [-0]. *)
Lemma or_zero_clean x :
  Prim2SF (or_zero x) <> S754_nan /\ Prim2SF (or_zero x) <> S754_zero true.
Proof.
  unfold or_zero, truthy. destruct (is_zero x) eqn:Hz; cbn [orb negb].
  - change (Prim2SF 0) with (S754_zero false). split; congruence.
  - destruct (is_nan x) eqn:Hn; cbn [negb].
    + change (Prim2SF 0) with (S754_zero false). split; congruence.
    + split; [now apply nan_iff|].
      intros E. unfold is_zero in Hz.
      rewrite FloatAxioms.eqb_spec, E in Hz. discriminate.
Qed.


Lemma add_zero_l (v : number) :
  Prim2SF v <> S754_zero true -> (0 + v)%float = v.
Proof.
  intros Hv. apply Prim2SF_inj.
  rewrite FloatAxioms.add_spec. change (Prim2SF 0) with (S754_zero false).
  now apply SFadd_zero_l.
Qed.

(** *** Rounding error of s / (√s · √s) *)

Lemma digits_unique p k :
  2 ^ (k - 1) <= Zpos p < 2 ^ k -> Zpos (digits2_pos p) = k.
Proof.
  intros [Hlo Hhi]. pose proof (digits_bounds p) as [Dlo Dhi].
  set (d := Zpos (digits2_pos p)) in *.
  assert (0 < d) by (unfold d; lia).
  assert (0 < k).
  { destruct (Z.ltb_spec 0 k) as [|Hk]; [assumption|].
    destruct (Z.eq_dec k 0) as [->|]; [cbn in Hhi; lia|].
    rewrite Z.pow_neg_r in Hhi by lia. lia. }
  destruct (Z.lt_trichotomy d k) as [Hlt|[Heq|Hgt]]; [|assumption|].
  - assert (2 ^ d <= 2 ^ (k - 1)) by (apply Z.pow_le_mono_r; lia). lia.
  - assert (2 ^ k <= 2 ^ (d - 1)) by (apply Z.pow_le_mono_r; lia). lia.
Qed.

Lemma round_nearest_even_bounds m l :
  m <= round_nearest_even m l <= m + 1.
Proof.
  destruct l as [|[]]; cbn [round_nearest_even]; try lia.
  destruct (Z.even m); lia.
Qed.

Lemma loc_of_shr_record_of_loc m l :
  loc_of_shr_record (shr_record_of_loc m l) = l.
Proof. now destruct l as [|[]]. Qed.

Lemma shr_m_record_of_loc m l : shr_m (shr_record_of_loc m l) = m.
Proof. now destruct l as [|[]]. Qed.

(** *** The shift register of [binary_round_aux] *)

Lemma shifted_init P : 0 <= P -> shifted P 0 (shr_record_of_loc P loc_Exact).
Proof.
  intros HP. split; [exact HP|]. exists 0. cbn. split; [lia|]. split; [lia|reflexivity].
Qed.

Lemma shifted_step P k mrs : 0 <= k -> shifted P k mrs -> shifted P (k + 1) (shr_1 mrs).
Proof.
  intros Hk [Hm (low & Hlow & HP & Hs)].
  assert (Hpk : 0 < 2 ^ k) by (apply Z.pow_pos_nonneg; lia).
  unfold shifted. rewrite Z.pow_add_r, Z.pow_1_r by lia.
  destruct mrs as [m r s]; cbn [shr_m shr_r shr_s] in *.
  assert (Hcase : exists m' b,
    shr_1 {| shr_m := m; shr_r := r; shr_s := s |}
    = {| shr_m := m'; shr_r := b; shr_s := r || s |} /\ m = 2 * m' + Z.b2z b /\ 0 <= m').
  { destruct m as [|[p|p|]|p]; [| | | |lia].
    - exists 0, false. now cbn.
    - exists (Zpos p), true. cbn. split; [reflexivity|]. split; [|lia].
      now rewrite Pos2Z.inj_xI.
    - exists (Zpos p), false. cbn. split; [reflexivity|]. split; [|lia].
      rewrite Pos2Z.inj_xO. lia.
    - exists 0, true. now cbn. }
  destruct Hcase as (m' & b & -> & -> & Hm').
  split; [exact Hm'|]. cbn [shr_m shr_r shr_s].
  exists (Z.b2z r * 2 ^ k + low). split; [destruct r; cbn [Z.b2z]; lia|].
  split; [lia|].
  subst s. destruct r; cbn [Z.b2z orb].
  - symmetry. apply negb_true_iff, Z.eqb_neq. lia.
  - rewrite Z.mul_0_l, Z.add_0_l. reflexivity.
Qed.

Lemma shifted_iter p : forall mrs k P,
  0 <= k -> shifted P k mrs -> shifted P (k + Zpos p) (SpecFloat.iter_pos shr_1 p mrs).
Proof.
  induction p as [p IH|p IH|]; intros mrs k P Hk H; cbn [SpecFloat.iter_pos].
  - replace (k + Zpos p~1) with (k + 1 + Zpos p + Zpos p) by lia.
    apply IH; [lia|]. apply IH; [lia|]. now apply shifted_step.
  - replace (k + Zpos p~0) with (k + Zpos p + Zpos p) by lia.
    apply IH; [lia|]. now apply IH.
  - now apply shifted_step.
Qed.

(** Rounding a shifted record to nearest: at most half a unit of the last
    kept place away from [P]. *)
Lemma shifted_round P k mrs :
  0 <= k -> shifted P k mrs ->
  let m1 := round_nearest_even (shr_m mrs) (loc_of_shr_record mrs) in
  shr_m mrs <= m1 <= shr_m mrs + 1 /\ Z.abs (2 * P - 2 * m1 * 2 ^ k) <= 2 ^ k.
Proof.
  intros Hk [Hm (low & Hlow & HP & Hs)] m1.
  assert (Hpk : 0 < 2 ^ k) by (apply Z.pow_pos_nonneg; lia).
  split; [apply round_nearest_even_bounds|].
  subst m1. destruct mrs as [m r s]; cbn [shr_m shr_r shr_s] in *.
  destruct r, s; cbn [loc_of_shr_record round_nearest_even Z.b2z] in *;
    try destruct (Z.even m);
    try (symmetry in Hs; apply negb_true_iff, Z.eqb_neq in Hs);
    try (symmetry in Hs; apply negb_false_iff, Z.eqb_eq in Hs); lia.
Qed.

(** The second pass of [binary_round_aux] on a mantissa of 53 bits, or on
    2^53 itself. *)
Lemma round_second_pass sx m1 e1 :
  2 ^ 52 <= Zpos m1 <= 2 ^ 53 -> -1074 <= e1 <= 971 ->
  (Zpos m1 = 2 ^ 53 -> e1 + 1 <= 971) ->
  exists m' e',
    (let '(mrs, e'') := shr_fexp prec emax (Zpos m1) e1 loc_Exact in
     match shr_m mrs with
     | Z0 => S754_zero sx
     | Zpos m => if e'' <=? emax - prec then S754_finite sx m e'' else S754_infinity sx
     | _ => S754_nan
     end) = S754_finite sx m' e'
    /\ Zpos (digits2_pos m') = 53
    /\ e1 <= e' /\ Zpos m' * 2 ^ (e' - e1) = Zpos m1.
Proof.
  intros [Hlo Hhi] He1 He2.
  destruct (Pos.eq_dec m1 9007199254740992%positive) as [->|Hne].
  - clear Hlo Hhi. specialize (He2 eq_refl). unfold shr_fexp.
    change (fexp prec emax (Zdigits2 9007199254740992 + e1) - e1)
      with (Z.max (54 + e1 - 53) (-1074) - e1).
    replace (Z.max (54 + e1 - 53) (-1074) - e1) with 1 by lia.
    cbn [shr shr_record_of_loc SpecFloat.iter_pos shr_1 shr_m].
    exists 4503599627370496%positive, (e1 + 1).
    replace (e1 + 1 <=? emax - prec) with true
      by (symmetry; apply Z.leb_le; unfold emax, prec; lia).
    split; [reflexivity|]. split; [reflexivity|]. split; [lia|].
    replace (e1 + 1 - e1) with 1 by lia. reflexivity.
  - assert (Hd : Zpos (digits2_pos m1) = 53).
    { apply digits_unique. split; [exact Hlo|].
      assert (Zpos m1 <> 2 ^ 53) by (intros E; apply Hne; lia). lia. }
    unfold shr_fexp. cbn [Zdigits2]. std_Z. rewrite Hd.
    replace (fexp prec emax (53 + e1) - e1) with 0 by fexp_lia.
    cbn [shr shr_record_of_loc shr_m].
    exists m1, e1.
    replace (e1 <=? emax - prec) with true
      by (symmetry; apply Z.leb_le; unfold emax, prec; lia).
    split; [reflexivity|]. split; [exact Hd|]. split; [lia|].
    rewrite Z.sub_diag. lia.
Qed.

(** Rounding a mantissa of at least 53 bits in the normal range: the result
    is finite and within one unit of the last kept place.  At the largest
    exponent the mantissa must not round up to the next power of two. *)
Lemma round_bounds sx m e l :
  let d := Zpos (digits2_pos m) in
  53 <= d -> -1074 <= d + e - 53 -> e + (d - 53) <= 971 ->
  (e + (d - 53) = 971 -> Zpos m < (2 ^ 53 - 1) * 2 ^ (d - 53)) ->
  exists m' e',
    binary_round_aux prec emax sx (Zpos m) e l = S754_finite sx m' e'
    /\ Zpos (digits2_pos m') = 53
    /\ e <= e'
    /\ Zpos m - 2 ^ (d - 53) < Zpos m' * 2 ^ (e' - e) <= Zpos m + 2 ^ (d - 53)
    /\ (d = 53 -> Zpos m' * 2 ^ (e' - e) = round_nearest_even (Zpos m) l).
Proof.
  intros d Hd Hlo Hhi Htop.
  pose proof (digits_bounds m) as [Dlo Dhi]. fold d in Dlo, Dhi.
  set (n := d - 53) in *.
  assert (Hpn : 0 < 2 ^ n) by (apply Z.pow_pos_nonneg; lia).
  set (t := Zpos m / 2 ^ n).
  assert (Ht : t * 2 ^ n <= Zpos m < (t + 1) * 2 ^ n).
  { unfold t. pose proof (Z.div_mod (Zpos m) (2 ^ n) ltac:(lia)) as Hdm.
    pose proof (Z.mod_pos_bound (Zpos m) (2 ^ n) Hpn). nia. }
  assert (Ht52 : 2 ^ 52 <= t < 2 ^ 53).
  { replace d with (n + 53) in Dhi by (unfold n; lia).
    replace (d - 1) with (n + 52) in Dlo by (unfold n; lia).
    rewrite Z.pow_add_r in Dlo, Dhi by lia. nia. }
  assert (Httop : e + n = 971 -> t + 1 < 2 ^ 53).
  { intros E. specialize (Htop E). nia. }
  unfold binary_round_aux.
  assert (Hfirst : exists mrs,
    shr_fexp prec emax (Zpos m) e l = (mrs, e + n) /\ shr_m mrs = t
    /\ (n = 0 -> loc_of_shr_record mrs = l)).
  { unfold shr_fexp. cbn [Zdigits2]. std_Z. fold d.
    replace (fexp prec emax (d + e) - e) with n by (unfold n; fexp_lia).
    destruct n as [|p|p] eqn:Hn; [| |lia].
    - cbn [shr]. eexists. split; [now rewrite Z.add_0_r|].
      rewrite shr_m_record_of_loc, loc_of_shr_record_of_loc.
      unfold t. now rewrite Z.pow_0_r, Z.div_1_r.
    - cbn [shr]. eexists. split; [reflexivity|].
      rewrite shr_iter_m by (rewrite shr_m_record_of_loc; lia).
      rewrite shr_m_record_of_loc. split; [reflexivity|discriminate]. }
  destruct Hfirst as (mrs & -> & Hm & Hloc).
  pose proof (round_nearest_even_bounds (shr_m mrs) (loc_of_shr_record mrs)) as Hr.
  rewrite Hm in Hr |- *.
  destruct (round_nearest_even t (loc_of_shr_record mrs)) as [|m1|m1] eqn:Hm1;
    [lia| |lia].
  destruct (round_second_pass sx m1 (e + n)) as (m' & e' & Hres & Hd' & He' & Hval);
    [lia..|].
  rewrite Hres. exists m', e'. split; [reflexivity|]. split; [exact Hd'|]. split; [lia|].
  replace (e' - e) with ((e' - (e + n)) + n) by lia.
  rewrite Z.pow_add_r by lia.
  rewrite Z.mul_assoc, Hval. split; [nia|].
  intros E. assert (Hn0 : n = 0) by lia. rewrite <- (Hloc Hn0), <- Hm1.
  unfold t. rewrite Hn0. now rewrite Z.pow_0_r, Z.div_1_r, Z.mul_1_r.
Qed.

(** Rounding an exact mantissa into the subnormal range: the result is zero
    or a multiple of 2^-1074, at most half a unit away. *)
Lemma round_subnormal sx m e :
  let d := Zpos (digits2_pos m) in
  53 <= d -> d + e - 53 < -1074 ->
  exists m1,
    0 <= m1 <= 2 ^ 52
    /\ Z.abs (2 * Zpos m - 2 * m1 * 2 ^ (-1074 - e)) <= 2 ^ (-1074 - e)
    /\ binary_round_aux prec emax sx (Zpos m) e loc_Exact
       = match m1 with
         | Z0 => S754_zero sx
         | Zpos p => S754_finite sx p (-1074)
         | Zneg _ => S754_nan
         end.
Proof.
  intros d Hd Hlo.
  pose proof (digits_bounds m) as [Dlo Dhi]. fold d in Dlo, Dhi.
  set (n := -1074 - e).
  assert (Hn : d - 52 <= n) by (unfold n; lia).
  assert (Hpn : 0 < 2 ^ n) by (apply Z.pow_pos_nonneg; lia).
  unfold binary_round_aux, shr_fexp. cbn [Zdigits2]. std_Z. fold d.
  replace (fexp prec emax (d + e) - e) with n by (unfold n; fexp_lia).
  destruct n as [|p|p] eqn:Hnp; [lia| |lia]. cbn [shr].
  set (mrs := SpecFloat.iter_pos shr_1 p (shr_record_of_loc (Zpos m) loc_Exact)).
  assert (Hsh : shifted (Zpos m) (Zpos p) mrs).
  { change (Zpos p) with (0 + Zpos p). apply shifted_iter; [lia|].
    apply shifted_init. lia. }
  pose proof (shifted_round _ _ _ (Pos2Z.is_nonneg p) Hsh) as [Hr Hnear].
  destruct Hsh as [Hm0 (low & Hlow & HP & _)].
  set (m1 := round_nearest_even (shr_m mrs) (loc_of_shr_record mrs)) in *.
  assert (Ht : shr_m mrs < 2 ^ 52).
  { assert (2 ^ d <= 2 ^ (Zpos p + 52)) by (apply Z.pow_le_mono_r; lia).
    rewrite Z.pow_add_r in * by lia.
    assert (0 <= Z.b2z (shr_r mrs)) by (destruct (shr_r mrs); cbn; lia). nia. }
  exists m1. split; [lia|]. split; [exact Hnear|].
  replace (e + Zpos p) with (-1074) by lia.
  assert (Hdig : Zdigits2 m1 <= 53).
  { destruct m1 as [|q|q]; cbn [Zdigits2]; [lia| |lia].
    destruct (Z_le_gt_dec (Zpos (digits2_pos q)) 53) as [|Hgt]; [assumption|].
    pose proof (digits_bounds q) as [Qlo _].
    assert (2 ^ 53 <= 2 ^ (Zpos (digits2_pos q) - 1)) by (apply Z.pow_le_mono_r; lia).
    lia. }
  replace (fexp prec emax (Zdigits2 m1 + -1074) - -1074) with 0 by fexp_lia.
  cbn [shr]. rewrite shr_m_record_of_loc.
  destruct m1 as [|q|q]; reflexivity.
Qed.

Lemma digits_53 m :
  Zpos (digits2_pos m) = 53 -> 2 ^ 52 <= Zpos m < 2 ^ 53.
Proof. intros H. pose proof (digits_bounds m) as B. rewrite H in B. exact B. Qed.

Lemma div2_bounds e : 2 * Z.div2 e <= e <= 2 * Z.div2 e + 1.
Proof.
  rewrite Z.div2_div. pose proof (Z.div_mod e 2 ltac:(lia)).
  pose proof (Z.mod_pos_bound e 2 ltac:(lia)). lia.
Qed.

(** √ of a positive number, normal or subnormal: the result has half the
    exponent, and its mantissa is within one unit of the integer square root
    of the mantissa scaled to 105 or 106 bits. *)
Lemma sqrt_bounds ms es :
  bounded prec emax ms es = true ->
  let e' := Z.div2 (Zpos (digits2_pos ms) + es + 1) - 53 in
  let M := Zpos ms * 2 ^ (es - 2 * e') in
  0 <= es - 2 * e' /\ 2 ^ 104 <= M < 2 ^ 106
  /\ exists mr,
    SFsqrt prec emax (S754_finite false ms es) = S754_finite false mr e'
    /\ Zpos (digits2_pos mr) = 53
    /\ (Zpos mr - 1) ^ 2 <= M < (Zpos mr + 1) ^ 2.
Proof.
  intros Hb e' M.
  pose proof (digits_bounds ms) as [Dlo Dhi].
  set (d1 := Zpos (digits2_pos ms)) in *.
  assert (Hd1 : 1 <= d1 <= 53) by (apply bounded_inv in Hb as [Hc He]; unfold d1 in *; fexp_lia).
  assert (Hes : -1074 <= es <= 971) by (apply bounded_inv in Hb as [Hc He]; fexp_lia).
  pose proof (div2_bounds (d1 + es + 1)) as Hdiv.
  pose proof (div2_bounds es) as Hdiv'.
  set (k := es - 2 * e') in *.
  assert (Hk : d1 + k = 105 \/ d1 + k = 106) by (unfold k, e'; lia).
  assert (He' : -589 <= e' <= 459) by (unfold e'; lia).
  unfold SFsqrt, SFsqrt_core_binary. cbn [Zdigits2]. std_Z. fold d1.
  replace (Z.min (fexp prec emax (Z.div2 (d1 + es + 1))) (Z.div2 es)) with e'
    by (unfold e', fexp, prec, emax, emin; lia).
  fold k.
  assert (HM : 2 ^ 104 <= M < 2 ^ 106).
  { unfold M. fold k.
    assert (H1 : 2 ^ 104 <= 2 ^ (d1 - 1 + k)) by (apply Z.pow_le_mono_r; lia).
    assert (H2 : 2 ^ (d1 + k) <= 2 ^ 106) by (apply Z.pow_le_mono_r; lia).
    rewrite Z.pow_add_r in H1, H2 by lia.
    assert (0 < 2 ^ k) by (apply Z.pow_pos_nonneg; lia). nia. }
  assert (Hshift : match k with
                   | Z.pos _ => Z.shiftl (Zpos ms) k
                   | 0 => Zpos ms
                   | Z.neg _ => 0
                   end = M).
  { unfold M. fold k. destruct k as [|p|p] eqn:Hkp; [lia| |lia].
    now rewrite Z.shiftl_mul_pow2 by lia. }
  rewrite Hshift.
  pose proof (Z.sqrtrem_spec M ltac:(lia)) as Hs.
  destruct (Z.sqrtrem M) as [q r]. destruct Hs as [HMq Hr].
  assert (Hq : 2 ^ 52 <= q < 2 ^ 53) by nia.
  destruct q as [|qp|qp]; [lia| |lia].
  assert (Hdq : Zpos (digits2_pos qp) = 53) by (apply digits_unique; lia).
  match goal with
  | |- context [binary_round_aux _ _ _ _ _ ?l] => set (loc := l)
  end.
  assert (Hup : round_nearest_even (Zpos qp) loc = Zpos qp
                \/ round_nearest_even (Zpos qp) loc = Zpos qp + 1 /\ Zpos qp < r).
  { unfold loc.
    repeat match goal with
    | |- context [if ?b then _ else _] => destruct b eqn:?
    end; cbn [round_nearest_even]; auto.
    right. split; [reflexivity|]. std_Z.
    match goal with H : (_ <=? _) = false |- _ => apply Z.leb_gt in H; exact H end. }
  destruct (round_bounds false qp e' loc) as (mr & er & Hres & Hdr & Her & _ & Hval);
    [lia..|].
  specialize (Hval Hdq). rewrite <- Hval in Hup. clear Hval.
  assert (HMtop : M <= 2 ^ 106 - 2 ^ 53).
  { assert (H0 : 0 < 2 ^ k) by (apply Z.pow_pos_nonneg; lia).
    assert (H1 : 2 ^ d1 * 2 ^ k = 2 ^ (d1 + k)) by (rewrite <- Z.pow_add_r by lia; reflexivity).
    destruct Hk as [Hk|Hk]; rewrite Hk in H1.
    - unfold M. fold k. nia.
    - assert (H2 : 2 ^ 53 <= 2 ^ k) by (apply Z.pow_le_mono_r; lia).
      unfold M. fold k. nia. }
  assert (Her' : er = e').
  { destruct (Z.eq_dec er e') as [|Hne]; [assumption|exfalso].
    assert (2 ^ 1 <= 2 ^ (er - e')) by (apply Z.pow_le_mono_r; lia).
    pose proof (digits_53 mr Hdr).
    assert (Zpos qp + 1 = 2 ^ 53) by nia. nia. }
  subst er. rewrite Z.sub_diag, Z.pow_0_r, Z.mul_1_r in Hup.
  split; [lia|]. split; [exact HM|].
  exists mr. split; [exact Hres|]. split; [exact Hdr|].
  change ((Zpos mr - 1) ^ 2) with ((Zpos mr - 1) * ((Zpos mr - 1) * 1)).
  change ((Zpos mr + 1) ^ 2) with ((Zpos mr + 1) * ((Zpos mr + 1) * 1)).
  destruct Hup as [-> | [-> Hgt]]; nia.
Qed.

Lemma square_digits mr :
  Zpos (digits2_pos mr) = 53 ->
  2 ^ 104 <= Zpos (mr * mr) <= (2 ^ 53 - 1) * (2 ^ 53 - 1)
  /\ (Zpos (digits2_pos (mr * mr)) = 105 \/ Zpos (digits2_pos (mr * mr)) = 106).
Proof.
  intros Hd. pose proof (digits_53 mr Hd) as Hmr.
  pose proof (digits_bounds (mr * mr)) as HP.
  set (d := Zpos (digits2_pos (mr * mr))) in *.
  assert (HPv : 2 ^ 104 <= Zpos (mr * mr) <= (2 ^ 53 - 1) * (2 ^ 53 - 1))
    by (rewrite Pos2Z.inj_mul; nia).
  split; [exact HPv|].
  destruct (Z_lt_le_dec d 105) as [Hlt|Hge].
  - assert (2 ^ d <= 2 ^ 104) by (apply Z.pow_le_mono_r; lia). lia.
  - destruct (Z_lt_le_dec 106 d) as [Hgt|Hle]; [|lia].
    assert (2 ^ 106 <= 2 ^ (d - 1)) by (apply Z.pow_le_mono_r; lia). lia.
Qed.

(** The square of a 53-bit number whose value is a normal number: finite,
    and within 2^53 units of the exact product of the mantissas. *)
Lemma mul_normal mr er :
  Zpos (digits2_pos mr) = 53 ->
  -1074 <= Zpos (digits2_pos (mr * mr)) + 2 * er - 53 -> er <= 459 ->
  exists md ed,
    SFmul prec emax (S754_finite false mr er) (S754_finite false mr er)
    = S754_finite false md ed
    /\ Zpos (digits2_pos md) = 53
    /\ 2 * er <= ed
    /\ Zpos mr * Zpos mr - 2 ^ 53 < Zpos md * 2 ^ (ed - 2 * er)
       <= Zpos mr * Zpos mr + 2 ^ 53.
Proof.
  intros Hd Hlo Hhi. destruct (square_digits mr Hd) as [HPv Hdd].
  cbn [SFmul xorb].
  set (d := Zpos (digits2_pos (mr * mr))) in *.
  destruct (round_bounds false (mr * mr) (er + er) loc_Exact)
    as (md & ed & Hres & Hdd' & Hed & Hval & _); fold d; [lia..| |].
  { intros E. assert (Hd106 : d = 106) by lia. rewrite Hd106.
    change (2 ^ (106 - 53)) with (2 ^ 53). lia. }
  fold d in Hval. exists md, ed. split; [exact Hres|]. split; [exact Hdd'|].
  split; [lia|].
  replace (2 * er) with (er + er) by lia. rewrite <- Pos2Z.inj_mul.
  assert (2 ^ (d - 53) <= 2 ^ 53) by (destruct Hdd as [-> | ->]; lia).
  lia.
Qed.

(** The square of a 53-bit number whose value is below the normal range:
    zero or a multiple of 2^-1074, at most half a unit from the exact
    product. *)
Lemma mul_subnormal mr er :
  Zpos (digits2_pos mr) = 53 ->
  Zpos (digits2_pos (mr * mr)) + 2 * er - 53 < -1074 ->
  exists m1,
    0 <= m1 <= 2 ^ 52
    /\ Z.abs (2 * (Zpos mr * Zpos mr) - 2 * m1 * 2 ^ (-1074 - 2 * er))
       <= 2 ^ (-1074 - 2 * er)
    /\ SFmul prec emax (S754_finite false mr er) (S754_finite false mr er)
       = match m1 with
         | Z0 => S754_zero false
         | Zpos p => S754_finite false p (-1074)
         | Zneg _ => S754_nan
         end.
Proof.
  intros Hd Hlo. destruct (square_digits mr Hd) as [HPv Hdd].
  cbn [SFmul xorb].
  destruct (round_subnormal false (mr * mr) (er + er)) as (m1 & Hm1 & Hnear & Hres);
    [lia..|].
  exists m1. split; [exact Hm1|]. split; [|exact Hres].
  rewrite <- Pos2Z.inj_mul. now replace (2 * er) with (er + er) by lia.
Qed.

(** The quotient of two positive numbers of nearby magnitude: within two
    units of the integer quotient of the mantissas, the dividend scaled to
    53 bits more than the divisor. *)
Lemma div_bounds ms es md ed :
  let d1 := Zpos (digits2_pos ms) in
  let d2 := Zpos (digits2_pos md) in
  d1 <= 53 -> -1000 <= d1 + es - (d2 + ed) <= 1000 ->
  let e' := d1 + es - (d2 + ed) - 53 in
  let Q := Zpos ms * 2 ^ (53 + d2 - d1) / Zpos md in
  exists mq eq,
    SFdiv prec emax (S754_finite false ms es) (S754_finite false md ed)
    = S754_finite false mq eq
    /\ Zpos (digits2_pos mq) = 53
    /\ e' <= eq
    /\ Q - 2 < Zpos mq * 2 ^ (eq - e') <= Q + 2.
Proof.
  intros d1 d2 Hd1 He e' Q.
  pose proof (digits_bounds ms) as [Slo Shi]. pose proof (digits_bounds md) as [Dlo Dhi].
  fold d1 in Slo, Shi. fold d2 in Dlo, Dhi.
  assert (Hd1' : 1 <= d1) by (unfold d1; lia).
  assert (Hd2' : 1 <= d2) by (unfold d2; lia).
  cbn [SFdiv xorb]. unfold SFdiv_core_binary. cbn [Zdigits2]. std_Z.
  fold d1 d2.
  replace (Z.min (fexp prec emax (d1 + es - (d2 + ed))) (es - ed)) with e'
    by (unfold e'; fexp_lia).
  set (c := 53 + d2 - d1) in *.
  replace (es - ed - e') with c by (unfold c, e'; lia).
  assert (Hc : 1 <= c) by (unfold c; lia).
  assert (Hshift : match c with
                   | Z.pos _ => Z.shiftl (Zpos ms) c
                   | 0 => Zpos ms
                   | Z.neg _ => 0
                   end = Zpos ms * 2 ^ c).
  { destruct c as [|cp|cp] eqn:Hcp; [lia| |lia].
    now rewrite Z.shiftl_mul_pow2 by lia. }
  rewrite Hshift.
  assert (Hm' : 2 ^ 53 * 2 ^ (d2 - 1) <= Zpos ms * 2 ^ c < 2 ^ 54 * 2 ^ (d2 - 1)).
  { assert (H1 : 2 ^ (d1 - 1) * 2 ^ c = 2 ^ 53 * 2 ^ (d2 - 1)).
    { rewrite <- !Z.pow_add_r by lia. f_equal. unfold c. lia. }
    assert (H2 : 2 ^ d1 * 2 ^ c = 2 ^ 54 * 2 ^ (d2 - 1)).
    { rewrite <- !Z.pow_add_r by lia. f_equal. unfold c. lia. }
    assert (0 < 2 ^ c) by (apply Z.pow_pos_nonneg; lia). nia. }
  assert (Hmd : 2 ^ (d2 - 1) <= Zpos md < 2 * 2 ^ (d2 - 1)).
  { replace d2 with (1 + (d2 - 1)) in Dhi at 1 by lia.
    rewrite Z.pow_add_r in Dhi by lia. lia. }
  assert (HA : 0 < 2 ^ (d2 - 1)) by (apply Z.pow_pos_nonneg; lia).
  set (A := 2 ^ (d2 - 1)) in *.
  pose proof (Z_div_mod (Zpos ms * 2 ^ c) (Zpos md) ltac:(lia)) as Hdm.
  unfold Q. unfold Z.div.
  destruct (Z.div_eucl (Zpos ms * 2 ^ c) (Zpos md)) as [q r]. destruct Hdm as [Hq Hr].
  assert (HQ : 2 ^ 52 <= q < 2 ^ 54) by nia.
  destruct q as [|qp|qp]; [lia| |lia].
  pose proof (digits_bounds qp) as HP.
  set (d := Zpos (digits2_pos qp)) in *.
  assert (Hd : d = 53 \/ d = 54).
  { destruct (Z_lt_le_dec d 53) as [Hlt|Hge].
    - assert (2 ^ d <= 2 ^ 52) by (apply Z.pow_le_mono_r; lia). lia.
    - destruct (Z_lt_le_dec 54 d) as [Hgt|Hle]; [|lia].
      assert (2 ^ 54 <= 2 ^ (d - 1)) by (apply Z.pow_le_mono_r; lia). lia. }
  match goal with
  | |- context [binary_round_aux _ _ _ _ _ ?l] => set (loc := l)
  end.
  destruct (round_bounds false qp e' loc)
    as (mq & eq & Hres & Hdq & Heq & Hval & _); fold d; [unfold e'; lia..|].
  fold d in Hval. exists mq, eq. split; [exact Hres|]. split; [exact Hdq|].
  split; [exact Heq|].
  assert (2 ^ (d - 53) <= 2) by (destruct Hd as [-> | ->]; lia).
  lia.
Qed.

(** The exponent of a 53-bit mantissa whose scaled value lies between two
    powers of two. *)
Lemma scaled_exponent m a lo hi :
  2 ^ 52 <= m < 2 ^ 53 -> 0 <= a -> 0 <= lo -> 0 <= hi ->
  2 ^ lo < m * 2 ^ a < 2 ^ hi -> lo - 53 < a < hi - 52.
Proof.
  intros Hm Ha Hlo Hhi [H1 H2].
  assert (Hp : 0 < 2 ^ a) by (apply Z.pow_pos_nonneg; lia).
  split.
  - destruct (Z_lt_le_dec (lo - 53) a) as [|Hle]; [assumption|exfalso].
    assert (2 ^ (a + 53) <= 2 ^ lo) by (apply Z.pow_le_mono_r; lia).
    rewrite Z.pow_add_r in * by lia. nia.
  - destruct (Z_lt_le_dec a (hi - 52)) as [|Hle]; [assumption|exfalso].
    assert (2 ^ hi <= 2 ^ (a + 52)) by (apply Z.pow_le_mono_r; lia).
    rewrite Z.pow_add_r in * by lia. nia.
Qed.

Lemma quotient_near G Y M Q :
  0 <= G <= 2 ^ 55 -> 2 ^ 103 <= Y -> M - 2 ^ 56 <= Y <= M + 2 ^ 56 ->
  Q * Y <= G * M -> G * M < (Q + 1) * Y ->
  G - 258 <= Q <= G + 258.
Proof.
  intros HG HY HM H1 H2.
  assert (H3 : G * M <= G * (Y + 2 ^ 56)) by (apply Z.mul_le_mono_nonneg_l; lia).
  assert (H4 : G * (Y - 2 ^ 56) <= G * M) by (apply Z.mul_le_mono_nonneg_l; lia).
  rewrite Z.mul_add_distr_l in H3. rewrite Z.mul_sub_distr_l in H4.
  rewrite Z.mul_add_distr_r, Z.mul_1_l in H2.
  split.
  - destruct (Z_lt_le_dec Q (G - 258)) as [Hlt|]; [exfalso|assumption].
    assert (H5 : (Q + 259) * Y <= G * Y) by (apply Z.mul_le_mono_nonneg_r; lia).
    rewrite Z.mul_add_distr_r in H5. lia.
  - destruct (Z_lt_le_dec (G + 258) Q) as [Hlt|]; [exfalso|assumption].
    assert (H5 : (G + 259) * Y <= Q * Y) by (apply Z.mul_le_mono_nonneg_r; lia).
    rewrite Z.mul_add_distr_r in H5. lia.
Qed.

(** The exponent of a mantissa of [d] bits whose scaled value lies between
    two powers of two. *)
Lemma scaled_digits m d a lo hi :
  2 ^ (d - 1) <= m < 2 ^ d -> 1 <= d -> 0 <= a -> 0 <= lo -> 0 <= hi ->
  2 ^ lo <= m * 2 ^ a < 2 ^ hi -> lo < d + a <= hi.
Proof.
  intros Hm Hd Ha Hlo Hhi [H1 H2].
  assert (Hp : 0 < 2 ^ a) by (apply Z.pow_pos_nonneg; lia).
  split.
  - destruct (Z_lt_le_dec lo (d + a)) as [|Hle]; [assumption|exfalso].
    assert (2 ^ (d + a) <= 2 ^ lo) by (apply Z.pow_le_mono_r; lia).
    rewrite Z.pow_add_r in * by lia. nia.
  - destruct (Z_le_gt_dec (d + a) hi) as [|Hgt]; [assumption|exfalso].
    assert (2 ^ hi <= 2 ^ (d - 1 + a)) by (apply Z.pow_le_mono_r; lia).
    rewrite Z.pow_add_r in * by lia. nia.
Qed.

(** √s · √s for a positive finite s: a positive finite number whose value,
    on the scale 2^(2e') of the square root, is within 2^56 of the 105 or
    106 bits of s. *)
Lemma SF_square_of_sqrt ms es :
  bounded prec emax ms es = true ->
  let e' := Z.div2 (Zpos (digits2_pos ms) + es + 1) - 53 in
  let M := Zpos ms * 2 ^ (es - 2 * e') in
  0 <= es - 2 * e' /\ 2 ^ 104 <= M < 2 ^ 106
  /\ exists mr md ed,
    SFsqrt prec emax (S754_finite false ms es) = S754_finite false mr e'
    /\ SFmul prec emax (S754_finite false mr e') (S754_finite false mr e')
       = S754_finite false md ed
    /\ Zpos (digits2_pos md) <= 53
    /\ 2 * e' <= ed
    /\ M - 2 ^ 56 <= Zpos md * 2 ^ (ed - 2 * e') <= M + 2 ^ 56.
Proof.
  intros Hb. cbv zeta.
  destruct (sqrt_bounds ms es Hb) as (Hk & HM & mr & Hsqrt & Hdr & HR).
  set (e' := Z.div2 (Zpos (digits2_pos ms) + es + 1) - 53) in *.
  set (M := Zpos ms * 2 ^ (es - 2 * e')) in *.
  split; [exact Hk|]. split; [exact HM|].
  pose proof (digits_53 mr Hdr) as Hmr.
  assert (Hes : -1074 <= es <= 971) by (apply bounded_inv in Hb as [Hc He]; fexp_lia).
  assert (Hd1 : Zpos (digits2_pos ms) <= 53) by (apply bounded_inv in Hb as [Hc He]; fexp_lia).
  pose proof (div2_bounds (Zpos (digits2_pos ms) + es + 1)) as Hdiv.
  assert (He' : e' <= 459) by (unfold e'; lia).
  assert (HMR : Zpos mr * Zpos mr - 2 ^ 54 - 1 <= M <= Zpos mr * Zpos mr + 2 ^ 54 + 1).
  { change ((Zpos mr - 1) ^ 2) with ((Zpos mr - 1) * ((Zpos mr - 1) * 1)) in HR.
    change ((Zpos mr + 1) ^ 2) with ((Zpos mr + 1) * ((Zpos mr + 1) * 1)) in HR. nia. }
  exists mr.
  destruct (Z_le_gt_dec (-1074) (Zpos (digits2_pos (mr * mr)) + 2 * e' - 53)) as [Hn|Hs].
  - destruct (mul_normal mr e' Hdr Hn He') as (md & ed & Hmul & Hdd & Hed & HY).
    exists md, ed. split; [exact Hsqrt|]. split; [exact Hmul|].
    split; [lia|]. split; [exact Hed|]. lia.
  - destruct (mul_subnormal mr e' Hdr ltac:(lia)) as (m1 & Hm1 & Hnear & Hmul).
    destruct (square_digits mr Hdr) as [_ Hdd].
    set (n := -1074 - 2 * e') in *.
    assert (Hn : 0 < n) by (unfold n; lia).
    assert (HU : 0 < 2 ^ n) by (apply Z.pow_pos_nonneg; lia).
    set (S := Zpos ms * 2 ^ (es + 1074)).
    assert (HMS : M = S * 2 ^ n).
    { unfold M, S. rewrite <- Z.mul_assoc, <- Z.pow_add_r by lia.
      do 2 f_equal. unfold n. lia. }
    assert (Hclose : M - 2 ^ 56 <= m1 * 2 ^ n <= M + 2 ^ 56).
    { destruct (Z_le_gt_dec 57 n) as [Hbig|Hsmall].
      - assert (2 ^ 57 <= 2 ^ n) by (apply Z.pow_le_mono_r; lia).
        assert (m1 = S) by nia. subst m1. lia.
      - assert (2 ^ n <= 2 ^ 56) by (apply Z.pow_le_mono_r; lia). lia. }
    destruct m1 as [|md|md]; [lia| |lia].
    exists md, (-1074). split; [exact Hsqrt|]. split; [exact Hmul|].
    split.
    { destruct (Z_le_gt_dec (Zpos (digits2_pos md)) 53) as [|Hgt]; [assumption|].
      pose proof (digits_bounds md) as [Qlo _].
      assert (2 ^ 53 <= 2 ^ (Zpos (digits2_pos md) - 1)) by (apply Z.pow_le_mono_r; lia).
      lia. }
    split; [lia|]. exact Hclose.
Qed.

(** s / (√s · √s) for a positive finite s: the quotient has exponent -52 or
    -53 and a mantissa within 260 units of 1. *)
Lemma SF_self_quotient ms es :
  bounded prec emax ms es = true ->
  exists mr er md ed mq eq,
    SFsqrt prec emax (S754_finite false ms es) = S754_finite false mr er
    /\ SFmul prec emax (S754_finite false mr er) (S754_finite false mr er)
       = S754_finite false md ed
    /\ SFdiv prec emax (S754_finite false ms es) (S754_finite false md ed)
       = S754_finite false mq eq
    /\ (eq = -52 \/ eq = -53)
    /\ 2 ^ (- eq) - 260 <= Zpos mq <= 2 ^ (- eq) + 260.
Proof.
  intros Hb.
  destruct (SF_square_of_sqrt ms es Hb)
    as (Hk & HMv & mr & md & ed & Hsqrt & Hmul & Hd2 & Hed & HYM).
  set (e' := Z.div2 (Zpos (digits2_pos ms) + es + 1) - 53) in *.
  set (k := es - 2 * e') in *.
  set (K := 2 ^ k) in *.
  set (M := Zpos ms * K) in *.
  set (a := ed - 2 * e') in *.
  assert (Ha0 : 0 <= a) by (unfold a; lia).
  set (A := 2 ^ a) in *.
  set (Y := Zpos md * A) in *.
  pose proof (digits_bounds ms) as Hms. pose proof (digits_bounds md) as Hmd.
  set (d1 := Zpos (digits2_pos ms)) in *.
  set (d2 := Zpos (digits2_pos md)) in *.
  assert (Hd1 : 1 <= d1 <= 53) by (apply bounded_inv in Hb as [Hc He]; unfold d1; fexp_lia).
  assert (Hd2' : 1 <= d2) by (unfold d2; lia).
  assert (Hdk : 104 < d1 + k <= 106)
    by (apply (scaled_digits (Zpos ms) d1 k 104 106); fold K M; lia).
  assert (Hda : 103 < d2 + a <= 107)
    by (apply (scaled_digits (Zpos md) d2 a 103 107); fold A Y; lia).
  destruct (div_bounds ms es md ed) as (mq & eq & Hdiv & Hdq & Heq & HW);
    fold d1 d2; [lia|unfold a, k in *; lia|].
  fold d1 d2 in Heq, HW.
  pose proof (digits_53 mq Hdq) as Hmq.
  exists mr, e', md, ed, mq, eq. do 3 (split; [assumption|]).
  set (c := 53 + d2 - d1) in *.
  set (g := c + a - k).
  assert (Hg : 51 <= g <= 55) by (unfold g, c; lia).
  replace (d1 + es - (d2 + ed) - 53) with (- g) in * by (unfold g, c, a, k; lia).
  set (G := 2 ^ g).
  assert (HGK : G * K = 2 ^ c * A).
  { unfold G, K, A. rewrite <- !Z.pow_add_r by (unfold c; lia). f_equal. unfold g. lia. }
  assert (HG : 2 ^ 51 <= G <= 2 ^ 55).
  { unfold G. split; apply Z.pow_le_mono_r; lia. }
  pose proof (Z.div_mod (Zpos ms * 2 ^ c) (Zpos md) ltac:(lia)) as Hdm.
  pose proof (Z.mod_pos_bound (Zpos ms * 2 ^ c) (Zpos md) ltac:(lia)) as Hrem.
  set (Q := Zpos ms * 2 ^ c / Zpos md) in *.
  set (rem := (Zpos ms * 2 ^ c) mod Zpos md) in *.
  assert (HA : 0 < A) by (apply Z.pow_pos_nonneg; lia).
  assert (HGM : G * M = Zpos ms * 2 ^ c * A).
  { unfold M. rewrite <- (Z.mul_assoc (Zpos ms)), <- HGK. ring. }
  assert (HQ1 : Q * Y <= G * M).
  { rewrite HGM. replace (Q * Y) with (Q * Zpos md * A) by (unfold Y; ring).
    apply Z.mul_le_mono_nonneg_r; lia. }
  assert (HQ2 : G * M < (Q + 1) * Y).
  { rewrite HGM. replace ((Q + 1) * Y) with ((Q + 1) * Zpos md * A) by (unfold Y; ring).
    apply Z.mul_lt_mono_pos_r; lia. }
  assert (HQG : G - 258 <= Q <= G + 258)
    by (apply (quotient_near G Y M Q); lia).
  set (j := eq - - g) in *.
  assert (Hj0 : 0 <= j) by (unfold j; lia).
  assert (Hj : g - 54 < j < g - 51).
  { assert (Hc : g = 51 \/ g = 52 \/ g = 53 \/ g = 54 \/ g = 55) by lia.
    assert (HGv : G = 2 ^ g) by reflexivity.
    destruct Hc as [Hc|[Hc|[Hc|[Hc|Hc]]]]; rewrite Hc in HGv |- *;
      [apply (scaled_exponent (Zpos mq) j 50 52)
      |apply (scaled_exponent (Zpos mq) j 51 53)
      |apply (scaled_exponent (Zpos mq) j 52 54)
      |apply (scaled_exponent (Zpos mq) j 53 55)
      |apply (scaled_exponent (Zpos mq) j 54 56)]; lia. }
  assert (Heqv : eq = j - g) by (unfold j; lia).
  assert (Hc : g = 51 \/ g = 52 \/ g = 53 \/ g = 54 \/ g = 55) by lia.
  assert (HGv : G = 2 ^ g) by reflexivity.
  assert (Hjc : j = g - 53 \/ j = g - 52) by lia.
  clear HGK HGM HQ1 HQ2 Hdm Hrem HYM.
  destruct Hc as [Hc|[Hc|[Hc|[Hc|Hc]]]]; rewrite Hc in *;
    destruct Hjc as [Hjc|Hjc]; rewrite Hjc in *; cbn in Heqv; subst eq;
    try lia; (split; [lia|]); cbn in HW, HGv |- *; lia.
Qed.

Lemma toFixed_near_one (x : number) mq eq :
  Prim2SF x = S754_finite false mq eq ->
  eq = -52 \/ eq = -53 ->
  2 ^ (- eq) - 260 <= Zpos mq <= 2 ^ (- eq) + 260 ->
  toFixed_Number 4 x = 1%float.
Proof.
  intros Hx Heq Hm. unfold toFixed_Number. rewrite Hx.
  assert (Hsmall : (1e21 <=? abs x)%float = false).
  { rewrite FloatAxioms.leb_spec, FloatAxioms.abs_spec, Hx.
    destruct Heq as [-> | ->]; reflexivity. }
  rewrite Hsmall.
  change (10 ^ Z.of_nat 4) with 10000.
  assert (Hn : match eq with
               | Z.neg _ => (2 * Z.pos mq * 10000 + 2 ^ (- eq)) / 2 ^ (1 - eq)
               | _ => Z.pos mq * 2 ^ eq * 10000
               end = 10000).
  { destruct Heq as [-> | ->]; cbn [Z.opp Z.sub Z.add Z.pos_sub Pos.succ Pos.add] in *;
      symmetry;
      [apply (Z.div_unique _ _ _ (2 * Z.pos mq * 10000 + 2 ^ 52 - 2 ^ 53 * 10000))
      |apply (Z.div_unique _ _ _ (2 * Z.pos mq * 10000 + 2 ^ 53 - 2 ^ 54 * 10000))]; lia. }
  rewrite Hn. reflexivity.
Qed.

(** A positive finite number. *)
Lemma positive_finite (s : number) :
  (0 <? s)%float = true -> (s <? infinity)%float = true ->
  exists ms es,
    Prim2SF s = S754_finite false ms es /\ bounded prec emax ms es = true.
Proof.
  rewrite !FloatAxioms.ltb_spec.
  change (Prim2SF 0) with (S754_zero false).
  change (Prim2SF infinity) with (S754_infinity false).
  pose proof (Prim2SF_valid s) as Hv.
  destruct (Prim2SF s) as [sx|sx| |sx ms es]; unfold SFltb; cbn [SFcompare];
    intros Hlo Hhi; try discriminate.
  - destruct sx; [discriminate Hlo|discriminate Hhi].
  - destruct sx; [discriminate Hlo|]. exists ms, es. split; [reflexivity|exact Hv].
Qed.

(** In binary64, s / (√s · √s) rounded to four decimals is 1 for every
    positive finite s, normal or subnormal. *)
Lemma self_quotient_one (s : number) :
  (0 <? s)%float = true -> (s <? infinity)%float = true ->
  toFixed_Number 4
    (if strict_eq (sqrt s * sqrt s) 0 then 0 else s / (sqrt s * sqrt s))%float
  = 1%float.
Proof.
  intros Hlo Hhi.
  destruct (positive_finite s Hlo Hhi) as (ms & es & Hs & Hb).
  destruct (SF_self_quotient ms es Hb)
    as (mr & er & md & ed & mq & eq & Hsqrt & Hmul & Hdiv & Heq & Hmq).
  assert (Hr : Prim2SF (sqrt s) = S754_finite false mr er)
    by (rewrite FloatAxioms.sqrt_spec, Hs; exact Hsqrt).
  assert (Hd : Prim2SF (sqrt s * sqrt s) = S754_finite false md ed)
    by (rewrite FloatAxioms.mul_spec, Hr; exact Hmul).
  assert (Hq : Prim2SF (s / (sqrt s * sqrt s)) = S754_finite false mq eq)
    by (rewrite FloatAxioms.div_spec, Hs, Hd; exact Hdiv).
  assert (Hnz : strict_eq (sqrt s * sqrt s) 0 = false).
  { unfold strict_eq. rewrite FloatAxioms.eqb_spec, Hd. reflexivity. }
  rewrite Hnz. exact (toFixed_near_one _ mq eq Hq Heq Hmq).
Qed.

(** The other values of s: a zero gives the coefficient 0, [Infinity] and
    [NaN] give [NaN]. *)
Lemma self_quotient_zero (s : number) :
  strict_eq s 0 = true ->
  toFixed_Number 4
    (if strict_eq (sqrt s * sqrt s) 0 then 0 else s / (sqrt s * sqrt s))%float
  = 0%float.
Proof.
  unfold strict_eq at 1. rewrite FloatAxioms.eqb_spec.
  change (Prim2SF 0) with (S754_zero false).
  destruct (Prim2SF s) as [sx|sx| |sx ms es] eqn:Hs; unfold SFeqb; cbn [SFcompare];
    try discriminate; try (destruct sx; discriminate).
  intros _.
  assert (Hz : s = 0%float \/ s = neg_zero).
  { destruct sx; [right|left]; apply Prim2SF_inj; rewrite Hs; reflexivity. }
  destruct Hz as [-> | ->]; reflexivity.
Qed.

Lemma is_nan_inv (s : number) : is_nan s = true -> s = NaN.
Proof.
  intros Hn. apply Prim2SF_inj. change (Prim2SF NaN) with S754_nan.
  destruct (Prim2SF s) as [sx|sx| |sx ms es] eqn:Hs; [| |reflexivity|];
    (assert (Hf : is_nan s = false) by (apply nan_iff; rewrite Hs; discriminate));
    rewrite Hf in Hn; discriminate Hn.
Qed.

Lemma self_quotient_not_finite (s : number) :
  s = infinity \/ is_nan s = true ->
  toFixed_Number 4
    (if strict_eq (sqrt s * sqrt s) 0 then 0 else s / (sqrt s * sqrt s))%float
  = NaN.
Proof. intros [-> | ->%is_nan_inv]; reflexivity. Qed.

(** *** Rounding to d decimals *)

(** The integer that [toFixed] prints is the one nearest to |x|·10^d. *)
Lemma toFixed_integer (m : positive) (e scale : Z) :
  0 < scale ->
  let n := match e with
           | Zneg _ => (2 * Zpos m * scale + 2 ^ (- e)) / 2 ^ (1 - e)
           | _ => Zpos m * 2 ^ e * scale
           end in
  (2 * n - 1) * 2 ^ Z.max 0 (- e) <= 2 * (Zpos m * 2 ^ Z.max 0 e) * scale
    < (2 * n + 1) * 2 ^ Z.max 0 (- e).
Proof.
  intros Hs n. subst n. destruct e as [|p|p].
  - change (Z.max 0 (- 0)) with 0. change (Z.max 0 0) with 0.
    rewrite Z.pow_0_r. nia.
  - replace (Z.max 0 (- Zpos p)) with 0 by lia.
    replace (Z.max 0 (Zpos p)) with (Zpos p) by lia. rewrite Z.pow_0_r. nia.
  - replace (Z.max 0 (- Zneg p)) with (Zpos p) by lia.
    replace (Z.max 0 (Zneg p)) with 0 by lia. rewrite Z.pow_0_r, Z.mul_1_r.
    replace (- Zneg p) with (Zpos p) by lia.
    replace (1 - Zneg p) with (1 + Zpos p) by lia.
    rewrite Z.pow_add_r, Z.pow_1_r by lia.
    assert (Hp : 0 < 2 ^ Zpos p) by (apply Z.pow_pos_nonneg; lia).
    set (D := 2 ^ Zpos p) in *.
    pose proof (Z.div_mod (2 * Zpos m * scale + D) (2 * D) ltac:(lia)) as Hdm.
    pose proof (Z.mod_pos_bound (2 * Zpos m * scale + D) (2 * D) ltac:(lia)) as Hrem.
    set (q := (2 * Zpos m * scale + D) / (2 * D)) in *. nia.
Qed.

Lemma nearest_integer_unique (X D n n' : Z) :
  0 < D ->
  (2 * n - 1) * D <= X < (2 * n + 1) * D ->
  (2 * n' - 1) * D <= X < (2 * n' + 1) * D ->
  n = n'.
Proof. intros HD H1 H2. nia. Qed.

(** [Number(x.toFixed(d))] is x rounded to d decimals, and nothing else is. *)
Lemma rounds_to_iff (d : nat) (x r : number) :
  rounds_to d x r <-> r = toFixed_Number d x.
Proof.
  unfold rounds_to, toFixed_Number.
  destruct (Prim2SF x) as [sx|sx| |sx m e]; try reflexivity.
  destruct (1e21 <=? abs x)%float; [reflexivity|].
  assert (Hs : 0 < 10 ^ Z.of_nat d) by (apply Z.pow_pos_nonneg; lia).
  pose proof (toFixed_integer m e (10 ^ Z.of_nat d) Hs) as Hn. cbv zeta in Hn |- *.
  set (n := match e with
            | Zneg _ => (2 * Zpos m * 10 ^ Z.of_nat d + 2 ^ (- e)) / 2 ^ (1 - e)
            | _ => Zpos m * 2 ^ e * 10 ^ Z.of_nat d
            end) in *.
  fold (decimal sx n d). split.
  - intros (n' & Hn' & ->). f_equal.
    eapply nearest_integer_unique; [|exact Hn'|exact Hn].
    apply Z.pow_pos_nonneg; lia.
  - intros ->. exists n. split; [exact Hn|reflexivity].
Qed.

Lemma toFixed_Number_rounds (d : nat) (x : number) : rounds_to d x (toFixed_Number d x).
Proof. now apply rounds_to_iff. Qed.

(** ** 11. Objects: reading, writing and key order *)

Lemma eqb_string_refl (k : string) : String.eqb k k = true.
Proof. apply String.eqb_refl. Qed.

Lemma existsb_eqb_In (k : string) ks : existsb (String.eqb k) ks = true <-> In k ks.
Proof.
  rewrite existsb_exists. split.
  - intros (x & Hin & ->%String.eqb_eq). exact Hin.
  - intros Hin. exists k. split; [exact Hin|apply String.eqb_refl].
Qed.

Lemma existsb_eqb_not_In (k : string) ks : existsb (String.eqb k) ks = false <-> ~ In k ks.
Proof.
  rewrite <- existsb_eqb_In. destruct (existsb _ _); split; congruence.
Qed.

Lemma distinct_NoDup ks : distinct ks = true <-> List.NoDup ks.
Proof.
  induction ks as [|k ks IH]; cbn [distinct].
  - split; [constructor|reflexivity].
  - rewrite andb_true_iff, negb_true_iff, existsb_eqb_not_In, IH.
    split; [intros []; now constructor|inversion 1; subst; split; assumption].
Qed.

Lemma own_put_eq {V} (o : obj V) k v : own (put k v o) k = Some v.
Proof.
  induction o as [|[k' v'] o IH]; cbn [put own].
  - now rewrite String.eqb_refl.
  - destruct (String.eqb k' k) eqn:E; cbn [own]; rewrite E; [reflexivity|exact IH].
Qed.

Lemma own_put_ne {V} (o : obj V) k k' v : k <> k' -> own (put k v o) k' = own o k'.
Proof.
  intros Hne. induction o as [|[k0 v0] o IH]; cbn [put own].
  - now apply String.eqb_neq in Hne as ->.
  - destruct (String.eqb k0 k) eqn:E; cbn [own].
    + apply String.eqb_eq in E as ->. now apply String.eqb_neq in Hne as ->.
    + now rewrite IH.
Qed.

Lemma own_Some_In {V} (o : obj V) k v : own o k = Some v -> In k (map fst o).
Proof.
  induction o as [|[k' v'] o IH]; cbn [own map fst]; [discriminate|].
  destruct (String.eqb_spec k' k) as [->|]; [now left|right; auto].
Qed.

Lemma own_In {V} (o : obj V) k : In k (map fst o) -> exists v, own o k = Some v.
Proof.
  induction o as [|[k' v'] o IH]; cbn [own map fst]; [intros []|].
  destruct (String.eqb_spec k' k) as [->|Hne]; [eauto|].
  intros [Heq|Hin]; [congruence|auto].
Qed.

Lemma own_None {V} (o : obj V) k : ~ In k (map fst o) -> own o k = None.
Proof.
  intros Hn. destruct (own o k) eqn:E; [|reflexivity].
  now apply own_Some_In in E.
Qed.

Lemma keys_put_old {V} (o : obj V) k v :
  In k (map fst o) -> map fst (put k v o) = map fst o.
Proof.
  induction o as [|[k' v'] o IH]; cbn [put map fst]; [intros []|].
  destruct (String.eqb_spec k' k) as [->|Hne]; cbn [map fst]; [reflexivity|].
  intros [Heq|Hin]; [congruence|]. now rewrite IH.
Qed.

Lemma keys_put_new {V} (o : obj V) k v :
  ~ In k (map fst o) -> map fst (put k v o) = map fst o ++ [k].
Proof.
  induction o as [|[k' v'] o IH]; cbn [put map fst app]; [reflexivity|].
  destruct (String.eqb_spec k' k) as [->|Hne]; cbn [map fst].
  - intros []. now left.
  - intros Hn. rewrite IH; [reflexivity|]. intros H. apply Hn. now right.
Qed.

(** *** The property order *)

Lemma In_insert_index k x ks : In x (insert_index k ks) <-> x = k \/ In x ks.
Proof.
  induction ks as [|k' ks IH]; cbn [insert_index].
  - cbn. intuition.
  - destruct (index_value k <=? index_value k'); cbn [In]; [intuition|].
    rewrite IH. cbn [In]. intuition.
Qed.

Lemma In_sort_indices x ks : In x (sort_indices ks) <-> In x ks.
Proof.
  induction ks as [|k ks IH]; cbn [sort_indices fold_right]; [reflexivity|].
  fold (sort_indices ks). rewrite In_insert_index, IH. cbn [In]. intuition.
Qed.

Lemma NoDup_insert_index k ks :
  ~ In k ks -> List.NoDup ks -> List.NoDup (insert_index k ks).
Proof.
  induction ks as [|k' ks IH]; cbn [insert_index]; intros Hn Hd.
  - constructor; [intros []|constructor].
  - destruct (index_value k <=? index_value k'); [now constructor|].
    inversion Hd as [|? ? Hk' Hks]; subst. constructor.
    + rewrite In_insert_index. intros [->|H]; [apply Hn; now left|contradiction].
    + apply IH; [|assumption]. intros H. apply Hn. now right.
Qed.

Lemma NoDup_sort_indices ks : List.NoDup ks -> List.NoDup (sort_indices ks).
Proof.
  induction 1 as [|k ks Hk Hd IH]; cbn [sort_indices fold_right]; [constructor|].
  fold (sort_indices ks). apply NoDup_insert_index; [|assumption].
  now rewrite In_sort_indices.
Qed.

Lemma NoDup_filter (p : string -> bool) ks : List.NoDup ks -> List.NoDup (List.filter p ks).
Proof. apply List.NoDup_filter. Qed.

Lemma In_property_order x ks : In x (property_order ks) <-> In x ks.
Proof.
  unfold property_order.
  rewrite List.in_app_iff, In_sort_indices, !List.filter_In.
  destruct (is_index x); cbn; intuition congruence.
Qed.

Lemma NoDup_property_order ks : List.NoDup ks -> List.NoDup (property_order ks).
Proof.
  intros Hd. unfold property_order. apply List.NoDup_app.
  - apply NoDup_sort_indices, List.NoDup_filter, Hd.
  - apply List.NoDup_filter, Hd.
  - intros x. rewrite In_sort_indices, !List.filter_In.
    intros [_ H1] [_ H2]. rewrite H1 in H2. discriminate.
Qed.

Lemma length_insert_index k ks : length (insert_index k ks) = S (length ks).
Proof.
  induction ks as [|k' ks IH]; cbn [insert_index]; [reflexivity|].
  destruct (index_value k <=? index_value k'); cbn [length]; [reflexivity|].
  now rewrite IH.
Qed.

Lemma length_sort_indices ks : length (sort_indices ks) = length ks.
Proof.
  induction ks as [|k ks IH]; cbn [sort_indices fold_right length]; [reflexivity|].
  fold (sort_indices ks). now rewrite length_insert_index, IH.
Qed.

Lemma length_property_order ks : length (property_order ks) = length ks.
Proof.
  unfold property_order. rewrite List.length_app, length_sort_indices.
  induction ks as [|k ks IH]; cbn [List.filter]; [reflexivity|].
  destruct (is_index k); cbn [negb length] in *; lia.
Qed.

Lemma ascending_insert_index k ks : ascending ks -> ascending (insert_index k ks).
Proof.
  induction ks as [|k' ks IH]; cbn [insert_index]; [cbn; auto|].
  intros Ha. destruct (Z.leb_spec (index_value k) (index_value k')).
  - split; assumption.
  - destruct Ha as [Hh Ht]. specialize (IH Ht). split; [|exact IH].
    destruct ks as [|k'' ks]; cbn [insert_index] in *; [lia|].
    destruct (index_value k <=? index_value k''); [lia|exact Hh].
Qed.

Lemma ascending_sort_indices ks : ascending (sort_indices ks).
Proof.
  induction ks as [|k ks IH]; cbn [sort_indices fold_right]; [exact I|].
  now apply ascending_insert_index.
Qed.

Lemma sort_indices_ascending ks : ascending ks -> sort_indices ks = ks.
Proof.
  induction ks as [|k ks IH]; [reflexivity|].
  intros [Hh Ht]. cbn [sort_indices fold_right]. fold (sort_indices ks).
  rewrite (IH Ht). destruct ks as [|k' ks]; [reflexivity|].
  cbn [insert_index]. now apply Z.leb_le in Hh as ->.
Qed.

Lemma filter_all (p : string -> bool) ks :
  Forall (fun k => p k = true) ks -> List.filter p ks = ks.
Proof.
  induction 1 as [|k ks Hk _ IH]; cbn [List.filter]; [reflexivity|].
  now rewrite Hk, IH.
Qed.

Lemma filter_none (p : string -> bool) ks :
  Forall (fun k => p k = false) ks -> List.filter p ks = [].
Proof.
  induction 1 as [|k ks Hk _ IH]; cbn [List.filter]; [reflexivity|].
  now rewrite Hk, IH.
Qed.

Lemma key_ordered_fixed ks : key_ordered ks -> property_order ks = ks.
Proof.
  intros (idx & others & -> & Hi & Ha & Ho). unfold property_order.
  rewrite !List.filter_app.
  rewrite (filter_all _ idx Hi), (filter_none _ others Ho), List.app_nil_r.
  rewrite (filter_none (fun k => negb (is_index k)) idx),
          (filter_all (fun k => negb (is_index k)) others).
  - now rewrite sort_indices_ascending.
  - eapply List.Forall_impl; [|exact Ho]. cbn. now intros k ->.
  - eapply List.Forall_impl; [|exact Hi]. cbn. now intros k ->.
Qed.

Lemma key_ordered_property_order ks : key_ordered (property_order ks).
Proof.
  exists (sort_indices (List.filter is_index ks)),
         (List.filter (fun k => negb (is_index k)) ks).
  split; [reflexivity|]. split; [|split].
  - apply List.Forall_forall. intros k. rewrite In_sort_indices, List.filter_In. tauto.
  - apply ascending_sort_indices.
  - apply List.Forall_forall. intros k. rewrite List.filter_In, negb_true_iff. tauto.
Qed.

Lemma key_ordered_tail ks : key_ordered ks -> key_ordered (tail ks).
Proof.
  intros (idx & others & -> & Hi & Ha & Ho).
  destruct idx as [|k idx]; cbn [app tail].
  - exists [], (tail others). repeat split; try constructor.
    destruct others; [constructor|now inversion Ho].
  - exists idx, others. split; [reflexivity|].
    inversion Hi; subst. destruct Ha. auto.
Qed.

(** *** Building an object by a loop of assignments *)

Lemma keys_fold_put {V} (f : obj V -> string -> V) cols : forall o,
  List.NoDup cols -> (forall c, In c cols -> ~ In c (map fst o)) ->
  map fst (fold_left (fun t c => put c (f t c) t) cols o) = map fst o ++ cols.
Proof.
  induction cols as [|c cols IH]; intros o Hd Hfresh; cbn [fold_left].
  - now rewrite List.app_nil_r.
  - inversion Hd as [|? ? Hc Hd']; subst.
    rewrite IH; [|assumption|].
    + rewrite keys_put_new by (apply Hfresh; now left).
      now rewrite <- List.app_assoc.
    + intros c' Hc'. rewrite keys_put_new by (apply Hfresh; now left).
      rewrite List.in_app_iff. intros [H|[->|[]]]; [|contradiction].
      revert H. apply Hfresh. now right.
Qed.

Lemma keys_fold_update {V} (f : obj V -> string -> V) cols : forall o,
  (forall c, In c cols -> In c (map fst o)) ->
  map fst (fold_left (fun t c => put c (f t c) t) cols o) = map fst o.
Proof.
  induction cols as [|c cols IH]; intros o Hin; cbn [fold_left]; [reflexivity|].
  rewrite IH; rewrite keys_put_old by (apply Hin; now left); [reflexivity|].
  intros c' Hc'. apply Hin. now right.
Qed.

Lemma own_fold_put_other {V} (f : obj V -> string -> V) cols k : forall o,
  ~ In k cols ->
  own (fold_left (fun t c => put c (f t c) t) cols o) k = own o k.
Proof.
  induction cols as [|c cols IH]; intros o Hn; cbn [fold_left]; [reflexivity|].
  rewrite IH by (intros H; apply Hn; now right).
  apply own_put_ne. intros ->. apply Hn. now left.
Qed.

(** When the written value depends on the key and on the old value under that
    key only, a loop over distinct keys updates each key independently. *)
Lemma own_fold_put {V} (g : option V -> string -> V) cols k : forall o,
  List.NoDup cols -> In k cols ->
  own (fold_left (fun t c => put c (g (own t c) c) t) cols o) k
  = Some (g (own o k) k).
Proof.
  induction cols as [|c cols IH]; intros o Hd Hin; [destruct Hin|].
  inversion Hd as [|? ? Hc Hd']; subst. cbn [fold_left].
  destruct Hin as [->|Hin].
  - rewrite (own_fold_put_other (fun t c => g (own t c) c)) by assumption.
    apply own_put_eq.
  - rewrite IH by assumption. f_equal. f_equal.
    apply own_put_ne. intros ->. contradiction.
Qed.

Lemma own_fold_assign {V} (h : string -> V) cols k : forall o,
  own (fold_left (fun out c => put c (h c) out) cols o) k
  = if existsb (String.eqb k) cols then Some (h k) else own o k.
Proof.
  induction cols as [|c cols IH]; intros o; cbn [fold_left existsb]; [reflexivity|].
  rewrite IH. destruct (existsb (String.eqb k) cols); [now rewrite orb_true_r|].
  rewrite orb_false_r. destruct (String.eqb_spec k c) as [->|Hne].
  - apply own_put_eq.
  - apply own_put_ne. congruence.
Qed.

(** ** 12. The normalizer *)

Lemma filter_res_Ret {A} (p : A -> res bool) (b : A -> bool) l :
  (forall x, In x l -> p x = Ret (b x)) ->
  filter_res p l = Ret (List.filter b l).
Proof.
  induction l as [|x l IH]; intros Hp; cbn [filter_res List.filter]; [reflexivity|].
  rewrite (Hp x) by now left. cbn.
  rewrite IH by (intros; apply Hp; now right). reflexivity.
Qed.

Lemma filter_map {A B} (f : A -> B) (b : B -> bool) l :
  List.filter b (map f l) = map f (List.filter (fun x => b (f x)) l).
Proof.
  induction l as [|x l IH]; cbn [map List.filter]; [reflexivity|].
  destruct (b (f x)); cbn [map]; now rewrite IH.
Qed.

Section Normalizer.

Variable Date_parse : string -> time.

Lemma normalize_row_series d sc r c :
  In c sc ->
  own (normalize_row Date_parse d sc r) c = Some (VNum (Number_or_zero (get r c))).
Proof.
  intros Hin. unfold normalize_row.
  rewrite (own_fold_assign (fun c => VNum (Number_or_zero (get r c)))).
  now apply existsb_eqb_In in Hin as ->.
Qed.

Lemma normalize_row_date d sc r :
  ~ In "date"%string sc ->
  own (normalize_row Date_parse d sc r) "date"
  = Some (VDate (new_Date Date_parse (get_key r d))).
Proof.
  intros Hn. unfold normalize_row.
  rewrite (own_fold_assign (fun c => VNum (Number_or_zero (get r c)))).
  now apply existsb_eqb_not_In in Hn as ->.
Qed.


Lemma has_valid_date_row d sc r :
  ~ In "date"%string sc ->
  has_valid_date (normalize_row Date_parse d sc r) = Ret (date_parses Date_parse d r).
Proof.
  intros Hn. unfold has_valid_date. now rewrite normalize_row_date.
Qed.

Lemma has_valid_date_clash d sc r :
  In "date"%string sc ->
  has_valid_date (normalize_row Date_parse d sc r)
  = Throw (TypeError "x.date.getTime is not a function").
Proof.
  intros Hin. unfold has_valid_date. now rewrite normalize_row_series.
Qed.

(** The normalizer returns on every non-empty input without a series column
    named ["date"]... *)
Lemma normalize_returns r0 rest :
  ~ In "date"%string (inferred_seriesCols r0) ->
  normalizeSalesData Date_parse (Some (r0 :: rest))
  = Ret (Some {| dateCol := inferred_dateCol r0;
                 seriesCols := inferred_seriesCols r0;
                 parsed := map (normalize_row Date_parse (inferred_dateCol r0)
                                  (inferred_seriesCols r0))
                             (List.filter (date_parses Date_parse (inferred_dateCol r0))
                                (r0 :: rest)) |}).
Proof.
  intros Hn. unfold normalizeSalesData.
  fold (inferred_dateCol r0). fold (inferred_seriesCols r0).
  rewrite (filter_res_Ret _
    (fun x => match own x "date" with
              | Some (VDate t) => bool_decide (is_Some t)
              | _ => false
              end)).
  - cbn [mbind res_bind]. rewrite filter_map. do 4 f_equal.
    apply List.filter_ext. intros r. now rewrite normalize_row_date.
  - intros x (r & <- & _)%List.in_map_iff.
    rewrite has_valid_date_row by assumption.
    rewrite normalize_row_date by assumption. reflexivity.
Qed.

(** ... and throws on every other non-empty input. *)
Lemma normalize_throws r0 rest :
  In "date"%string (inferred_seriesCols r0) ->
  normalizeSalesData Date_parse (Some (r0 :: rest))
  = Throw (TypeError "x.date.getTime is not a function").
Proof.
  intros Hin. unfold normalizeSalesData.
  fold (inferred_dateCol r0). fold (inferred_seriesCols r0).
  cbn [map filter_res]. now rewrite has_valid_date_clash.
Qed.

Lemma normalize_inv rows nz :
  normalizeSalesData Date_parse rows = Ret (Some nz) ->
  exists r0 rest,
    rows = Some (r0 :: rest)
    /\ ~ In "date"%string (inferred_seriesCols r0)
    /\ nz = {| dateCol := inferred_dateCol r0;
               seriesCols := inferred_seriesCols r0;
               parsed := map (normalize_row Date_parse (inferred_dateCol r0)
                                (inferred_seriesCols r0))
                           (List.filter (date_parses Date_parse (inferred_dateCol r0))
                              (r0 :: rest)) |}.
Proof.
  destruct rows as [[|r0 rest]|]; try discriminate.
  intros H. exists r0, rest. split; [reflexivity|].
  destruct (List.in_dec string_dec "date"%string (inferred_seriesCols r0)) as [Hin|Hn].
  - rewrite normalize_throws in H by assumption. discriminate.
  - rewrite normalize_returns in H by assumption. split; [assumption|congruence].
Qed.

Lemma wf_row_keys r0 :
  wf_row r0 = true ->
  List.NoDup (Object_keys r0) /\ ~ In "__proto__"%string (Object_keys r0).
Proof.
  unfold wf_row. rewrite andb_true_iff, negb_true_iff.
  intros [Hd%distinct_NoDup Hp%existsb_eqb_not_In]. unfold Object_keys. split.
  - now apply NoDup_property_order.
  - now rewrite In_property_order.
Qed.

Lemma NoDup_tail {A} (l : list A) : List.NoDup l -> List.NoDup (tail l).
Proof. destruct 1; [constructor|assumption]. Qed.

Lemma In_tail {A} (x : A) l : In x (tail l) -> In x l.
Proof. destruct l; [intros []|now right]. Qed.

(** [r[c] || 0] on a normalized row always finds a number under a series
    column: the cases that [series_value] leaves at 0 do not arise. *)
Lemma series_value_number rows nz x c :
  normalizeSalesData Date_parse rows = Ret (Some nz) ->
  In x (parsed nz) -> In c (seriesCols nz) ->
  exists r v, In r (default [] rows) /\ v = Number_or_zero (get r c)
    /\ own x c = Some (VNum v) /\ series_value x c = or_zero v.
Proof.
  intros (r0 & rest & -> & Hn & ->)%normalize_inv. cbn [parsed seriesCols].
  intros (r & <- & Hr%List.filter_In)%List.in_map_iff Hc.
  exists r, (Number_or_zero (get r c)).
  unfold series_value. rewrite normalize_row_series by assumption.
  cbn [default]. tauto.
Qed.

End Normalizer.

(** ** 13. Claims about the normalizer *)

(** C6. For every non-empty input row sequence on which the normalizer
    produces its output, the output has at most as many rows as the input,
    exactly the input count minus the rows whose date-column value fails date
    parsing, and the surviving rows keep their relative order: the output is
    the image, row by row, of the input rows whose date parses. *)
Theorem normalize_row_count Date_parse (rows : list row) nz :
  rows <> [] ->
  normalizeSalesData Date_parse (Some rows) = Ret (Some nz) ->
  (length (parsed nz) <= length rows)%nat
  /\ length (parsed nz)
     = (length rows
        - length (List.filter (fun r => negb (date_parses Date_parse (dateCol nz) r)) rows))%nat
  /\ parsed nz
     = map (normalize_row Date_parse (dateCol nz) (seriesCols nz))
         (List.filter (date_parses Date_parse (dateCol nz)) rows).
Proof.
  intros _ (r0 & rest & [= ->] & Hn & ->)%normalize_inv.
  cbn [parsed dateCol seriesCols].
  set (d := inferred_dateCol r0). set (rows := r0 :: rest).
  pose proof (List.filter_length (date_parses Date_parse d) rows) as Hlen.
  rewrite List.length_map. repeat split; lia.
Qed.

Lemma normalize_row_count_witness :
  length (List.filter (fun r => negb (date_parses Date_parse_iso (Some "Month") r))
            rows_with_bad_date) = 1%nat
  /\ exists nz,
      normalizeSalesData Date_parse_iso (Some rows_with_bad_date) = Ret (Some nz)
      /\ length (parsed nz) = 2%nat.
Proof.
  split; [reflexivity|].
  eexists. split; [reflexivity|].
  pose proof (normalize_row_count Date_parse_iso rows_with_bad_date _
                ltac:(discriminate) eq_refl) as (_ & H & _).
  exact H.
Defined.




(** Part of C7 that holds: the normalizer returns [null] exactly when the
    rows are absent or empty. *)
Lemma normalize_null_iff Date_parse (rows : option (list row)) :
  normalizeSalesData Date_parse rows = Ret None <-> rows = None \/ rows = Some [].
Proof.
  split.
  - destruct rows as [[|r0 rest]|]; auto. intros H. exfalso.
    destruct (List.in_dec string_dec "date" (inferred_seriesCols r0)) as [Hin|Hn].
    + rewrite normalize_throws in H by assumption. discriminate.
    + rewrite normalize_returns in H by assumption. discriminate.
  - intros [-> | ->]; reflexivity.
Qed.

(** Part of C7 that holds: without a series column named ["date"], rows that
    all fail date parsing give a result that is not [null], with the column
    names of [Object.keys] on the first row and no rows. *)
Lemma normalize_all_rows_dropped Date_parse (r0 : row) (rest : list row) :
  ~ In "date" (inferred_seriesCols r0) ->
  (forall r, In r (r0 :: rest) -> date_parses Date_parse (inferred_dateCol r0) r = false) ->
  normalizeSalesData Date_parse (Some (r0 :: rest))
  = Ret (Some {| dateCol := inferred_dateCol r0;
                 seriesCols := inferred_seriesCols r0;
                 parsed := [] |}).
Proof.
  intros Hd Hall. rewrite normalize_returns by assumption.
  replace (List.filter (date_parses Date_parse (inferred_dateCol r0)) (r0 :: rest))
    with (@nil row); [reflexivity|].
  symmetry. induction (r0 :: rest) as [|r l IH]; [reflexivity|].
  cbn [List.filter]. rewrite (Hall r) by now left.
  apply IH. intros r' Hr'. apply Hall. now right.
Qed.

(** C7, evaluated at the failing inputs. A first row whose keys were created
    in the order [Month], [2023] is normalized with ["2023"] as date column
    and ["Month"] as the series column; and a row sequence with a series
    column named ["date"] makes the normalizer throw instead of returning. *)
Theorem normalize_index_like_header :
  map fst (hd [] rows_with_year_header) = ["Month"; "2023"]
  /\ normalizeSalesData Date_parse_iso (Some rows_with_year_header)
     = Ret (Some {| dateCol := Some "2023"; seriesCols := ["Month"]; parsed := [] |})
  /\ normalizeSalesData Date_parse_iso (Some rows_with_date_series)
     = Throw (TypeError "x.date.getTime is not a function").
Proof. repeat split. Qed.

(** ** 14. Claims about the handlers: errors, the cache, the ranking *)

Lemma top_seller_run Date_parse req σ :
  top_seller Date_parse req σ
  = match normalizeSalesData Date_parse (cached_rows σ req) with
    | Throw e => (Throw e, σ)
    | Ret None => (Ret (bad_request "invalid or missing fileId"), σ)
    | Ret (Some nz) =>
        match ranking nz with
        | [] => (Throw (TypeError "Cannot read properties of undefined (reading '0')"), σ)
        | top :: _ => (Ret (json_ok (TopSeller (fst top) (snd top))), σ)
        end
    end.
Proof.
  unfold top_seller, cached_rows, mbind, M_bind, Map_get, lift, mret, M_ret.
  destruct (normalizeSalesData Date_parse _) as [[nz|]|e]; try reflexivity.
  now destruct (ranking nz).
Qed.

Lemma read_only_ret {A} (a : A) : read_only (mret a).
Proof. intros σ. reflexivity. Qed.

Lemma read_only_lift {A} (r : res A) : read_only (lift r).
Proof. intros σ. reflexivity. Qed.

Lemma read_only_get k : read_only (Map_get k).
Proof. intros σ. reflexivity. Qed.

Lemma read_only_bind {A B} (m : M A) (f : A -> M B) :
  read_only m -> (forall a, read_only (f a)) -> read_only (m ≫= f).
Proof.
  intros Hm Hf σ. unfold mbind, M_bind. specialize (Hm σ).
  destruct (m σ) as [[a|e] σ']; cbn [snd] in *; subst σ'; [apply Hf|reflexivity].
Qed.

(** Writing to the cache is not read-only: the upload callback changes it. *)
Lemma upload_end_writes :
  snd (upload_end "f1" rows_with_bad_date ∅) !! "f1" = Some rows_with_bad_date
  /\ ~ read_only (upload_end "f1" rows_with_bad_date).
Proof.
  split; [reflexivity|]. intros H. specialize (H ∅).
  apply (f_equal (fun σ : store => σ !! "f1")) in H. discriminate H.
Qed.

(** C9. No analytics operation modifies the cache: for every request and
    every cache, whether the handler answers or throws, the cache after the
    request is the cache before it. *)
Theorem analytics_leave_cache_unchanged Date_parse (req : request) (σ : store) :
  snd (top_seller Date_parse req σ) = σ
  /\ snd (moving_average Date_parse req σ) = σ
  /\ snd (correlation Date_parse req σ) = σ
  /\ snd (forecast Date_parse req σ) = σ.
Proof.
  repeat split.
  - revert σ. change (read_only (top_seller Date_parse req)).
    unfold top_seller. apply read_only_bind; [apply read_only_get|intros rows].
    apply read_only_bind; [apply read_only_lift|intros [nz|]]; [|apply read_only_ret].
    destruct (ranking nz); [apply read_only_lift|apply read_only_ret].
  - revert σ. change (read_only (moving_average Date_parse req)).
    unfold moving_average. apply read_only_bind; [apply read_only_get|intros rows].
    apply read_only_bind; [apply read_only_lift|intros [nz|]]; [|apply read_only_ret].
    destruct (negb _); [apply read_only_ret|].
    apply read_only_bind; [apply read_only_lift|intros mov; apply read_only_ret].
  - revert σ. change (read_only (correlation Date_parse req)).
    unfold correlation. apply read_only_bind; [apply read_only_get|intros rows].
    apply read_only_bind; [apply read_only_lift|intros [nz|]]; [|apply read_only_ret].
    apply read_only_bind; [apply read_only_lift|intros m; apply read_only_ret].
  - revert σ. change (read_only (forecast Date_parse req)).
    unfold forecast. apply read_only_bind; [apply read_only_get|intros rows].
    apply read_only_bind; [apply read_only_lift|intros [nz|]]; [|apply read_only_ret].
    destruct (negb _); apply read_only_ret.
Qed.

(** Part of C8 that holds: an unknown or empty dataset is answered with 400
    "invalid or missing fileId" by all four handlers. *)
Lemma invalid_file_is_rejected Date_parse req σ :
  cached_rows σ req = None \/ cached_rows σ req = Some [] ->
  let answer := (Ret (bad_request "invalid or missing fileId"), σ) in
  top_seller Date_parse req σ = answer
  /\ moving_average Date_parse req σ = answer
  /\ correlation Date_parse req σ = answer
  /\ forecast Date_parse req σ = answer.
Proof.
  intros H.
  assert (Hn : normalizeSalesData Date_parse (cached_rows σ req) = Ret None)
    by (destruct H as [-> | ->]; reflexivity).
  unfold top_seller, moving_average, correlation, forecast, cached_rows in *.
  unfold mbind, M_bind, Map_get, lift, mret, M_ret. cbv zeta.
  rewrite Hn. repeat split.
Qed.


(** C8, evaluated at the failing input. The cached dataset has the columns
    [id], [date], [amount]; the requested series ["units"] is not among its
    series columns; both handlers throw a [TypeError] instead of answering
    400 "product not found". *)
Theorem unknown_product_on_date_series_throws :
  cache_with_date_series !! "f1" = Some rows_with_date_series
  /\ includes (inferred_seriesCols (hd [] rows_with_date_series)) (product request_units)
     = false
  /\ fst (moving_average Date_parse_iso request_units cache_with_date_series)
     = Throw (TypeError "x.date.getTime is not a function")
  /\ fst (forecast Date_parse_iso request_units cache_with_date_series)
     = Throw (TypeError "x.date.getTime is not a function").
Proof. repeat split. Qed.

(** *** The ranking is as long as the list of series columns *)

Lemma length_insert_sorted {A} (before : A -> A -> bool) x l :
  length (insert_sorted before x l) = S (length l).
Proof.
  induction l as [|y l IH]; cbn [insert_sorted]; [reflexivity|].
  destruct (before y x); cbn [length]; [now rewrite IH|reflexivity].
Qed.

Lemma length_sort {A} (before : A -> A -> bool) l :
  length (sort before l) = length l.
Proof.
  induction l as [|x l IH]; cbn [sort length]; [reflexivity|].
  now rewrite length_insert_sorted, IH.
Qed.

Lemma omap_total {A B} (f : A -> option B) (g : A -> B) l :
  (forall x, In x l -> f x = Some (g x)) -> omap f l = map g l.
Proof.
  induction l as [|x l IH]; intros H; [reflexivity|].
  change (omap f (x :: l))
    with (match f x with Some y => y :: omap f l | None => omap f l end).
  rewrite (H x) by now left. rewrite IH by (intros; apply H; now right).
  reflexivity.
Qed.

Lemma length_Object_entries {V} (o : obj V) :
  length (Object_entries o) = length o.
Proof.
  unfold Object_entries, Object_keys.
  destruct o as [|[k0 v0] o']; [reflexivity|]. set (o := (k0, v0) :: o').
  rewrite (omap_total _ (fun k => (k, default v0 (own o k)))).
  - now rewrite List.length_map, length_property_order, List.length_map.
  - intros k Hk. apply (proj1 (In_property_order k _)) in Hk.
    apply own_In in Hk as [v ->]. reflexivity.
Qed.

Lemma length_put {V} (o : obj V) k v : (length o <= length (put k v o))%nat.
Proof.
  induction o as [|[k' v'] o IH]; cbn [put length]; [lia|].
  destruct (String.eqb k' k); cbn [length]; lia.
Qed.

Lemma length_fold_put {V} (f : obj V -> string -> V) cols : forall o,
  (length o <= length (fold_left (fun t c => put c (f t c) t) cols o))%nat
  /\ (cols <> [] -> (1 <= length (fold_left (fun t c => put c (f t c) t) cols o))%nat).
Proof.
  induction cols as [|c cols IH]; intros o; cbn [fold_left]; [split; [lia|congruence]|].
  destruct (IH (put c (f o c) o)) as [H1 _].
  pose proof (length_put o c (f o c)).
  assert (1 <= length (put c (f o c) o))%nat
    by (destruct o as [|[k v] o]; cbn [put length]; [lia|destruct (String.eqb k c); cbn; lia]).
  split; [lia|intros _; lia].
Qed.

Lemma length_column_totals nz :
  seriesCols nz <> [] -> (1 <= length (column_totals nz))%nat.
Proof.
  intros Hne. unfold column_totals.
  set (t0 := fold_left (fun t col => put col 0%float t) (seriesCols nz) []).
  assert (H0 : (1 <= length t0)%nat)
    by (apply (length_fold_put (fun _ _ => 0%float)); assumption).
  clearbody t0. revert t0 H0.
  induction (parsed nz) as [|r rs IH]; intros t0 H0; cbn [fold_left]; [exact H0|].
  apply IH.
  pose proof (length_fold_put
    (fun t c => (match own t c with Some x => x | None => NaN end + series_value r c)%float)
    (seriesCols nz) t0) as [H _].
  lia.
Qed.

Lemma ranking_nonempty nz : seriesCols nz <> [] -> ranking nz <> [].
Proof.
  intros Hne%length_column_totals. unfold ranking.
  intros E. apply (f_equal (@length _)) in E.
  rewrite length_sort, length_Object_entries in E. cbn in E. lia.
Qed.

Lemma ranking_empty nz : seriesCols nz = [] -> ranking nz = [].
Proof.
  intros E. unfold ranking, column_totals. rewrite E. cbn [fold_left].
  now induction (parsed nz).
Qed.

(** C10. For every cached dataset of parser rows whose first row has at
    least two keys the extraction [top[0]] of the top-seller handler is safe: the handler never
    fails with the [TypeError] of reading ['0'] of [undefined], and whenever
    the normalizer returns, the sorted totals are non-empty and the handler
    answers with their first entry. The precondition is necessary: when the
    first row has exactly one key the sorted totals are empty and the
    extraction throws. *)
Theorem top_seller_extraction Date_parse (σ : store) (req : request) f r0 rest :
  fileId req = Some f ->
  σ !! f = Some (r0 :: rest) ->
  wf_rows (r0 :: rest) = true ->
  ((2 <= length r0)%nat ->
     fst (top_seller Date_parse req σ)
     <> Throw (TypeError "Cannot read properties of undefined (reading '0')")
     /\ forall nz,
          normalizeSalesData Date_parse (Some (r0 :: rest)) = Ret (Some nz) ->
          ranking nz <> []
          /\ exists top,
               head (ranking nz) = Some top
               /\ top_seller Date_parse req σ
                  = (Ret (json_ok (TopSeller (fst top) (snd top))), σ))
  /\ (length r0 = 1%nat ->
        exists nz,
          normalizeSalesData Date_parse (Some (r0 :: rest)) = Ret (Some nz)
          /\ ranking nz = []
          /\ top_seller Date_parse req σ
             = (Throw (TypeError "Cannot read properties of undefined (reading '0')"), σ)).
Proof.
  intros Hf Hσ _.
  assert (Hc : cached_rows σ req = Some (r0 :: rest))
    by (unfold cached_rows; now rewrite Hf).
  rewrite top_seller_run, Hc.
  assert (Hlen : length (Object_keys r0) = length r0)
    by (unfold Object_keys; now rewrite length_property_order, List.length_map).
  split.
  - intros H2.
    assert (Hs : inferred_seriesCols r0 <> []).
    { unfold inferred_seriesCols. destruct (Object_keys r0) as [|k [|k' ks]];
        cbn [length tail] in *; [lia|lia|discriminate]. }
    assert (Hr : forall nz, normalizeSalesData Date_parse (Some (r0 :: rest)) = Ret (Some nz) ->
                 ranking nz <> []).
    { intros nz (r0' & rest' & [= <- <-] & _ & ->)%normalize_inv.
      now apply ranking_nonempty. }
    split.
    + destruct (normalizeSalesData Date_parse (Some (r0 :: rest))) as [[nz|]|e] eqn:E;
        cbn [fst]; try discriminate.
      * specialize (Hr nz eq_refl). destruct (ranking nz); [contradiction|discriminate].
      * destruct (List.in_dec string_dec "date" (inferred_seriesCols r0)) as [Hin|Hn].
        -- rewrite normalize_throws in E by assumption. injection E as <-. discriminate.
        -- rewrite normalize_returns in E by assumption. discriminate.
    + intros nz Hnz. specialize (Hr nz Hnz). split; [exact Hr|].
      rewrite Hnz. destruct (ranking nz) as [|top tl]; [contradiction|].
      exists top. split; reflexivity.
  - intros H1.
    assert (Hs : inferred_seriesCols r0 = []).
    { unfold inferred_seriesCols. destruct (Object_keys r0) as [|k [|k' ks]];
        cbn [length tail] in *; [reflexivity|reflexivity|lia]. }
    rewrite normalize_returns by (rewrite Hs; intros []).
    eexists. split; [reflexivity|].
    rewrite ranking_empty by (cbn [seriesCols]; exact Hs).
    split; reflexivity.
Qed.

Lemma top_seller_extraction_witness :
  (exists top,
     top_seller Date_parse_iso request_f1 cache_with_bad_date
     = (Ret (json_ok (TopSeller (fst top) (snd top))), cache_with_bad_date))
  /\ top_seller Date_parse_iso request_f1 cache_with_one_key
     = (Throw (TypeError "Cannot read properties of undefined (reading '0')"),
        cache_with_one_key).
Proof.
  split.
  - destruct (top_seller_extraction Date_parse_iso cache_with_bad_date
                request_f1 "f1" (hd [] rows_with_bad_date) (tl rows_with_bad_date)
                eq_refl ltac:(vm_compute; reflexivity) eq_refl) as [H _].
    destruct (H ltac:(cbn; lia)) as [_ H'].
    destruct (H' _ ltac:(vm_compute; reflexivity)) as (_ & top & _ & Htop).
    exists top. exact Htop.
  - destruct (top_seller_extraction Date_parse_iso cache_with_one_key
                request_f1 "f1" (hd [] rows_with_one_key) (tl rows_with_one_key)
                eq_refl ltac:(vm_compute; reflexivity) eq_refl) as [_ H].
    destruct (H eq_refl) as (nz & _ & _ & Hthrow). exact Hthrow.
Defined.

(** ** 15. The forecast *)

Lemma imap_indices {A} (l : list A) k :
  imap (fun i _ => (k + i)%nat) l = seq k (length l).
Proof.
  revert k. induction l as [|x l IH]; intros k; cbn [imap seq length]; [reflexivity|].
  rewrite Nat.add_0_r. f_equal. rewrite <- IH. apply imap_ext. intros. cbn. lia.
Qed.

Lemma imap_seq_diag {B} (f : nat -> nat -> B) n k :
  imap (fun i x => f (k + i)%nat x) (seq k n) = map (fun i => f i i) (seq k n).
Proof.
  revert k. induction n as [|n IH]; intros k; cbn [imap seq map]; [reflexivity|].
  rewrite Nat.add_0_r. f_equal. rewrite <- IH. apply imap_ext. intros. cbn.
  f_equal. lia.
Qed.

Lemma imap_indices_0 {A} (l : list A) : imap (fun i _ => i) l = seq 0 (length l).
Proof. exact (imap_indices l 0). Qed.

Lemma imap_seq_diag_0 {B} (f : nat -> nat -> B) n :
  imap f (seq 0 n) = map (fun i => f i i) (seq 0 n).
Proof. exact (imap_seq_diag f n 0). Qed.

Lemma fold_left_push {A B} (g : A -> B) l : forall acc,
  fold_left (fun acc x => acc ++ [g x]) l acc = acc ++ map g l.
Proof.
  induction l as [|x l IH]; intros acc; cbn [fold_left map].
  - now rewrite List.app_nil_r.
  - now rewrite IH, <- List.app_assoc.
Qed.

Lemma includes_In cols p : includes cols (Some p) = true <-> In p cols.
Proof. apply existsb_eqb_In. Qed.

(** What the forecast handler answers when the normalizer returns and the
    product is a series column. *)
Lemma forecast_run Date_parse req σ nz p :
  normalizeSalesData Date_parse (cached_rows σ req) = Ret (Some nz) ->
  product req = Some p -> In p (seriesCols nz) ->
  forecast Date_parse req σ
  = (Ret (json_ok (Forecast (Some p)
                     (toFixed_Number 4 (ols_slope (series nz p)))
                     (toFixed_Number 4 (ols_intercept (series nz p)))
                     (map (fun k => ols_prediction (series nz p)
                                      (Z.of_nat (length (parsed nz)) + Z.of_nat k))
                        (seq 0 (Z.to_nat (default 3 (monthsForecast req))))))),
     σ).
Proof.
  intros Hn Hp Hin. unfold forecast, cached_rows in *.
  unfold mbind, M_bind, Map_get, lift, mret, M_ret. cbv zeta.
  rewrite Hn, Hp. apply includes_In in Hin. rewrite Hin. cbn [negb default].
  fold (series nz p).
  rewrite (imap_indices_0 (parsed nz)), List.length_seq.
  assert (Hlen : length (series nz p) = length (parsed nz))
    by (unfold series; apply List.length_map).
  rewrite imap_seq_diag_0.
  rewrite fold_left_push. cbn [app].
  rewrite <- List.seq_shift, !List.map_map.
  cbv delta [ols_slope ols_intercept ols_numerator ols_denominator ols_xbar mean
             ols_prediction] beta.
  rewrite !Hlen, ?List.length_map, ?List.length_seq. unfold series, id.
  do 4 f_equal.
  apply List.map_ext. intros k.
  replace (Z.of_nat (length (parsed nz)) + (Z.of_nat (S k) - 1))
    with (Z.of_nat (length (parsed nz)) + Z.of_nat k) by lia.
  reflexivity.
Qed.

Lemma ols_slope_short (y : list number) : (length y < 2)%nat -> ols_slope y = 0%float.
Proof.
  destruct y as [|v [|w y]]; cbn [length]; intros H; [reflexivity|reflexivity|lia].
Qed.

(** C1. For every cached dataset of parser rows on which the normalizer
    returns n rows and every known series name, the forecast handler answers
    with the
    least-squares slope and intercept over x = 0..n-1 and y = the series,
    each rounded to 4 decimals (the slope being 0 when the denominator is
    zero, which is the case below 2 rows), and with [monthsForecast]
    (default 3) predictions intercept + slope·idx rounded to 2 decimals at
    idx = n, n+1, ...; "rounded to d decimals" is [rounds_to], the nearest
    decimal with d digits after the point. For the series [10, 20, 30, 40]
    the slope is 10, the intercept is 10 and the prediction at index 4 is 50;
    for the series [1, 2, 4], where the rounding shows, the slope is 1.5, the
    intercept 0.8333 (from 0.8333333333333335, the binary64 number
    0x1.aaaaaaaaaaaacp-1) and the prediction at index 3 is 5.33 (from
    5.333333333333334). *)
Theorem forecast_is_least_squares Date_parse (σ : store) (req : request) f rows nz p :
  fileId req = Some f ->
  σ !! f = Some rows ->
  wf_rows rows = true ->
  normalizeSalesData Date_parse (Some rows) = Ret (Some nz) ->
  product req = Some p ->
  In p (seriesCols nz) ->
  let y := series nz p in
  let n := length (parsed nz) in
  let months := Z.to_nat (default 3 (monthsForecast req)) in
  exists slope intercept fc,
    forecast Date_parse req σ
    = (Ret (json_ok (Forecast (Some p) slope intercept fc)), σ)
    /\ rounds_to 4 (ols_slope y) slope
    /\ rounds_to 4 (ols_intercept y) intercept
    /\ length fc = months
    /\ (forall k, (k < months)%nat ->
          exists pred,
            fc !! k = Some {| monthIndex := Z.of_nat n + Z.of_nat k; predicted := pred |}
            /\ rounds_to 2 (ols_intercept y + ols_slope y * of_Z (Z.of_nat n + Z.of_nat k))
                 pred)
    /\ (strict_eq (ols_denominator n) 0 = true -> ols_slope y = 0%float)
    /\ ((n < 2)%nat -> ols_slope y = 0%float)
    /\ (monthsForecast req = None -> months = 3%nat)
    /\ (y = [10; 20; 30; 40]%float ->
          slope = 10%float /\ intercept = 10%float
          /\ ((0 < months)%nat ->
                fc !! 0%nat = Some {| monthIndex := 4; predicted := 50%float |}))
    /\ (y = [1; 2; 4]%float ->
          ols_intercept y = 0x1.aaaaaaaaaaaacp-1%float
          /\ slope = 1.5%float /\ intercept = decimal false 8333 4
          /\ ((0 < months)%nat ->
                fc !! 0%nat
                = Some {| monthIndex := 3; predicted := decimal false 533 2 |})).
Proof.
  intros Hf Hσ _ Hn Hp Hin y n months.
  assert (Hc : cached_rows σ req = Some rows) by (unfold cached_rows; now rewrite Hf).
  rewrite <- Hc in Hn.
  assert (Hlen : length y = n) by (unfold y, series; apply List.length_map).
  do 3 eexists. split; [apply (forecast_run Date_parse req σ nz p Hn Hp Hin)|].
  fold y. fold n. fold months.
  split; [apply toFixed_Number_rounds|]. split; [apply toFixed_Number_rounds|].
  split; [now rewrite List.length_map, List.length_seq|].
  split.
  { intros k Hk. eexists. rewrite list_lookup_fmap, lookup_seq_lt by exact Hk.
    split; [reflexivity|]. apply toFixed_Number_rounds. }
  split.
  { intros Hd. unfold ols_slope. now rewrite Hlen, Hd. }
  split.
  { intros Hlt. apply ols_slope_short. lia. }
  split.
  { intros Hm. unfold months. now rewrite Hm. }
  split.
  - intros Hy. assert (n = 4%nat) as -> by (rewrite <- Hlen, Hy; reflexivity).
    rewrite Hy. split; [reflexivity|]. split; [reflexivity|].
    intros Hm. destruct months as [|m']; [lia|]. reflexivity.
  - intros Hy. assert (n = 3%nat) as -> by (rewrite <- Hlen, Hy; reflexivity).
    rewrite Hy. split; [reflexivity|]. split; [reflexivity|]. split; [reflexivity|].
    intros Hm. destruct months as [|m']; [lia|]. reflexivity.
Qed.

Lemma forecast_is_least_squares_witness :
  exists fc,
    forecast Date_parse_iso request_y cache_curved
    = (Ret (json_ok (Forecast (Some "y") 1.5 (decimal false 8333 4) fc)), cache_curved)
    /\ length fc = 3%nat
    /\ fc !! 0%nat = Some {| monthIndex := 3; predicted := decimal false 533 2 |}.
Proof.
  edestruct (forecast_is_least_squares Date_parse_iso cache_curved request_y "f1"
               rows_curved) as (slope & intercept & fc & Hrun & _ & _ & Hlen & _ & _ & _ & _ & _ & Hex).
  - reflexivity.
  - reflexivity.
  - reflexivity.
  - vm_compute. reflexivity.
  - reflexivity.
  - cbn. left. reflexivity.
  - destruct (Hex eq_refl) as (_ & Hs & Hi & H0).
    exists fc. rewrite Hs, Hi in Hrun. split; [exact Hrun|].
    split; [exact Hlen|]. apply H0. cbn. lia.
Defined.

(** ** 16. The moving average *)

Lemma nth_slice {A} (d : A) (l : list A) lo hi k :
  (k < hi - lo)%nat -> nth k (slice lo hi l) d = nth (lo + k) l d.
Proof.
  intros Hk. unfold slice. rewrite List.nth_firstn.
  assert ((k <? hi - lo)%nat = true) as -> by (apply Nat.ltb_lt; lia).
  apply List.nth_skipn.
Qed.

Lemma length_slice {A} (l : list A) lo hi :
  (hi <= length l)%nat -> length (slice lo hi l) = (hi - lo)%nat.
Proof.
  intros H. unfold slice. rewrite List.length_firstn, List.length_skipn. lia.
Qed.

Lemma nth_map_seq {B} (f : nat -> B) (d : B) lo n k :
  (k < n)%nat -> nth k (map f (seq lo n)) d = f (lo + k)%nat.
Proof.
  intros Hk. rewrite (List.nth_indep _ d (f 0%nat))
    by (rewrite List.length_map, List.length_seq; exact Hk).
  rewrite (List.map_nth f (seq lo n) 0%nat k), List.seq_nth by exact Hk.
  reflexivity.
Qed.

Lemma slice_values_between (l : list number) lo hi :
  (hi < length l)%nat ->
  slice lo (hi + 1) l = values_between l lo hi.
Proof.
  intros Hhi. unfold values_between.
  apply List.nth_ext with (d := 0%float) (d' := 0%float).
  - rewrite length_slice, List.length_map, List.length_seq by lia. lia.
  - intros k. rewrite length_slice by lia. intros Hk.
    rewrite nth_slice by exact Hk.
    rewrite nth_map_seq by lia. reflexivity.
Qed.

Lemma fold_res_push {A B C} (h : A -> res B) (hv : A -> B) (g : A -> B -> C) l :
  (forall i, In i l -> h i = Ret (hv i)) ->
  forall acc,
    fold_res (fun mov i => d ← h i; Ret (mov ++ [g i d])) l acc
    = Ret (acc ++ map (fun i => g i (hv i)) l).
Proof.
  induction l as [|i l IH]; intros Hh acc; cbn [fold_res map].
  - now rewrite List.app_nil_r.
  - rewrite (Hh i) by now left. cbn [mbind res_bind].
    rewrite IH by (intros; apply Hh; now right).
    now rewrite <- List.app_assoc.
Qed.

Lemma date_of_parsed Date_parse rows nz x :
  normalizeSalesData Date_parse rows = Ret (Some nz) ->
  In x (parsed nz) ->
  date_of (Some x) = Ret (row_time x).
Proof.
  intros (r0 & rest & -> & Hn & ->)%normalize_inv. cbn [parsed].
  intros (r & <- & [_ Hr]%List.filter_In)%List.in_map_iff.
  unfold date_of, row_time. rewrite normalize_row_date by assumption.
  unfold date_parses in Hr. apply bool_decide_eq_true in Hr as [t Ht].
  now rewrite Ht.
Qed.

Lemma series_value_clean (x : obj value) c :
  Prim2SF (series_value x c) <> S754_zero true.
Proof.
  unfold series_value. destruct (own x c) as [[t|v]|]; try discriminate.
  apply or_zero_clean.
Qed.

Lemma mean_singleton (v : number) :
  Prim2SF v <> S754_zero true -> mean [v] = v.
Proof.
  intros Hv. unfold mean, sum. cbn [fold_left length].
  change (of_nat 1) with 1%float.
  now rewrite add_zero_l, div_one.
Qed.

(** What the moving-average handler answers when the normalizer returns and
    the product is a series column. *)
Lemma moving_average_run Date_parse req σ nz p :
  normalizeSalesData Date_parse (cached_rows σ req) = Ret (Some nz) ->
  product req = Some p -> In p (seriesCols nz) ->
  moving_average Date_parse req σ
  = (Ret (json_ok (MovingAverage (Some p) (of_Z (default 3 (window req)))
                     (map (fun i =>
                        {| ma_index := i;
                           ma_date := row_time (nth i (parsed nz) []);
                           ma := mean (values_between (series nz p)
                                         (window_start (default 3 (window req)) i) i) |})
                        (seq 0 (length (parsed nz)))))),
     σ).
Proof.
  intros Hn Hp Hin. unfold moving_average, cached_rows in *.
  unfold mbind at 1 2, M_bind, Map_get, lift, mret, M_ret. cbv zeta.
  rewrite Hn, Hp. apply includes_In in Hin. rewrite Hin. cbn [negb default].
  unfold id. fold (series nz p).
  assert (Hlen : length (series nz p) = length (parsed nz))
    by (unfold series; apply List.length_map).
  rewrite Hlen.
  rewrite (fold_res_push (fun i => date_of (parsed nz !! i))
             (fun i => row_time (nth i (parsed nz) []))
             (fun i d =>
                let sl := slice (window_start (default 3 (window req)) i) (i + 1)
                            (series nz p) in
                {| ma_index := i; ma_date := d;
                   ma := (sum sl / of_nat (length sl))%float |})).
  - cbn [app]. unfold mbind, M_bind. do 4 f_equal.
    apply List.map_ext_in. intros i Hi%List.in_seq.
    rewrite slice_values_between by lia. reflexivity.
  - intros i Hi%List.in_seq.
    destruct (lookup_lt_is_Some_2 (parsed nz) i ltac:(lia)) as [x Hx].
    rewrite Hx. rewrite (nth_lookup_Some _ _ _ _ Hx).
    eapply date_of_parsed; [exact Hn|].
    apply list_elem_of_In. eapply list_elem_of_lookup_2. exact Hx.
Qed.

(** C3. For every cached dataset of parser rows on which the normalizer
    returns, every known series name and every window size of at least 1
    (default 3), the
    moving-average handler answers with one entry per normalized row; the
    entry at row index i holds the arithmetic mean of the series values at
    the indices max(0, i-window+1) .. i, a window of min(window, i+1) values;
    with window = 1 the averages are the series values themselves. *)
Theorem moving_average_is_trailing_mean Date_parse (σ : store) (req : request)
  f rows nz p :
  fileId req = Some f ->
  σ !! f = Some rows ->
  wf_rows rows = true ->
  normalizeSalesData Date_parse (Some rows) = Ret (Some nz) ->
  product req = Some p ->
  In p (seriesCols nz) ->
  1 <= default 3 (window req) ->
  let w := default 3 (window req) in
  let values := series nz p in
  exists mov,
    moving_average Date_parse req σ
    = (Ret (json_ok (MovingAverage (Some p) (of_Z w) mov)), σ)
    /\ length mov = length (parsed nz)
    /\ (window req = None -> w = 3)
    /\ forall i, (i < length (parsed nz))%nat ->
         let lo := window_start w i in
         exists e,
           mov !! i = Some e
           /\ ma_index e = i
           /\ parsed nz !! i ≫= (fun x => own x "date") = Some (VDate (Some (ma_date e)))
           /\ ma e = mean (values_between values lo i)
           /\ Z.of_nat lo = Z.max 0 (Z.of_nat i - w + 1)
           /\ Z.of_nat (length (values_between values lo i)) = Z.min w (Z.of_nat i + 1)
           /\ (w = 1 -> ma e = nth i values 0%float).
Proof.
  intros Hf Hσ _ Hn Hp Hin Hw w values.
  assert (Hc : cached_rows σ req = Some rows) by (unfold cached_rows; now rewrite Hf).
  rewrite <- Hc in Hn.
  eexists. split; [apply (moving_average_run Date_parse req σ nz p Hn Hp Hin)|].
  fold w. fold values.
  split; [now rewrite List.length_map, List.length_seq|].
  split; [intros Hnone; unfold w; now rewrite Hnone|].
  intros i Hi lo. eexists. split.
  { rewrite list_lookup_fmap, lookup_seq_lt by exact Hi. reflexivity. }
  cbn [ma_index ma_date ma]. split; [reflexivity|].
  assert (Hlo : Z.of_nat lo = Z.max 0 (Z.of_nat i - w + 1)) by (unfold lo, window_start; lia).
  split.
  { destruct (lookup_lt_is_Some_2 (parsed nz) i Hi) as [x Hx].
    rewrite Hx, (nth_lookup_Some _ _ _ _ Hx). cbn [mbind option_bind].
    assert (Hin' : In x (parsed nz))
      by (apply list_elem_of_In; eapply list_elem_of_lookup_2; exact Hx).
    pose proof (date_of_parsed Date_parse _ nz x Hn Hin') as Hd.
    unfold date_of, row_time in *.
    destruct (own x "date") as [[[t|]|v]|]; try discriminate. reflexivity. }
  split; [reflexivity|]. split; [exact Hlo|].
  split.
  { unfold values_between. rewrite List.length_map, List.length_seq. lia. }
  intros Hw1. change (0 + i)%nat with i. fold lo.
  replace lo with i by lia.
  unfold values_between. replace (S i - i)%nat with 1%nat by lia.
  cbn [seq map]. apply mean_singleton.
  unfold values, series.
  rewrite (List.nth_indep _ 0%float (series_value [] p))
    by (rewrite List.length_map; exact Hi).
  rewrite (List.map_nth (fun r => series_value r p)). apply series_value_clean.
Qed.

Lemma moving_average_is_trailing_mean_witness :
  exists mov,
    moving_average Date_parse_iso request_y cache_linear
    = (Ret (json_ok (MovingAverage (Some "y") 3 mov)), cache_linear)
    /\ length mov = 4%nat
    /\ (ma <$> mov !! 3%nat) = Some 30%float.
Proof.
  edestruct (moving_average_is_trailing_mean Date_parse_iso cache_linear request_y "f1"
               rows_linear) as (mov & Hrun & Hlen & _ & Hi).
  - reflexivity.
  - reflexivity.
  - reflexivity.
  - vm_compute. reflexivity.
  - reflexivity.
  - cbn. left. reflexivity.
  - cbn. lia.
  - exists mov. split; [exact Hrun|]. split; [exact Hlen|].
    destruct (Hi 3%nat ltac:(cbn; lia)) as (e & He & _ & _ & Hma & _).
    rewrite He. cbn [fmap option_fmap option_map].
    rewrite Hma. reflexivity.
Defined.

(** ** 17. The top seller *)

Lemma leb_rank (a b : float) :
  is_nan a = false -> is_nan b = false -> (a <=? b)%float = (rank a <=? rank b).
Proof.
  intros Ha%nan_iff Hb%nan_iff.
  rewrite FloatAxioms.leb_spec. unfold SFleb, rank.
  rewrite SFcompare_ord by (auto using Prim2SF_valid).
  destruct (Z.compare_spec (ord (Prim2SF a)) (ord (Prim2SF b)));
    symmetry; first [apply Z.leb_le; lia | apply Z.leb_gt; lia].
Qed.

Lemma fold_left_add_map {A} (f : A -> number) l : forall a,
  fold_left (fun acc r => (acc + f r)%float) l a = fold_left PrimFloat.add (map f l) a.
Proof. induction l as [|x l IH]; intros a; cbn [fold_left map]; [reflexivity|apply IH]. Qed.

Lemma totals_loop cols (rs : list (obj value)) :
  List.NoDup cols ->
  forall (t : obj number) (a : string -> number),
    map fst t = cols ->
    (forall c, In c cols -> own t c = Some (a c)) ->
    let t' :=
      fold_left (fun t r =>
        fold_left (fun t c =>
          put c (match own t c with Some x => x | None => NaN end
                 + series_value r c)%float t) cols t) rs t in
    map fst t' = cols
    /\ forall c, In c cols ->
         own t' c = Some (fold_left (fun acc r => (acc + series_value r c)%float) rs (a c)).
Proof.
  intros Hd. induction rs as [|r rs IH]; intros t a Hk Ho; cbn [fold_left].
  - split; assumption.
  - apply IH.
    + rewrite (keys_fold_update
        (fun t c => (match own t c with Some x => x | None => NaN end
                     + series_value r c)%float)); [exact Hk|].
      intros c Hc. now rewrite Hk.
    + intros c Hc.
      rewrite (own_fold_put
        (fun old c => (match old with Some x => x | None => NaN end
                       + series_value r c)%float)) by assumption.
      now rewrite Ho.
Qed.

Lemma column_totals_spec nz :
  List.NoDup (seriesCols nz) ->
  map fst (column_totals nz) = seriesCols nz
  /\ forall c, In c (seriesCols nz) -> own (column_totals nz) c = Some (column_sum nz c).
Proof.
  intros Hd. unfold column_totals.
  destruct (totals_loop (seriesCols nz) (parsed nz) Hd
              (fold_left (fun t col => put col 0%float t) (seriesCols nz) [])
              (fun _ => 0%float)) as [Hk Ho].
  - now rewrite (keys_fold_put (fun _ _ => 0%float)) by (auto; intros ? ? []).
  - intros c Hc. rewrite (own_fold_assign (fun _ => 0%float)).
    now apply existsb_eqb_In in Hc as ->.
  - split; [exact Hk|]. intros c Hc. rewrite (Ho c Hc).
    unfold column_sum, series, sum. now rewrite fold_left_add_map.
Qed.

Lemma Object_entries_ordered {V} (o : obj V) (g : string -> V) :
  key_ordered (map fst o) ->
  (forall c, In c (map fst o) -> own o c = Some (g c)) ->
  Object_entries o = map (fun c => (c, g c)) (map fst o).
Proof.
  intros Hko Ho. unfold Object_entries, Object_keys.
  rewrite (key_ordered_fixed _ Hko).
  apply omap_total. intros c Hc. now rewrite Ho.
Qed.

(** The first entry of the sorted array is found by one pass from the right. *)
Lemma head_sort {A} (before : A -> A -> bool) x l :
  head (sort before (x :: l))
  = match head (sort before l) with
    | None => Some x
    | Some y => if before y x then Some y else Some x
    end.
Proof.
  cbn [sort]. destruct (sort before l) as [|y s]; cbn [insert_sorted head]; [reflexivity|].
  now destruct (before y x).
Qed.

(** With a comparator that follows a ranking, the first entry of the sorted
    array is the first entry of the highest rank. *)
Lemma head_sort_first_max {A} (before : A -> A -> bool) (rk : A -> Z) l :
  (forall x y, In x l -> In y l -> before y x = (rk x <? rk y)) ->
  l <> [] ->
  exists h l1 l2,
    head (sort before l) = Some h
    /\ l = l1 ++ h :: l2
    /\ (forall e, In e l1 -> rk e < rk h)
    /\ (forall e, In e l2 -> rk e <= rk h).
Proof.
  induction l as [|x l IH]; intros Hb Hne; [congruence|].
  rewrite head_sort. destruct l as [|x' l'].
  - exists x, [], []. cbn. repeat split; intros ? [].
  - destruct IH as (h & l1 & l2 & -> & Hl & H1 & H2); [|discriminate|].
    { intros a b Ha Hb'. apply Hb; now right. }
    assert (Hh : In h (x' :: l')) by (rewrite Hl, List.in_app_iff; right; now left).
    rewrite (Hb x h) by (try (now left); now right).
    destruct (Z.ltb_spec (rk x) (rk h)) as [Hlt|Hge].
    + exists h, (x :: l1), l2. rewrite Hl. repeat split; [|exact H2].
      intros e [<-|He]; auto.
    + exists x, [], (x' :: l'). repeat split; [intros ? []|].
      intros e He. rewrite Hl in He. apply List.in_app_iff in He as [He|[<-|He]].
      * specialize (H1 e He). lia.
      * lia.
      * specialize (H2 e He). lia.
Qed.

Lemma ranking_spec rows Date_parse nz :
  wf_rows rows = true ->
  normalizeSalesData Date_parse (Some rows) = Ret (Some nz) ->
  ranking nz
  = sort by_total_desc (map (fun c => (c, column_sum nz c)) (seriesCols nz)).
Proof.
  intros Hwf Hn.
  pose proof Hn as (r0 & rest & [= ->] & _ & Hnz)%normalize_inv.
  assert (Hcols : seriesCols nz = inferred_seriesCols r0) by now subst nz.
  cbn [wf_rows forallb] in Hwf. apply andb_true_iff in Hwf as [Hwf _].
  apply wf_row_keys in Hwf as [Hd _].
  assert (Hd' : List.NoDup (seriesCols nz)) by (rewrite Hcols; now apply NoDup_tail).
  destruct (column_totals_spec nz Hd') as [Hk Ho].
  unfold ranking. f_equal.
  rewrite (Object_entries_ordered _ (column_sum nz)).
  - now rewrite Hk.
  - rewrite Hk, Hcols. apply key_ordered_tail, key_ordered_property_order.
  - intros c Hc. apply Ho. now rewrite <- Hk.
Qed.

Lemma normalize_example Date_parse :
  labels_parse Date_parse ->
  normalizeSalesData Date_parse (Some rows_example)
  = Ret (Some {| dateCol := Some "Month"; seriesCols := ["A"; "B"];
                 parsed := map (normalize_row Date_parse (Some "Month") ["A"; "B"])
                             rows_example |}).
Proof.
  intros ([t1 H1] & [t2 H2] & [t3 H3]).
  unfold rows_example.
  rewrite normalize_returns by (vm_compute; intros [H|[H|[]]]; discriminate H).
  change (inferred_dateCol [("Month", "Jan"); ("A", "10"); ("B", "5")])
    with (Some "Month").
  change (inferred_seriesCols [("Month", "Jan"); ("A", "10"); ("B", "5")])
    with ["A"; "B"].
  do 3 f_equal. cbn [List.filter]. unfold date_parses, new_Date.
  change (get_key [("Month", "Jan"); ("A", "10"); ("B", "5")] (Some "Month"))
    with (Str "Jan").
  change (get_key [("Month", "Feb"); ("A", "20"); ("B", "15")] (Some "Month"))
    with (Str "Feb").
  change (get_key [("Month", "Mar"); ("A", "30"); ("B", "10")] (Some "Month"))
    with (Str "Mar").
  cbv iota beta. rewrite H1, H2, H3. reflexivity.
Qed.

Lemma top_seller_example Date_parse req σ :
  labels_parse Date_parse ->
  cached_rows σ req = Some rows_example ->
  top_seller Date_parse req σ = (Ret (json_ok (TopSeller "A" 60)), σ).
Proof.
  intros HL Hc. rewrite top_seller_run, Hc, (normalize_example _ HL).
  reflexivity.
Qed.

(** With a parser that rejects the labels every row is dropped and the answer
    is A with total 0. *)
Lemma top_seller_example_strict_parser :
  top_seller Date_parse_iso request_f1 cache_example
  = (Ret (json_ok (TopSeller "A" 0)), cache_example).
Proof. reflexivity. Qed.

(** C4 as amended. For every cached dataset of parser rows on which the
    normalizer returns, with at least one series column and no column sum
    that is [NaN], the top-seller handler answers with a series column and
    its sum over all normalized rows such that every earlier column has a
    strictly smaller sum and every later column has a sum that is not
    larger: the first column of maximal sum. On the example dataset it
    answers A with total 60 whenever the date parser accepts the labels
    Jan, Feb and Mar. *)
Theorem top_seller_first_maximum Date_parse (σ : store) (req : request) f rows nz :
  fileId req = Some f ->
  σ !! f = Some rows ->
  wf_rows rows = true ->
  normalizeSalesData Date_parse (Some rows) = Ret (Some nz) ->
  seriesCols nz <> [] ->
  (forall c, In c (seriesCols nz) -> is_nan (column_sum nz c) = false) ->
  exists c earlier later,
    top_seller Date_parse req σ = (Ret (json_ok (TopSeller c (column_sum nz c))), σ)
    /\ seriesCols nz = earlier ++ c :: later
    /\ (forall c', In c' earlier -> (column_sum nz c' <? column_sum nz c)%float = true)
    /\ (forall c', In c' later -> (column_sum nz c' <=? column_sum nz c)%float = true)
    /\ (rows = rows_example -> labels_parse Date_parse ->
          c = "A" /\ column_sum nz c = 60%float).
Proof.
  intros Hf Hσ Hwf Hn Hne Hnan.
  assert (Hc : cached_rows σ req = Some rows) by (unfold cached_rows; now rewrite Hf).
  rewrite top_seller_run, Hc, Hn, (ranking_spec rows Date_parse nz Hwf Hn).
  set (entries := map (fun c => (c, column_sum nz c)) (seriesCols nz)).
  destruct (head_sort_first_max by_total_desc (fun e => rank (snd e)) entries)
    as (h & l1 & l2 & Hh & Hl & H1 & H2).
  { intros x y Hx Hy. unfold by_total_desc.
    apply List.in_map_iff in Hx as (cx & <- & Hx), Hy as (cy & <- & Hy). cbn [snd].
    rewrite sub_negative, ltb_rank by auto. reflexivity. }
  { unfold entries. destruct (seriesCols nz); [congruence|discriminate]. }
  destruct (sort by_total_desc entries) as [|top s] eqn:Hs; [discriminate|].
  injection Hh as ->.
  assert (Hmap : map fst entries = seriesCols nz).
  { unfold entries. rewrite List.map_map. cbn [fst]. apply List.map_id. }
  assert (Hsnd : forall e, In e entries -> In (fst e) (seriesCols nz)
                                         /\ snd e = column_sum nz (fst e)).
  { intros e (c & <- & Hin)%List.in_map_iff. cbn. auto. }
  assert (Hhin : In h entries) by (rewrite Hl, List.in_app_iff; right; now left).
  destruct (Hsnd h Hhin) as [Hhc Hhs].
  exists (fst h), (map fst l1), (map fst l2).
  rewrite <- Hhs. split; [reflexivity|].
  split; [now rewrite <- Hmap, Hl, List.map_app|].
  split; [|split].
  - intros c' (e & <- & He)%List.in_map_iff.
    assert (Hein : In e entries) by (rewrite Hl, List.in_app_iff; now left).
    destruct (Hsnd e Hein) as [Hec Hes]. rewrite <- Hes.
    rewrite ltb_rank by (rewrite ?Hes, ?Hhs; auto).
    apply Z.ltb_lt. now apply H1.
  - intros c' (e & <- & He)%List.in_map_iff.
    assert (Hein : In e entries) by (rewrite Hl, List.in_app_iff; right; now right).
    destruct (Hsnd e Hein) as [Hec Hes]. rewrite <- Hes.
    rewrite leb_rank by (rewrite ?Hes, ?Hhs; auto).
    apply Z.leb_le. now apply H2.
  - intros -> HL.
    pose proof (top_seller_example Date_parse req σ HL Hc) as Hex.
    rewrite top_seller_run, Hc, Hn, (ranking_spec rows_example Date_parse nz Hwf Hn) in Hex.
    fold entries in Hex. rewrite Hs in Hex.
    injection Hex as -> ->. split; reflexivity.
Qed.

Lemma top_seller_first_maximum_witness :
  top_seller Date_parse_named request_f1 cache_example
  = (Ret (json_ok (TopSeller "A" 60)), cache_example).
Proof.
  edestruct (top_seller_first_maximum Date_parse_named cache_example request_f1 "f1"
               rows_example) as (c & earlier & later & Hrun & _ & _ & _ & Hex).
  - reflexivity.
  - reflexivity.
  - reflexivity.
  - vm_compute. reflexivity.
  - discriminate.
  - intros c [<-|[<-|[]]]; reflexivity.
  - destruct Hex as [-> Hsum]; [reflexivity| |].
    + repeat split; eexists; reflexivity.
    + rewrite Hsum in Hrun. exact Hrun.
Defined.

(** C4, counterexample. Column A holds the cells Infinity and -Infinity,
    column B the cells 2 and 3. The sum of B is 5, the sum of A is [NaN]; the
    handler answers A with total [NaN], and 5 is not below or equal to it. *)
Lemma top_seller_with_nan_total :
  exists nz,
    normalizeSalesData Date_parse_iso (Some rows_with_infinities) = Ret (Some nz)
    /\ seriesCols nz = ["A"; "B"]
    /\ column_sum nz "B" = 5%float
    /\ top_seller Date_parse_iso request_f1 cache_with_infinities
       = (Ret (json_ok (TopSeller "A" (column_sum nz "A"))), cache_with_infinities)
    /\ is_nan (column_sum nz "A") = true
    /\ (column_sum nz "B" <=? column_sum nz "A")%float = false.
Proof. eexists. repeat split. Qed.

(** ** 18. The correlation matrix *)

Lemma imap_nth_combine {A B} (g : A -> A -> B) (d : A) (x : list A) : forall y,
  length x = length y ->
  imap (fun i xi => g xi (nth i y d)) x = map (fun p => g (fst p) (snd p)) (combine x y).
Proof.
  induction x as [|x0 x IH]; intros [|y0 y] Hlen; try discriminate; [reflexivity|].
  cbn [imap combine map fst snd nth]. f_equal.
  rewrite <- IH by (cbn in Hlen; lia). apply imap_ext. reflexivity.
Qed.

Lemma combine_swap {A} (x : list A) : forall y : list A,
  combine y x = map (fun p : A * A => (snd p, fst p)) (combine x y).
Proof.
  induction x as [|x0 x IH]; intros [|y0 y]; cbn [combine map fst snd]; try reflexivity.
  now rewrite IH.
Qed.

Lemma combine_diag {A} (x : list A) : combine x x = map (fun a => (a, a)) x.
Proof. induction x as [|a x IH]; cbn [combine map]; [reflexivity|now rewrite IH]. Qed.

Lemma pearson_refines (x y : list number) :
  length x = length y -> pearson x y = pearson_coefficient x y.
Proof.
  intros Hlen. unfold pearson, pearson_coefficient, pearson_denominator,
    deviations_product, centred_squares, mean.
  rewrite (imap_nth_combine
             (fun xi yi => ((xi - sum x / of_nat (length x))
                            * (yi - sum y / of_nat (length x)))%float) NaN x y Hlen).
  now rewrite <- Hlen.
Qed.

Lemma pearson_coefficient_comm (x y : list number) :
  pearson_coefficient x y = pearson_coefficient y x.
Proof.
  unfold pearson_coefficient, pearson_denominator, deviations_product.
  rewrite (mul_comm (sqrt (centred_squares y))).
  rewrite (combine_swap x y), List.map_map. cbn [fst snd].
  replace (map (fun p => ((snd p - mean y) * (fst p - mean x))%float) (combine x y))
    with (map (fun p => ((fst p - mean x) * (snd p - mean y))%float) (combine x y));
    [reflexivity|].
  apply List.map_ext. intros p. apply mul_comm.
Qed.

Lemma pearson_coefficient_self (x : list number) :
  pearson_coefficient x x = self_coefficient x.
Proof.
  unfold pearson_coefficient, self_coefficient, pearson_denominator, deviations_product.
  rewrite combine_diag, List.map_map. reflexivity.
Qed.

(** *** The two loops that fill the matrix *)

Section Matrix.

Variable cols : list string.
Variable column : string -> res (list number).
Variable col : string -> list number.
Hypothesis column_ok : forall c, In c cols -> column c = Ret (col c).

Lemma fill_cell_step ci cj m inner :
  In ci cols -> In cj cols -> own m ci = Some inner ->
  fill_cell column ci m cj = Ret (put ci (put cj (entry col ci cj) inner) m).
Proof.
  intros Hci Hcj Hown. unfold fill_cell, entry.
  rewrite (column_ok ci Hci), (column_ok cj Hcj), Hown. reflexivity.
Qed.

Lemma inner_loop ci : In ci cols -> forall js m inner0,
  (forall j, In j js -> In j cols) ->
  own m ci = Some inner0 ->
  exists m',
    fold_res (fill_cell column ci) js m = Ret m'
    /\ own m' ci = Some (fold_left (fun inner cj => put cj (entry col ci cj) inner) js inner0)
    /\ forall k, k <> ci -> own m' k = own m k.
Proof.
  intros Hci. induction js as [|cj js IH]; intros m inner0 Hjs Hown; cbn [fold_res fold_left].
  - exists m. auto.
  - rewrite (fill_cell_step ci cj m inner0 Hci (Hjs cj (or_introl eq_refl)) Hown).
    destruct (IH (put ci (put cj (entry col ci cj) inner0) m)
                 (put cj (entry col ci cj) inner0)) as (m' & Hrun & Hrow & Hother).
    + intros j Hj. apply Hjs. now right.
    + apply own_put_eq.
    + exists m'. split; [exact Hrun|]. split; [exact Hrow|].
      intros k Hk. rewrite Hother by exact Hk. apply own_put_ne. congruence.
Qed.

Lemma outer_loop : forall cis m,
  List.NoDup cis -> (forall i, In i cis -> In i cols) ->
  exists m',
    fold_res (fun matrix ci => fold_res (fill_cell column ci) cols (put ci [] matrix)) cis m
    = Ret m'
    /\ (forall a, In a cis -> own m' a = Some (matrix_row cols col a))
    /\ (forall k, ~ In k cis -> own m' k = own m k).
Proof.
  induction cis as [|ci cis IH]; intros m Hd His; cbn [fold_res].
  - exists m. split; [reflexivity|]. split; [intros ? []|auto].
  - inversion Hd as [|? ? Hci Hd']; subst.
    destruct (inner_loop ci (His ci (or_introl eq_refl)) cols (put ci [] m) [])
      as (m1 & Hrun1 & Hrow1 & Hother1); [auto|apply own_put_eq|].
    rewrite Hrun1. unfold mbind at 1, res_bind at 1. cbv beta iota.
    destruct (IH m1 Hd') as (m' & Hrun & Hrows & Hother).
    { intros i Hi. apply His. now right. }
    exists m'. split; [exact Hrun|]. split.
    + intros a [<-|Ha]; [|now apply Hrows].
      rewrite Hother by exact Hci. exact Hrow1.
    + intros k Hk. rewrite Hother by (intros H; apply Hk; now right).
      rewrite Hother1 by (intros ->; apply Hk; now left).
      apply own_put_ne. intros ->. apply Hk. now left.
Qed.

Lemma matrix_row_cell a b : In b cols -> own (matrix_row cols col a) b = Some (entry col a b).
Proof.
  intros Hb. unfold matrix_row. rewrite (own_fold_assign (entry col a)).
  now apply existsb_eqb_In in Hb as ->.
Qed.

End Matrix.

(** What the correlation handler answers when the normalizer returns. *)
Lemma correlation_run Date_parse req σ nz :
  List.NoDup (seriesCols nz) ->
  normalizeSalesData Date_parse (cached_rows σ req) = Ret (Some nz) ->
  exists m,
    correlation Date_parse req σ = (Ret (json_ok (Correlation m)), σ)
    /\ forall a b, In a (seriesCols nz) -> In b (seriesCols nz) ->
         cell m a b = Some (toFixed_Number 4 (pearson (series nz a) (series nz b))).
Proof.
  intros Hd Hn.
  pose (values := fold_left (fun vs c => put c (map (fun r => series_value r c) (parsed nz)) vs)
                    (seriesCols nz) ([] : obj (list number))).
  pose (column := fun c => match own values c with
                           | Some x => Ret x
                           | None => Throw (TypeError "Cannot read properties of undefined (reading 'length')")
                           end).
  assert (Hshape :
    correlation Date_parse req σ
    = match fold_res (fun matrix ci =>
                fold_res (fill_cell column ci) (seriesCols nz) (put ci [] matrix))
              (seriesCols nz) [] with
      | Ret m => (Ret (json_ok (Correlation m)), σ)
      | Throw e => (Throw e, σ)
      end).
  { unfold correlation, cached_rows in *.
    unfold mbind at 1 2, M_bind, Map_get, lift. rewrite Hn. reflexivity. }
  assert (Hcol : forall c, In c (seriesCols nz) -> column c = Ret (series nz c)).
  { intros c Hc. unfold column, values.
    rewrite (own_fold_assign (fun c => map (fun r => series_value r c) (parsed nz))).
    now apply existsb_eqb_In in Hc as ->. }
  destruct (outer_loop (seriesCols nz) column (series nz) Hcol (seriesCols nz) [] Hd)
    as (m & Hrun & Hrows & _); [auto|].
  exists m. split.
  - rewrite Hshape, Hrun. reflexivity.
  - intros a b Ha Hb. unfold cell. pose proof (Hrows a Ha) as Hr.
    unfold obj in *. rewrite Hr.
    apply (matrix_row_cell (seriesCols nz) (series nz) a b Hb).
Qed.

Lemma length_series nz c : length (series nz c) = length (parsed nz).
Proof. unfold series. apply List.length_map. Qed.

(** C2 as amended. For every cached dataset of parser rows on which the
    normalizer returns, the correlation handler answers with a matrix that
    holds, for every ordered pair (a, b) of series columns, the Pearson
    coefficient Σ(x-x̄)(y-ȳ) / (√Σ(x-x̄)² · √Σ(y-ȳ)²) of the two series,
    evaluated in binary64 and rounded to 4 decimals, and 0 when the
    denominator is zero. The matrix is symmetric. A diagonal entry is the
    rounded quotient s / (√s · √s) for s = Σ(x-x̄)²: it is 1 whenever s is
    positive and finite, over the whole range of binary64 from 2^-1074 to the
    largest number; it is 0 when s is zero, and [NaN] when s has overflowed to
    [Infinity] or is [NaN]. *)
Theorem correlation_matrix Date_parse (σ : store) (req : request) f rows nz :
  fileId req = Some f ->
  σ !! f = Some rows ->
  wf_rows rows = true ->
  normalizeSalesData Date_parse (Some rows) = Ret (Some nz) ->
  exists m,
    correlation Date_parse req σ = (Ret (json_ok (Correlation m)), σ)
    /\ forall a b, In a (seriesCols nz) -> In b (seriesCols nz) ->
         let x := series nz a in
         let y := series nz b in
         cell m a b = Some (toFixed_Number 4 (pearson_coefficient x y))
         /\ (strict_eq (pearson_denominator x y) 0 = true -> cell m a b = Some 0%float)
         /\ cell m a b = cell m b a
         /\ cell m a a = Some (toFixed_Number 4 (self_coefficient x))
         /\ ((0 <? centred_squares x)%float = true ->
             (centred_squares x <? infinity)%float = true ->
             cell m a a = Some 1%float)
         /\ (strict_eq (centred_squares x) 0 = true -> cell m a a = Some 0%float)
         /\ (centred_squares x = infinity \/ is_nan (centred_squares x) = true ->
             cell m a a = Some NaN).
Proof.
  intros Hf Hσ Hwf Hn.
  assert (Hc : cached_rows σ req = Some rows) by (unfold cached_rows; now rewrite Hf).
  pose proof Hn as (r0 & rest & [= ->] & _ & Hnz)%normalize_inv.
  assert (Hd : List.NoDup (seriesCols nz)).
  { subst nz. cbn [seriesCols]. cbn [wf_rows forallb] in Hwf.
    apply andb_true_iff in Hwf as [Hwf _]. apply NoDup_tail, wf_row_keys, Hwf. }
  rewrite <- Hc in Hn.
  destruct (correlation_run Date_parse req σ nz Hd Hn) as (m & Hrun & Hcells).
  exists m. split; [exact Hrun|]. intros a b Ha Hb x y.
  assert (Hab : cell m a b = Some (toFixed_Number 4 (pearson_coefficient x y))).
  { rewrite (Hcells a b Ha Hb), pearson_refines; [reflexivity|].
    now rewrite !length_series. }
  assert (Haa : cell m a a = Some (toFixed_Number 4 (self_coefficient x))).
  { rewrite (Hcells a a Ha Ha), pearson_refines by reflexivity.
    now rewrite pearson_coefficient_self. }
  split; [exact Hab|]. split; [|split; [|split; [|split; [|split]]]].
  - intros Hz. rewrite Hab. unfold pearson_coefficient. now rewrite Hz.
  - rewrite Hab, (Hcells b a Hb Ha), pearson_refines by now rewrite !length_series.
    now rewrite pearson_coefficient_comm.
  - exact Haa.
  - intros Hlo Hhi. rewrite Haa. f_equal.
    exact (self_quotient_one (centred_squares x) Hlo Hhi).
  - intros Hz. rewrite Haa. f_equal.
    exact (self_quotient_zero (centred_squares x) Hz).
  - intros Hs. rewrite Haa. f_equal.
    exact (self_quotient_not_finite (centred_squares x) Hs).
Qed.

Lemma correlation_matrix_witness :
  exists m,
    correlation Date_parse_iso request_f1 cache_dated
    = (Ret (json_ok (Correlation m)), cache_dated)
    /\ cell m "A" "B" = Some 0.5%float
    /\ cell m "B" "A" = Some 0.5%float
    /\ cell m "A" "A" = Some 1%float
    /\ cell m "T" "T" = Some 1%float.
Proof.
  edestruct (correlation_matrix Date_parse_iso cache_dated request_f1 "f1"
               rows_dated) as (m & Hrun & Hcells).
  - reflexivity.
  - reflexivity.
  - reflexivity.
  - vm_compute. reflexivity.
  - exists m. split; [exact Hrun|].
    destruct (Hcells "A" "B") as (Hab & _ & Hsym & _ & Haa & _);
      [cbn; auto|cbn; auto|].
    destruct (Hcells "T" "T") as (_ & _ & _ & _ & Htt & _);
      [cbn; auto|cbn; auto|].
    rewrite <- Hsym, Hab, (Haa eq_refl eq_refl), (Htt eq_refl eq_refl). repeat split.
Defined.

(** C2, counterexample. The series A holds two different finite values, so
    its variance is not zero, and the diagonal entry of the matrix is not 1.
    With 0 and 1e200 the squared deviations overflow, the denominator is
    [Infinity] and the entry is [NaN]; with 0 and 1e-200 they underflow, the
    denominator is zero and the entry is 0. *)
Lemma correlation_diagonal_not_one :
  (exists nz,
    normalizeSalesData Date_parse_iso (Some rows_with_huge_value) = Ret (Some nz)
    /\ series nz "A" = [0%float; StringToNumber "1e200"]
    /\ (0 <? StringToNumber "1e200")%float = true
    /\ is_finite (StringToNumber "1e200") = true
    /\ centred_squares (series nz "A") = infinity
    /\ strict_eq (pearson_denominator (series nz "A") (series nz "A")) 0 = false
    /\ correlation Date_parse_iso request_f1 cache_with_huge_value
       = (Ret (json_ok (Correlation [("A", [("A", NaN)])])), cache_with_huge_value)
    /\ cell [("A", [("A", NaN)])] "A" "A" <> Some 1%float)
  /\ (exists nz,
    normalizeSalesData Date_parse_iso (Some rows_with_tiny_value) = Ret (Some nz)
    /\ series nz "A" = [0%float; StringToNumber "1e-200"]
    /\ (0 <? StringToNumber "1e-200")%float = true
    /\ centred_squares (series nz "A") = 0%float
    /\ correlation Date_parse_iso request_f1 cache_with_tiny_value
       = (Ret (json_ok (Correlation [("A", [("A", 0%float)])])), cache_with_tiny_value)
    /\ cell [("A", [("A", 0%float)])] "A" "A" <> Some 1%float).
Proof.
  split.
  - eexists. do 7 (split; [reflexivity|]).
    vm_compute. intros H.
    assert (E : is_nan nan = is_nan 1%float) by (f_equal; congruence).
    discriminate E.
  - eexists. do 5 (split; [reflexivity|]).
    vm_compute. intros H.
    assert (E : is_zero 0 = is_zero 1%float) by (f_equal; congruence).
    discriminate E.
Qed.

(** ** 19. More on the normalizer, the upload and the analytics handlers *)

(** X1. What the normalizer does on every input: [null] for absent or empty
    rows; a [TypeError] when a column after the first is named ["date"];
    otherwise the columns of [Object.keys] on the first row and, in order,
    the rows whose date parses. *)
Theorem normalizer_outcome Date_parse (rows : option (list row)) :
  normalizeSalesData Date_parse rows
  = match rows with
    | None | Some [] => Ret None
    | Some ((r0 :: _) as rs) =>
        if existsb (String.eqb "date") (inferred_seriesCols r0)
        then Throw (TypeError "x.date.getTime is not a function")
        else Ret (Some {| dateCol := inferred_dateCol r0;
                          seriesCols := inferred_seriesCols r0;
                          parsed :=
                            map (normalize_row Date_parse (inferred_dateCol r0)
                                   (inferred_seriesCols r0))
                              (List.filter
                                 (date_parses Date_parse (inferred_dateCol r0)) rs) |})
    end.
Proof.
  destruct rows as [[|r0 rest]|]; try reflexivity.
  destruct (existsb (String.eqb "date") (inferred_seriesCols r0)) eqn:E.
  - apply normalize_throws, existsb_eqb_In, E.
  - apply normalize_returns, existsb_eqb_not_In, E.
Qed.

(** X2. On a cached dataset whose first row has a column named ["date"] after its
    first column, each of the four analytics handlers ends in the
    [TypeError] of the normalizer, whatever else the request asks for, and
    leaves the cache as it is. *)
Theorem handlers_throw_on_date_column Date_parse (σ : store) (req : request) f r0 rest :
  fileId req = Some f ->
  σ !! f = Some (r0 :: rest) ->
  In "date" (inferred_seriesCols r0) ->
  let crash := (@Throw response (TypeError "x.date.getTime is not a function"), σ) in
  top_seller Date_parse req σ = crash
  /\ moving_average Date_parse req σ = crash
  /\ correlation Date_parse req σ = crash
  /\ forecast Date_parse req σ = crash.
Proof.
  intros Hf Hσ Hin crash.
  pose proof (normalize_throws Date_parse r0 rest Hin) as Hn.
  unfold top_seller, moving_average, correlation, forecast.
  unfold mbind, M_bind, Map_get, lift. cbv zeta.
  rewrite Hf, Hσ, Hn. repeat split.
Qed.

Lemma handlers_throw_on_date_column_witness :
  fst (correlation Date_parse_iso request_units cache_with_date_series)
  = Throw (TypeError "x.date.getTime is not a function").
Proof.
  pose proof (handlers_throw_on_date_column Date_parse_iso cache_with_date_series
                request_units "f1" (hd [] rows_with_date_series) (tl rows_with_date_series)
                eq_refl ltac:(vm_compute; reflexivity)
                ltac:(vm_compute; left; reflexivity)) as (_ & _ & H & _).
  now rewrite H.
Defined.

Lemma property_order_plain ks :
  forallb (fun k => negb (is_index k)) ks = true -> property_order ks = ks.
Proof.
  intros H. rewrite List.forallb_forall in H. unfold property_order.
  rewrite (filter_none is_index), (filter_all (fun k => negb (is_index k))).
  - reflexivity.
  - apply List.Forall_forall. exact H.
  - apply List.Forall_forall. intros k Hk. apply negb_true_iff. now apply H.
Qed.

(** X4. When no header of the first row is a canonical array index, the
    normalizer takes the columns in the order of the CSV header: the first
    header is the date column and the others, in their order, are the series
    columns. For parser rows the series columns are distinct and the date
    column is none of them. *)
Theorem columns_follow_header Date_parse (r0 : row) (rest : list row) nz :
  wf_row r0 = true ->
  forallb (fun k => negb (is_index k)) (map fst r0) = true ->
  normalizeSalesData Date_parse (Some (r0 :: rest)) = Ret (Some nz) ->
  dateCol nz = head (map fst r0)
  /\ seriesCols nz = tail (map fst r0)
  /\ List.NoDup (seriesCols nz)
  /\ (forall d, dateCol nz = Some d -> ~ In d (seriesCols nz)).
Proof.
  intros Hwf Hplain (r0' & rest' & [= <- <-] & _ & ->)%normalize_inv.
  cbn [dateCol seriesCols]. unfold inferred_dateCol, inferred_seriesCols, Object_keys.
  rewrite (property_order_plain _ Hplain).
  assert (Hd : List.NoDup (map fst r0)).
  { unfold wf_row in Hwf. apply andb_true_iff in Hwf as [Hwf _].
    now apply distinct_NoDup. }
  split; [reflexivity|]. split; [reflexivity|]. split; [now apply NoDup_tail|].
  intros d Hhead. destruct (map fst r0) as [|k ks]; [discriminate|].
  injection Hhead as ->. cbn [tail]. now inversion Hd.
Qed.

Lemma columns_follow_header_witness :
  exists nz,
    normalizeSalesData Date_parse_named (Some rows_example) = Ret (Some nz)
    /\ dateCol nz = Some "Month" /\ seriesCols nz = ["A"; "B"].
Proof.
  eexists. split; [vm_compute; reflexivity|].
  pose proof (columns_follow_header Date_parse_named (hd [] rows_example)
                (tl rows_example) _ eq_refl eq_refl
                ltac:(vm_compute; reflexivity)) as (H1 & H2 & _).
  split; [exact H1|exact H2].
Defined.

Lemma add_nan_l (x : number) : (NaN + x)%float = NaN.
Proof.
  apply Prim2SF_inj. rewrite FloatAxioms.add_spec.
  change (Prim2SF NaN) with S754_nan. reflexivity.
Qed.

(** X5. With a window of 0 or less the moving-average handler does not reject
    the request: every window is empty and every average it returns is
    [NaN], one per normalized row. *)
Theorem moving_average_empty_window Date_parse (σ : store) (req : request)
  f rows nz p w :
  fileId req = Some f ->
  σ !! f = Some rows ->
  wf_rows rows = true ->
  normalizeSalesData Date_parse (Some rows) = Ret (Some nz) ->
  product req = Some p ->
  In p (seriesCols nz) ->
  window req = Some w ->
  w <= 0 ->
  exists mov,
    moving_average Date_parse req σ
    = (Ret (json_ok (MovingAverage (Some p) (of_Z w) mov)), σ)
    /\ length mov = length (parsed nz)
    /\ forall e, In e mov -> ma e = NaN.
Proof.
  intros Hf Hσ _ Hn Hp Hin Hw Hle.
  assert (Hc : cached_rows σ req = Some rows) by (unfold cached_rows; now rewrite Hf).
  rewrite <- Hc in Hn.
  eexists. split; [rewrite (moving_average_run Date_parse req σ nz p Hn Hp Hin), Hw; reflexivity|].
  split; [now rewrite List.length_map, List.length_seq|].
  intros e (i & <- & Hi)%List.in_map_iff. cbn [ma default].
  unfold values_between, window_start, id.
  replace (S i - Z.to_nat (Z.max 0 (Z.of_nat i - w + 1)))%nat with 0%nat by lia.
  reflexivity.
Qed.

Lemma moving_average_empty_window_witness :
  exists mov,
    moving_average Date_parse_iso
      {| fileId := Some "f1"; product := Some "y"; window := Some 0;
         monthsForecast := None |} cache_linear
    = (Ret (json_ok (MovingAverage (Some "y") 0 mov)), cache_linear)
    /\ length mov = 4%nat
    /\ forall e, In e mov -> ma e = NaN.
Proof.
  edestruct (moving_average_empty_window Date_parse_iso cache_linear
               {| fileId := Some "f1"; product := Some "y"; window := Some 0;
                  monthsForecast := None |} "f1" rows_linear)
    as (mov & Hrun & Hlen & Hnan).
  - reflexivity.
  - reflexivity.
  - reflexivity.
  - vm_compute. reflexivity.
  - reflexivity.
  - cbn. left. reflexivity.
  - reflexivity.
  - lia.
  - exists mov. split; [exact Hrun|]. split; [exact Hlen|exact Hnan].
Defined.

(** X6. When every row of the dataset fails date parsing the forecast handler
    does not reject the request: it answers with slope 0, intercept [NaN]
    and [monthsForecast] predictions that are all [NaN], at the indices
    0, 1, ... *)
Theorem forecast_without_rows Date_parse (σ : store) (req : request) f rows nz p :
  fileId req = Some f ->
  σ !! f = Some rows ->
  wf_rows rows = true ->
  normalizeSalesData Date_parse (Some rows) = Ret (Some nz) ->
  parsed nz = [] ->
  product req = Some p ->
  In p (seriesCols nz) ->
  exists fc,
    forecast Date_parse req σ
    = (Ret (json_ok (Forecast (Some p) 0 NaN fc)), σ)
    /\ length fc = Z.to_nat (default 3 (monthsForecast req))
    /\ forall k e, fc !! k = Some e -> monthIndex e = Z.of_nat k /\ predicted e = NaN.
Proof.
  intros Hf Hσ _ Hn Hempty Hp Hin.
  assert (Hc : cached_rows σ req = Some rows) by (unfold cached_rows; now rewrite Hf).
  rewrite <- Hc in Hn.
  assert (Hs : series nz p = []) by (unfold series; now rewrite Hempty).
  eexists. split.
  { rewrite (forecast_run Date_parse req σ nz p Hn Hp Hin), Hs, Hempty. reflexivity. }
  split; [now rewrite List.length_map, List.length_seq|].
  intros k e Hk. rewrite list_lookup_fmap in Hk.
  destruct (seq 0 (Z.to_nat (default 3 (monthsForecast req))) !! k) as [j|] eqn:Hj;
    [|discriminate].
  apply lookup_seq in Hj as [-> _]. injection Hk as <-.
  cbn [ols_prediction monthIndex predicted length]. split; [lia|].
  change (ols_intercept []) with NaN. now rewrite add_nan_l.
Qed.

Lemma forecast_without_rows_witness :
  exists fc,
    forecast Date_parse_iso
      {| fileId := Some "f1"; product := Some "A"; window := None;
         monthsForecast := Some 2 |} cache_example
    = (Ret (json_ok (Forecast (Some "A") 0 NaN fc)), cache_example)
    /\ length fc = 2%nat.
Proof.
  edestruct (forecast_without_rows Date_parse_iso cache_example
               {| fileId := Some "f1"; product := Some "A"; window := None;
                  monthsForecast := Some 2 |} "f1" rows_example)
    as (fc & Hrun & Hlen & _).
  - reflexivity.
  - reflexivity.
  - reflexivity.
  - vm_compute. reflexivity.
  - reflexivity.
  - reflexivity.
  - cbn. left. reflexivity.
  - exists fc. split; [exact Hrun|exact Hlen].
Defined.

Lemma In_insert_sorted {A} (before : A -> A -> bool) x y l :
  In y (insert_sorted before x l) <-> y = x \/ In y l.
Proof.
  induction l as [|z l IH]; cbn [insert_sorted In]; [intuition|].
  destruct (before z x); cbn [In]; [rewrite IH|]; intuition.
Qed.

Lemma In_sort {A} (before : A -> A -> bool) y l :
  In y (sort before l) <-> In y l.
Proof.
  induction l as [|x l IH]; cbn [sort In]; [reflexivity|].
  rewrite In_insert_sorted, IH. intuition.
Qed.

(** X7. Whatever the sums are, also [NaN] or infinite ones, the answer of the
    top-seller handler names one of the series columns and reports that
    column's own sum. *)
Theorem top_seller_reports_a_column Date_parse (σ : store) (req : request) f rows nz :
  fileId req = Some f ->
  σ !! f = Some rows ->
  wf_rows rows = true ->
  normalizeSalesData Date_parse (Some rows) = Ret (Some nz) ->
  seriesCols nz <> [] ->
  exists c,
    top_seller Date_parse req σ = (Ret (json_ok (TopSeller c (column_sum nz c))), σ)
    /\ In c (seriesCols nz).
Proof.
  intros Hf Hσ Hwf Hn Hne.
  assert (Hc : cached_rows σ req = Some rows) by (unfold cached_rows; now rewrite Hf).
  rewrite top_seller_run, Hc, Hn, (ranking_spec rows Date_parse nz Hwf Hn).
  set (entries := map (fun c => (c, column_sum nz c)) (seriesCols nz)).
  destruct (sort by_total_desc entries) as [|top tl] eqn:Hs.
  - exfalso. apply (f_equal (@length _)) in Hs.
    rewrite length_sort in Hs. unfold entries in Hs. rewrite List.length_map in Hs.
    destruct (seriesCols nz); [congruence|discriminate].
  - assert (Hin : In top entries).
    { apply (In_sort by_total_desc). rewrite Hs. now left. }
    apply List.in_map_iff in Hin as (c & <- & Hc'). exists c. split; [reflexivity|exact Hc'].
Qed.

Lemma top_seller_reports_a_column_witness :
  exists c nz,
    normalizeSalesData Date_parse_iso (Some rows_with_infinities) = Ret (Some nz)
    /\ top_seller Date_parse_iso request_f1 cache_with_infinities
       = (Ret (json_ok (TopSeller c (column_sum nz c))), cache_with_infinities)
    /\ In c (seriesCols nz).
Proof.
  edestruct (top_seller_reports_a_column Date_parse_iso cache_with_infinities
               request_f1 "f1" rows_with_infinities) as (c & Hrun & Hin).
  - reflexivity.
  - reflexivity.
  - reflexivity.
  - vm_compute. reflexivity.
  - discriminate.
  - exists c. eexists. split; [vm_compute; reflexivity|]. split; [exact Hrun|exact Hin].
Defined.

Lemma handlers_read_one_entry Date_parse (req : request) (σ1 σ2 : store) :
  cached_rows σ1 req = cached_rows σ2 req ->
  fst (top_seller Date_parse req σ1) = fst (top_seller Date_parse req σ2)
  /\ fst (moving_average Date_parse req σ1) = fst (moving_average Date_parse req σ2)
  /\ fst (correlation Date_parse req σ1) = fst (correlation Date_parse req σ2)
  /\ fst (forecast Date_parse req σ1) = fst (forecast Date_parse req σ2).
Proof.
  unfold cached_rows. intros Hc.
  unfold top_seller, moving_average, correlation, forecast.
  unfold mbind, M_bind, Map_get, lift, mret, M_ret. cbv zeta. rewrite Hc.
  destruct (normalizeSalesData Date_parse _) as [[nz|]|e]; [|repeat split..].
  repeat split.
  - now destruct (ranking nz).
  - destruct (negb (includes (seriesCols nz) (product req))); [reflexivity|].
    match goal with |- context [fold_res ?g ?l ?a] => now destruct (fold_res g l a) end.
  - match goal with |- context [fold_res ?g ?l ?a] => now destruct (fold_res g l a) end.
  - now destruct (negb (includes (seriesCols nz) (product req))).
Qed.

(** X9. An upload whose CSV stream ends is stored under the name of the file:
    the answer reports the number of rows, an earlier upload of that name is
    replaced, every other file stays; and afterwards what the four analytics
    handlers answer for that name is what they answer on a cache that holds
    this file alone. *)
Theorem upload_then_analytics Date_parse (σ : store) filename results (req : request) :
  fileId req = Some filename ->
  let σ' := snd (upload_sales (Some (filename, Parsed results)) σ) in
  let alone : store := {[ filename := results ]} in
  fst (upload_sales (Some (filename, Parsed results)) σ)
  = Ret (json_ok (Uploaded filename (length results)))
  /\ σ' !! filename = Some results
  /\ (forall other, other <> filename -> σ' !! other = σ !! other)
  /\ fst (top_seller Date_parse req σ') = fst (top_seller Date_parse req alone)
  /\ fst (moving_average Date_parse req σ') = fst (moving_average Date_parse req alone)
  /\ fst (correlation Date_parse req σ') = fst (correlation Date_parse req alone)
  /\ fst (forecast Date_parse req σ') = fst (forecast Date_parse req alone).
Proof.
  intros Hf σ' alone.
  assert (Hσ' : σ' = <[filename := results]> σ) by reflexivity.
  split; [reflexivity|]. split; [rewrite Hσ'; apply lookup_insert_eq|].
  split; [intros other Hne; rewrite Hσ'; now apply lookup_insert_ne|].
  apply handlers_read_one_entry. unfold cached_rows. rewrite Hf, Hσ'.
  unfold alone. now rewrite lookup_insert_eq, lookup_singleton_eq.
Qed.

Lemma upload_then_analytics_witness :
  fst (top_seller Date_parse_named request_f1
         (snd (upload_sales (Some ("f1", Parsed rows_example)) cache_with_bad_date)))
  = Ret (json_ok (TopSeller "A" 60)).
Proof.
  pose proof (upload_then_analytics Date_parse_named cache_with_bad_date "f1"
                rows_example request_f1 eq_refl) as (_ & _ & _ & H & _).
  rewrite H. reflexivity.
Defined.

(** X10. An upload without data rows is accepted with [rows: 0], and from then on
    each of the four analytics handlers answers 400 for that file. *)
Theorem empty_upload_cannot_be_analysed Date_parse (σ : store) filename (req : request) :
  fileId req = Some filename ->
  let σ' := snd (upload_sales (Some (filename, Parsed [])) σ) in
  let answer := (Ret (bad_request "invalid or missing fileId"), σ') in
  fst (upload_sales (Some (filename, Parsed [])) σ)
  = Ret (json_ok (Uploaded filename 0))
  /\ top_seller Date_parse req σ' = answer
  /\ moving_average Date_parse req σ' = answer
  /\ correlation Date_parse req σ' = answer
  /\ forecast Date_parse req σ' = answer.
Proof.
  intros Hf σ' answer. split; [reflexivity|].
  apply invalid_file_is_rejected. right. unfold cached_rows. rewrite Hf.
  apply lookup_insert_eq.
Qed.

Lemma empty_upload_cannot_be_analysed_witness :
  forecast Date_parse_iso request_y
    (snd (upload_sales (Some ("f1", Parsed [])) cache_linear))
  = (Ret (bad_request "invalid or missing fileId"),
     snd (upload_sales (Some ("f1", Parsed [])) cache_linear)).
Proof.
  exact (proj2 (proj2 (proj2 (proj2
    (empty_upload_cannot_be_analysed Date_parse_iso cache_linear "f1" request_y
       eq_refl))))).
Defined.

(** X8. The correlation matrix has an entry exactly for the pairs of series
    columns: no other key appears in it, and no pair is missing. *)
Theorem correlation_matrix_shape Date_parse (σ : store) (req : request) f rows nz :
  fileId req = Some f ->
  σ !! f = Some rows ->
  wf_rows rows = true ->
  normalizeSalesData Date_parse (Some rows) = Ret (Some nz) ->
  exists m,
    correlation Date_parse req σ = (Ret (json_ok (Correlation m)), σ)
    /\ forall a b,
         is_Some (cell m a b) <-> In a (seriesCols nz) /\ In b (seriesCols nz).
Proof.
  intros Hf Hσ Hwf Hn.
  assert (Hc : cached_rows σ req = Some rows) by (unfold cached_rows; now rewrite Hf).
  pose proof Hn as (r0 & rest & [= ->] & _ & Hnz)%normalize_inv.
  assert (Hd : List.NoDup (seriesCols nz)).
  { subst nz. cbn [seriesCols]. cbn [wf_rows forallb] in Hwf.
    apply andb_true_iff in Hwf as [Hwf _]. apply NoDup_tail, wf_row_keys, Hwf. }
  rewrite <- Hc in Hn. clear Hnz.
  pose (values := fold_left (fun vs c => put c (map (fun r => series_value r c) (parsed nz)) vs)
                    (seriesCols nz) ([] : obj (list number))).
  pose (column := fun c => match own values c with
                           | Some x => Ret x
                           | None => Throw (TypeError "Cannot read properties of undefined (reading 'length')")
                           end).
  assert (Hshape :
    correlation Date_parse req σ
    = match fold_res (fun matrix ci =>
                fold_res (fill_cell column ci) (seriesCols nz) (put ci [] matrix))
              (seriesCols nz) [] with
      | Ret m => (Ret (json_ok (Correlation m)), σ)
      | Throw e => (Throw e, σ)
      end).
  { unfold correlation, cached_rows in *.
    unfold mbind at 1 2, M_bind, Map_get, lift. rewrite Hn. reflexivity. }
  assert (Hcol : forall c, In c (seriesCols nz) -> column c = Ret (series nz c)).
  { intros c Hin. unfold column, values.
    rewrite (own_fold_assign (fun c => map (fun r => series_value r c) (parsed nz))).
    now apply existsb_eqb_In in Hin as ->. }
  destruct (outer_loop (seriesCols nz) column (series nz) Hcol (seriesCols nz) [] Hd)
    as (m & Hrun & Hrows & Hother); [auto|].
  exists m. split; [rewrite Hshape, Hrun; reflexivity|].
  intros a b. unfold cell.
  destruct (List.in_dec string_dec a (seriesCols nz)) as [Ha|Ha].
  - pose proof (Hrows a Ha) as Hr. unfold obj in *. rewrite Hr.
    unfold matrix_row. rewrite (own_fold_assign (entry (series nz) a)).
    destruct (existsb (String.eqb b) (seriesCols nz)) eqn:Hb.
    + apply existsb_eqb_In in Hb. split; [tauto|eauto].
    + apply existsb_eqb_not_In in Hb. cbn [own]. split; [intros [? [=]]|tauto].
  - pose proof (Hother a Ha) as Hr. unfold obj in *. rewrite Hr. cbn [own].
    split; [intros [? [=]]|tauto].
Qed.

Lemma correlation_matrix_shape_witness :
  exists m,
    correlation Date_parse_named request_f1 cache_example
    = (Ret (json_ok (Correlation m)), cache_example)
    /\ is_Some (cell m "A" "B") /\ ~ is_Some (cell m "A" "Month").
Proof.
  edestruct (correlation_matrix_shape Date_parse_named cache_example request_f1 "f1"
               rows_example) as (m & Hrun & Hcells).
  - reflexivity.
  - reflexivity.
  - reflexivity.
  - vm_compute. reflexivity.
  - exists m. split; [exact Hrun|]. split.
    + apply Hcells. cbn. auto.
    + intros H. apply Hcells in H as [_ H]. cbn in H.
      destruct H as [H|[H|[]]]; discriminate H.
Defined.



(** ** 20. The car and rental API: the stores stay consistent *)

Section CarRentalFacts.

Import CarRental.

Lemma own_entry {V} (o : obj V) k v :
  List.NoDup (map fst o) -> (own o k = Some v <-> In (k, v) o).
Proof.
  induction o as [|[k' v'] o IH]; cbn [own map fst In]; intros Hd.
  - split; [discriminate|tauto].
  - inversion Hd as [|? ? Hk Hd']; subst.
    destruct (String.eqb_spec k' k) as [->|Hne].
    + split; [intros [= ->]; now left|].
      intros [[= ->]|Hin]; [reflexivity|].
      exfalso. apply Hk. apply List.in_map_iff. now exists (k, v).
    + rewrite (IH Hd'). split; [tauto|]. intros [[= -> ->]|]; [congruence|assumption].
Qed.

Lemma consistent_spec st :
  consistent st = true <->
  List.NoDup (map fst (cars st))
  /\ (forall k c, own (cars st) k = Some c ->
        carId c = k /\ (available c = true <-> ~ In k (rented_cars st)))
  /\ List.NoDup (rented_cars st)
  /\ (forall k, In k (rented_cars st) -> In k (map fst (cars st))).
Proof.
  unfold consistent, rentals_known.
  rewrite !andb_true_iff, !distinct_NoDup, !List.forallb_forall.
  split.
  - intros [[[Hd Hc] Hr] Hk]. split; [exact Hd|]. split; [|split; [exact Hr|]].
    + intros k c Hown. apply (own_entry _ _ _ Hd) in Hown. specialize (Hc _ Hown).
      unfold car_entry_ok in Hc. cbn [fst snd] in Hc.
      apply andb_true_iff in Hc as [Hid Hav].
      apply String.eqb_eq in Hid. apply Bool.eqb_prop in Hav.
      split; [exact Hid|]. rewrite Hav, negb_true_iff. apply existsb_eqb_not_In.
    + intros k Hin. apply existsb_eqb_In, Hk, Hin.
  - intros (Hd & Hc & Hr & Hk). repeat split; try assumption.
    + intros [k c] Hin. apply (own_entry _ _ _ Hd) in Hin.
      destruct (Hc k c Hin) as [Hid Hav]. unfold car_entry_ok. cbn [fst snd].
      rewrite Hid, eqb_string_refl. cbn [andb].
      destruct (available c) eqn:Ha.
      * destruct Hav as [Hav _]. specialize (Hav eq_refl).
        apply existsb_eqb_not_In in Hav. now rewrite Hav.
      * destruct (existsb (String.eqb k) (rented_cars st)) eqn:He; [reflexivity|].
        apply existsb_eqb_not_In in He. destruct Hav as [_ Hav].
        specialize (Hav He). discriminate.
    + intros k Hin. apply existsb_eqb_In, Hk, Hin.
Qed.


Lemma has_carId_true carId r :
  has_carId carId r = true <-> carId = Some (JStr (rental_carId r)).
Proof.
  unfold has_carId. destruct carId as [[| | |s]|]; try (split; discriminate).
  rewrite String.eqb_eq. split; [now intros ->|now intros [= ->]].
Qed.

Lemma find_rental_Some carId l i r :
  find_rental carId l = Some (i, r) ->
  carId = Some (JStr (rental_carId r))
  /\ l !! i = Some r
  /\ ~ In (rental_carId r) (map rental_carId (take i l)).
Proof.
  unfold find_rental. intros (Hi & Hp%has_carId_true & Hmin)%list_find_Some.
  split; [exact Hp|]. split; [exact Hi|].
  intros (y & Hy & Hin)%List.in_map_iff.
  apply list_elem_of_In, list_elem_of_lookup in Hin as [j Hj].
  pose proof (lookup_lt_Some _ _ _ Hj) as Hlt. rewrite length_take in Hlt.
  rewrite lookup_take_lt in Hj by lia.
  apply (Hmin j y Hj); [lia|]. apply has_carId_true. now rewrite Hy.
Qed.

Lemma find_rental_None carId l :
  find_rental carId l = None <->
  forall k, carId = Some (JStr k) -> ~ In k (map rental_carId l).
Proof.
  unfold find_rental. rewrite list_find_None, List.Forall_forall. split.
  - intros H k -> (r & <- & Hin)%List.in_map_iff.
    apply (H r Hin). now apply has_carId_true.
  - intros H r Hin Hp%has_carId_true. apply (H _ Hp).
    apply List.in_map_iff. now exists r.
Qed.

Lemma find_rental_is_Some k l :
  In k (map rental_carId l) -> is_Some (find_rental (Some (JStr k)) l).
Proof.
  intros Hin. destruct (find_rental (Some (JStr k)) l) eqn:E; [eauto|].
  exfalso. exact (proj1 (find_rental_None _ _) E k eq_refl Hin).
Qed.


Lemma NoDup_snoc {A} (l : list A) a :
  List.NoDup l -> ~ In a l -> List.NoDup (l ++ [a]).
Proof.
  induction l as [|x l IH]; cbn [app]; intros Hd Hn.
  - constructor; [intros []|constructor].
  - inversion Hd as [|? ? Hx Hd']; subst. constructor.
    + rewrite List.in_app_iff. intros [H|[->|[]]]; [auto|]. apply Hn. now left.
    + apply IH; [exact Hd'|]. intros H. apply Hn. now right.
Qed.

Lemma post_cars_consistent b m p rnd st :
  consistent st = true -> fresh (PostCars b m p rnd) st = true ->
  consistent (snd (post_cars b m p rnd st)) = true.
Proof.
  intros Hc Hf. unfold post_cars.
  destruct (negb (ToBoolean b) || negb (ToBoolean m) || negb (ToBoolean p));
    [exact Hc|]. cbn [snd].
  apply consistent_spec in Hc as (Hd & Hcar & Hr & Hk). apply consistent_spec.
  unfold rented_cars in *. cbn [cars rentals].
  cbn [fresh] in Hf. apply negb_true_iff, existsb_eqb_not_In in Hf.
  set (k := genId "C" rnd) in *.
  rewrite keys_put_new by exact Hf.
  split; [now apply NoDup_snoc|]. split; [|split; [exact Hr|]].
  - intros k' c. destruct (string_dec k k') as [<-|Hne].
    + rewrite own_put_eq. intros [= <-]. cbn [carId available].
      split; [reflexivity|]. split; [|reflexivity]. intros _ Hin. apply Hf, Hk, Hin.
    + rewrite own_put_ne by exact Hne. apply Hcar.
  - intros k' Hin. apply List.in_app_iff. left. apply Hk, Hin.
Qed.

Lemma post_rent_consistent k n d r1 r2 now st :
  consistent st = true ->
  consistent (snd (post_rent k n d r1 r2 now st)) = true.
Proof.
  intros Hc. unfold post_rent.
  destruct (negb (ToBoolean k) || negb (ToBoolean n) || negb (ToBoolean d));
    [exact Hc|].
  destruct k as [[| | |k]|]; try exact Hc.
  destruct (own (cars st) k) as [car|] eqn:Hown; [|exact Hc].
  destruct (available car) eqn:Hav; cbn [negb]; [|exact Hc]. cbn [snd].
  apply consistent_spec in Hc as (Hd & Hcar & Hr & Hk). apply consistent_spec.
  unfold rented_cars in *. cbn [cars rentals].
  destruct (Hcar k car Hown) as [Hid Hfree]. rewrite Hav in Hfree.
  assert (Hnot : ~ In k (map rental_carId (rentals st))) by now apply Hfree.
  rewrite keys_put_old by (eapply own_Some_In; exact Hown).
  rewrite List.map_app. cbn [map rental_carId].
  split; [exact Hd|]. split; [|split; [now apply NoDup_snoc|]].
  - intros k' c. destruct (string_dec k k') as [<-|Hne].
    + rewrite own_put_eq. intros [= <-]. cbn [set_available carId available].
      split; [exact Hid|]. split; [discriminate|].
      intros H. exfalso. apply H. apply List.in_app_iff. right. now left.
    + rewrite own_put_ne by exact Hne. intros Hc'.
      destruct (Hcar k' c Hc') as [Hid' Hfree']. split; [exact Hid'|].
      rewrite Hfree', List.in_app_iff. cbn [In]. intuition congruence.
  - intros k' [Hin|[<-|[]]]%List.in_app_iff; [apply Hk, Hin|].
    eapply own_Some_In; exact Hown.
Qed.

Lemma post_return_consistent k now st :
  consistent st = true ->
  consistent (snd (post_return k now st)) = true.
Proof.
  intros Hc. unfold post_return.
  destruct (negb (ToBoolean k)); [exact Hc|].
  destruct (find_rental k (rentals st)) as [[idx r]|] eqn:Hfind; [|exact Hc].
  cbn [snd].
  apply find_rental_Some in Hfind as (-> & Hidx & Hbefore).
  set (kr := rental_carId r) in *.
  apply consistent_spec in Hc as (Hd & Hcar & Hr & Hk). apply consistent_spec.
  unfold rented_cars in *. cbn [cars rentals].
  pose proof (take_drop_middle _ _ _ Hidx) as Hsplit.
  rewrite delete_take_drop.
  rewrite <- Hsplit, List.map_app in Hr, Hk, Hcar. cbn [map] in Hr, Hk, Hcar.
  fold kr in Hr, Hk, Hcar.
  apply List.NoDup_remove in Hr as [Hr Hgone].
  rewrite List.map_app.
  set (l1 := map rental_carId (take idx (rentals st))) in *.
  set (l2 := map rental_carId (drop (S idx) (rentals st))) in *.
  assert (Hrest : forall k', k' <> kr -> (In k' (l1 ++ kr :: l2) <-> In k' (l1 ++ l2))).
  { intros k' Hne. rewrite !List.in_app_iff. cbn [In]. intuition congruence. }
  destruct (own (cars st) kr) as [car|] eqn:Hown.
  - rewrite keys_put_old by (eapply own_Some_In; exact Hown).
    split; [exact Hd|]. split; [|split; [exact Hr|]].
    + intros k' c. destruct (string_dec kr k') as [<-|Hne].
      * rewrite own_put_eq. intros [= <-]. cbn [set_available carId available].
        split; [apply (Hcar kr car Hown)|]. split; [intros _; exact Hgone|reflexivity].
      * rewrite own_put_ne by exact Hne. intros Hc'.
        destruct (Hcar k' c Hc') as [Hid' Hfree']. split; [exact Hid'|].
        rewrite Hfree', Hrest by congruence. reflexivity.
    + intros k' Hin. apply Hk. rewrite List.in_app_iff in *. cbn [In]. tauto.
  - exfalso. assert (Hin : In kr (map fst (cars st))).
    { apply Hk. apply List.in_app_iff. right. now left. }
    apply own_In in Hin as [c Hc']. congruence.
Qed.

Lemma rented_cars_extend st idx r0 n :
  rentals st !! idx = Some r0 ->
  map rental_carId (<[idx := add_days n r0]> (rentals st))
  = map rental_carId (rentals st).
Proof.
  intros Hidx. change (map rental_carId) with (fmap (M := list) rental_carId).
  rewrite list_fmap_insert. cbn [add_days rental_carId].
  apply list_insert_id. now rewrite list_lookup_fmap, Hidx.
Qed.

Lemma post_extend_consistent k e now st :
  consistent st = true ->
  consistent (snd (post_extend k e now st)) = true.
Proof.
  intros Hc. unfold post_extend.
  destruct (negb (ToBoolean k) || negb (ToBoolean e)); [exact Hc|].
  destruct (find_rental k (rentals st)) as [[idx r0]|] eqn:Hfind; [|exact Hc].
  apply find_rental_Some in Hfind as (_ & Hidx & _).
  assert (Hst : consistent
                  {| cars := cars st; customers := customers st;
                     rentals := <[idx := add_days (ToNumber e) r0]> (rentals st);
                     rentalHistory :=
                       rentalHistory st
                       ++ [Extended (add_days (ToNumber e) r0) (ToNumber e) now] |}
                = true).
  { unfold consistent, rentals_known, car_entry_ok, rented_cars in *. cbn [cars rentals].
    now rewrite (rented_cars_extend st idx r0 (ToNumber e) Hidx). }
  destruct (Map_get (cars st) k); exact Hst.
Qed.

(** Every handler keeps the stores consistent, provided the id that
    [POST /cars] draws is not in use. *)
Lemma handle_consistent c st :
  consistent st = true -> fresh c st = true ->
  consistent (snd (handle c st)) = true.
Proof.
  intros Hc Hf. destruct c; cbn [handle].
  - exact Hc.
  - now apply post_cars_consistent.
  - unfold get_car. now destruct (own (cars st) id).
  - now apply post_rent_consistent.
  - now apply post_return_consistent.
  - now apply post_extend_consistent.
  - exact Hc.
  - exact Hc.
Qed.


Lemma rentals_known_spec st :
  rentals_known st = true <->
  forall k, In k (rented_cars st) -> In k (map fst (cars st)).
Proof.
  unfold rentals_known. rewrite List.forallb_forall.
  split; intros H k Hin; apply existsb_eqb_In, H, Hin.
Qed.

Lemma keys_put_incl {V} (o : obj V) k v k' :
  In k' (map fst o) -> In k' (map fst (put k v o)).
Proof.
  intros Hin. destruct (List.in_dec string_dec k (map fst o)) as [Hk|Hk].
  - now rewrite keys_put_old.
  - rewrite keys_put_new by exact Hk. apply List.in_app_iff. now left.
Qed.

(** No handler removes a car, and a rental is only created for a car of the
    store: the rentals keep naming cars that exist, whatever ids are drawn. *)
Lemma handle_rentals_known c st :
  rentals_known st = true -> rentals_known (snd (handle c st)) = true.
Proof.
  intros Hk. destruct c as [|b m p rnd|id|k n d r1 r2 now|k now|k e now| |];
    cbn [handle]; try exact Hk.
  - unfold post_cars.
    destruct (negb (ToBoolean b) || negb (ToBoolean m) || negb (ToBoolean p));
      [exact Hk|]. cbn [snd].
    apply (proj2 (rentals_known_spec _)).
    pose proof (proj1 (rentals_known_spec st) Hk) as HK. clear Hk. rename HK into Hk.
    unfold rented_cars in *. cbn [cars rentals].
    intros k Hin. apply keys_put_incl, Hk, Hin.
  - unfold get_car. now destruct (own (cars st) id).
  - unfold post_rent.
    destruct (negb (ToBoolean k) || negb (ToBoolean n) || negb (ToBoolean d));
      [exact Hk|].
    destruct k as [[| | |k]|]; try exact Hk.
    destruct (own (cars st) k) as [car|] eqn:Hown; [|exact Hk].
    destruct (negb (available car)); [exact Hk|]. cbn [snd].
    apply (proj2 (rentals_known_spec _)).
    pose proof (proj1 (rentals_known_spec st) Hk) as HK. clear Hk. rename HK into Hk.
    unfold rented_cars in *. cbn [cars rentals].
    rewrite List.map_app. cbn [map rental_carId].
    intros k' [Hin|[<-|[]]]%List.in_app_iff; apply keys_put_incl.
    + apply Hk, Hin.
    + eapply own_Some_In; exact Hown.
  - unfold post_return.
    destruct (negb (ToBoolean k)); [exact Hk|].
    destruct (find_rental k (rentals st)) as [[idx r]|] eqn:Hfind; [|exact Hk].
    cbn [snd]. apply find_rental_Some in Hfind as (-> & Hidx & _).
    apply (proj2 (rentals_known_spec _)).
    pose proof (proj1 (rentals_known_spec st) Hk) as HK. clear Hk. rename HK into Hk.
    unfold rented_cars in *. cbn [cars rentals].
    intros k' Hin.
    assert (Hold : In k' (map fst (cars st))).
    { apply Hk. rewrite delete_take_drop in Hin.
      rewrite <- (take_drop_middle _ _ _ Hidx).
      rewrite List.map_app, List.in_app_iff in *. cbn [map In]. tauto. }
    destruct (own (cars st) (rental_carId r)); [now apply keys_put_incl|exact Hold].
  - unfold post_extend.
    destruct (negb (ToBoolean k) || negb (ToBoolean e)); [exact Hk|].
    destruct (find_rental k (rentals st)) as [[idx r0]|] eqn:Hfind; [|exact Hk].
    apply find_rental_Some in Hfind as (_ & Hidx & _).
    assert (Hst : rentals_known
                    {| cars := cars st; customers := customers st;
                       rentals := <[idx := add_days (ToNumber e) r0]> (rentals st);
                       rentalHistory :=
                         rentalHistory st
                         ++ [Extended (add_days (ToNumber e) r0) (ToNumber e) now] |}
                  = true).
    { unfold rentals_known, rented_cars in *. cbn [cars rentals].
      now rewrite (rented_cars_extend st idx r0 (ToNumber e) Hidx). }
    destruct (Map_get (cars st) k); exact Hst.
Qed.

Lemma run_rentals_known cs : forall st,
  rentals_known st = true -> rentals_known (run cs st) = true.
Proof.
  induction cs as [|c cs IH]; intros st Hk; [exact Hk|].
  apply IH, handle_rentals_known, Hk.
Qed.

Lemma rentals_known_no_throw c st :
  rentals_known st = true -> exists rp, fst (handle c st) = Ret rp.
Proof.
  intros Hk. destruct c as [|b m p rnd|id|k n d r1 r2 now|k now|k e now| |];
    cbn [handle].
  - eexists. reflexivity.
  - unfold post_cars. destruct (_ || _); eexists; reflexivity.
  - unfold get_car. destruct (own (cars st) id); eexists; reflexivity.
  - unfold post_rent. destruct (_ || _); [eexists; reflexivity|].
    destruct k as [[| | |k]|]; try (eexists; reflexivity).
    destruct (own (cars st) k) as [car|]; [|eexists; reflexivity].
    destruct (negb (available car)); eexists; reflexivity.
  - unfold post_return. destruct (negb _); [eexists; reflexivity|].
    destruct (find_rental k (rentals st)) as [[idx r]|]; eexists; reflexivity.
  - unfold post_extend. destruct (_ || _); [eexists; reflexivity|].
    destruct (find_rental k (rentals st)) as [[idx r0]|] eqn:Hfind;
      [|eexists; reflexivity].
    apply find_rental_Some in Hfind as (-> & Hidx & _). cbn [Map_get].
    assert (Hin : In (rental_carId r0) (map fst (cars st))).
    { apply (proj1 (rentals_known_spec st) Hk). unfold rented_cars.
      apply List.in_map, list_elem_of_In. eapply list_elem_of_lookup_2. exact Hidx. }
    apply own_In in Hin as [car ->]. eexists. reflexivity.
  - eexists. reflexivity.
  - eexists. reflexivity.
Qed.

(** X11. From start-up on, no request to the car and rental API ends in an
    uncaught exception: for every sequence of earlier requests, whatever
    their bodies, random ids and times, the next request is answered. In
    particular [POST /extend] always finds the car of the rental it extends. *)
Theorem requests_never_throw (cs : list call) (c : call) :
  exists rp, fst (handle c (run cs init)) = Ret rp.
Proof.
  apply rentals_known_no_throw, run_rentals_known. reflexivity.
Qed.

(** The hypothesis of [rentals_known_no_throw] is needed: with a rental whose
    car is not in [cars], [POST /extend] throws after it has changed the
    rental and pushed the history entry. *)
Lemma extend_throws_without_car :
  let r := {| rental_id := "R1"; rental_carId := "C9"; rental_customerId := "CUS1";
              rental_days := 2; rental_startAt := "t0" |} in
  let st := {| cars := []; customers := []; rentals := [r]; rentalHistory := [] |} in
  fst (post_extend (Some (JStr "C9")) (Some (JNum 3)) "t1" st)
  = Throw (TypeError "Cannot read properties of undefined (reading 'pricePerDay')")
  /\ rental_days <$> rentals (snd (post_extend (Some (JStr "C9")) (Some (JNum 3)) "t1" st))
     = [5%float].
Proof. split; reflexivity. Qed.

(** X12. In every state that a sequence of requests reaches from start-up, as long
    as [POST /cars] never draws an id that is in use: the keys of [cars] are
    the ids of the cars, a car is available exactly when no active rental
    names it, no car has two active rentals, and every active rental names a
    car of the store. *)
Theorem stores_stay_consistent (cs : list call) (st : state) :
  consistent st = true -> fresh_ids cs st = true -> consistent (run cs st) = true.
Proof.
  revert st. induction cs as [|c cs IH]; intros st Hc Hf; [exact Hc|].
  cbn [fresh_ids] in Hf. apply andb_true_iff in Hf as [Hf Hfs].
  cbn [run fold_left]. apply IH; [now apply handle_consistent|exact Hfs].
Qed.

Lemma stores_stay_consistent_witness :
  consistent (run session init) = true.
Proof.
  apply stores_stay_consistent; reflexivity.
Defined.

(** The hypothesis on the ids is needed: when [POST /cars] draws the id of a
    rented car, the new car replaces it and is available although the rental
    is still active. *)
Lemma id_collision_breaks_consistency :
  let cs := [ PostRent (Some (JStr "C001")) (Some (JStr "Asha")) (Some (JNum 3))
                "a1b2c3d" "e4f5g6h" "2024-01-01T00:00:00.000Z";
              PostCars (Some (JStr "Kia")) (Some (JStr "Seltos")) (Some (JNum 80)) "001" ] in
  fresh_ids cs init = false
  /\ consistent (run cs init) = false
  /\ available <$> own (cars (run cs init)) "C001" = Some true
  /\ rented_cars (run cs init) = ["C001"].
Proof. repeat split. Qed.

End CarRentalFacts.

(** ** 21. The car and rental API: what a request does *)

Section CarRentalRequests.

Import CarRental.

(** X13. A request that is answered with a 4xx status changes none of the
    stores. *)
Theorem rejected_request_changes_nothing (c : call) (st : state) (rp : reply) :
  fst (handle c st) = Ret rp -> 400 <= status rp -> snd (handle c st) = st.
Proof.
  destruct c as [|b m p rnd|id|k n d r1 r2 now|k now|k e now| |]; cbn [handle].
  - reflexivity.
  - unfold post_cars. destruct (_ || _); [reflexivity|].
    cbn [fst]. intros [= <-]. cbn [status]. lia.
  - unfold get_car. now destruct (own (cars st) id).
  - unfold post_rent. destruct (_ || _); [reflexivity|].
    destruct k as [[| | |k]|]; try reflexivity.
    destruct (own (cars st) k) as [car|]; [|reflexivity].
    destruct (negb (available car)); [reflexivity|].
    cbn [fst]. intros [= <-]. cbn [status]. lia.
  - unfold post_return. destruct (negb _); [reflexivity|].
    destruct (find_rental k (rentals st)) as [[idx r]|]; [|reflexivity].
    cbn [fst]. intros [= <-]. cbn [status]. lia.
  - unfold post_extend. destruct (_ || _); [reflexivity|].
    destruct (find_rental k (rentals st)) as [[idx r0]|]; [|reflexivity].
    destruct (Map_get (cars st) k); [|discriminate].
    cbn [fst]. intros [= <-]. cbn [status]. lia.
  - reflexivity.
  - reflexivity.
Qed.

Lemma rejected_request_changes_nothing_witness :
  snd (handle (PostRent (Some (JStr "C001")) (Some (JStr "Ravi")) (Some (JNum 1))
                 "i7j8k9l" "m1n2o3p" "2024-01-03T00:00:00.000Z")
         (run (firstn 3 session) init))
  = run (firstn 3 session) init.
Proof.
  eapply rejected_request_changes_nothing; [reflexivity|]. cbn. lia.
Defined.

(** X14. The status of the answer to [POST /rent] in a consistent state: 400 when
    a field is missing or falsy, else 404 when [carId] is not the id of a
    car, else 409 when the car has an active rental, else 201. *)
Theorem rent_status k n d r1 r2 now (st : state) :
  consistent st = true ->
  exists rp,
    fst (post_rent k n d r1 r2 now st) = Ret rp
    /\ status rp =
       if negb (ToBoolean k) || negb (ToBoolean n) || negb (ToBoolean d) then 400
       else match k with
            | Some (JStr s) =>
                if negb (existsb (String.eqb s) (map fst (cars st))) then 404
                else if existsb (String.eqb s) (rented_cars st) then 409
                else 201
            | _ => 404
            end.
Proof.
  intros (Hd & Hcar & Hr & Hk)%consistent_spec. unfold post_rent.
  destruct (_ || _); [eexists; split; reflexivity|].
  destruct k as [[| | |k]|]; try (eexists; split; reflexivity).
  destruct (own (cars st) k) as [car|] eqn:Hown.
  - assert (Hin : existsb (String.eqb k) (map fst (cars st)) = true)
      by (apply existsb_eqb_In; eapply own_Some_In; exact Hown).
    rewrite Hin. cbn [negb].
    destruct (Hcar k car Hown) as [_ Hfree].
    destruct (available car) eqn:Hav; cbn [negb].
    + assert (Hn : existsb (String.eqb k) (rented_cars st) = false)
        by (apply existsb_eqb_not_In, Hfree; reflexivity).
      rewrite Hn. eexists. split; reflexivity.
    + destruct (existsb (String.eqb k) (rented_cars st)) eqn:He;
        [eexists; split; reflexivity|].
      apply existsb_eqb_not_In in He. apply Hfree in He. discriminate.
  - assert (Hin : existsb (String.eqb k) (map fst (cars st)) = false).
    { apply existsb_eqb_not_In. intros [c Hc]%own_In. congruence. }
    rewrite Hin. eexists. split; reflexivity.
Qed.

Lemma rent_status_witness :
  exists rp,
    fst (post_rent (Some (JStr "C001")) (Some (JStr "Ravi")) (Some (JNum 1))
           "i7j8k9l" "m1n2o3p" "2024-01-03T00:00:00.000Z"
           (run (firstn 3 session) init)) = Ret rp
    /\ status rp = 409.
Proof.
  exact (rent_status (Some (JStr "C001")) (Some (JStr "Ravi")) (Some (JNum 1))
           "i7j8k9l" "m1n2o3p" "2024-01-03T00:00:00.000Z"
           (run (firstn 3 session) init) eq_refl).
Defined.



Lemma set_available_id c : set_available (available c) c = c.
Proof. now destruct c. Qed.




(** X16. A successful [POST /return] in a consistent state removes the one active
    rental of the car and makes the car available; a second return of the
    same car is answered 404 until the car is rented again. *)
Theorem return_frees_the_car k now (st st' : state) (rp : reply) :
  consistent st = true ->
  post_return k now st = (Ret rp, st') ->
  status rp = 200 ->
  exists s c,
    k = Some (JStr s)
    /\ In s (rented_cars st)
    /\ ~ In s (rented_cars st')
    /\ own (cars st') s = Some c /\ available c = true
    /\ S (length (rentals st')) = length (rentals st)
    /\ forall now',
         post_return k now' st'
         = (Ret {| status := 404; json := Error "rental not found" |}, st').
Proof.
  intros Hc Hrun Hs.
  assert (Hc' : consistent st' = true).
  { replace st' with (snd (post_return k now st)) by now rewrite Hrun.
    now apply post_return_consistent. }
  revert Hrun. unfold post_return at 1.
  destruct (negb (ToBoolean k)) eqn:Hk; [intros [= <- <-]; discriminate|].
  destruct (find_rental k (rentals st)) as [[idx r]|] eqn:Hfind;
    [|intros [= <- <-]; discriminate].
  pose proof Hfind as (-> & Hidx & _)%find_rental_Some.
  set (s := rental_carId r) in *.
  intros [= _ Hst'].
  apply consistent_spec in Hc as (Hd & Hcar & Hr & Hkn).
  assert (Hin : In s (rented_cars st)).
  { unfold rented_cars. apply List.in_map_iff. exists r. split; [reflexivity|].
    apply list_elem_of_In. eapply list_elem_of_lookup_2. exact Hidx. }
  destruct (own_In _ _ (Hkn s Hin)) as [car Hown]. rewrite Hown in Hst'.
  assert (Hgone : ~ In s (rented_cars st')).
  { rewrite <- Hst'. unfold rented_cars in *. cbn [rentals].
    rewrite delete_take_drop. rewrite <- (take_drop_middle _ _ _ Hidx) in Hr.
    rewrite List.map_app in Hr |- *. cbn [map] in Hr.
    now apply List.NoDup_remove in Hr as [_ Hr]. }
  exists s, (set_available true car).
  split; [reflexivity|]. split; [exact Hin|]. split; [exact Hgone|].
  split; [rewrite <- Hst'; cbn [cars]; apply own_put_eq|]. split; [reflexivity|].
  split.
  - rewrite <- Hst'. cbn [rentals]. rewrite length_delete by eauto.
    pose proof (lookup_lt_Some _ _ _ Hidx). lia.
  - intros now'. unfold post_return. rewrite Hk.
    replace (find_rental (Some (JStr s)) (rentals st')) with (@None (nat * rental));
      [reflexivity|].
    symmetry. apply find_rental_None. intros k' [= <-]. exact Hgone.
Qed.

Lemma return_frees_the_car_witness :
  exists s c,
    Some (JStr "C001") = Some (JStr s)
    /\ In s (rented_cars (run (firstn 4 session) init))
    /\ ~ In s (rented_cars (run (firstn 5 session) init))
    /\ own (cars (run (firstn 5 session) init)) s = Some c /\ available c = true
    /\ S (length (rentals (run (firstn 5 session) init)))
       = length (rentals (run (firstn 4 session) init))
    /\ forall now',
         post_return (Some (JStr "C001")) now' (run (firstn 5 session) init)
         = (Ret {| status := 404; json := Error "rental not found" |},
            run (firstn 5 session) init).
Proof.
  eapply (return_frees_the_car (Some (JStr "C001")) "2024-01-04T00:00:00.000Z"
            (run (firstn 4 session) init)); reflexivity.
Defined.

(** X18. The rental history only grows: whatever requests are served, the
    earlier entries stay as they are, in their order, and every request adds
    at most one entry. *)
Theorem history_is_append_only (cs : list call) (st : state) :
  exists l,
    rentalHistory (run cs st) = rentalHistory st ++ l
    /\ (length l <= length cs)%nat.
Proof.
  revert st. induction cs as [|c cs IH]; intros st.
  - exists []. split; [symmetry; apply List.app_nil_r|cbn; lia].
  - cbn [run fold_left].
    assert (Hstep : exists l1, rentalHistory (snd (handle c st)) = rentalHistory st ++ l1
                               /\ (length l1 <= 1)%nat).
    { destruct c as [|b m p rnd|id|k n d r1 r2 now|k now|k e now| |]; cbn [handle];
        try (exists []; split; [symmetry; apply List.app_nil_r|cbn; lia]).
      - unfold post_cars. destruct (_ || _);
          exists []; (split; [symmetry; apply List.app_nil_r|cbn; lia]).
      - unfold get_car. destruct (own (cars st) id);
          exists []; (split; [symmetry; apply List.app_nil_r|cbn; lia]).
      - unfold post_rent.
        destruct (_ || _); [exists []; split; [symmetry; apply List.app_nil_r|cbn; lia]|].
        destruct k as [[| | |k]|];
          try (exists []; split; [symmetry; apply List.app_nil_r|cbn; lia]).
        destruct (own (cars st) k) as [car|];
          [|exists []; split; [symmetry; apply List.app_nil_r|cbn; lia]].
        destruct (negb (available car));
          [exists []; split; [symmetry; apply List.app_nil_r|cbn; lia]|].
        eexists [_]. split; [reflexivity|cbn; lia].
      - unfold post_return.
        destruct (negb _); [exists []; split; [symmetry; apply List.app_nil_r|cbn; lia]|].
        destruct (find_rental k (rentals st)) as [[idx r]|];
          [|exists []; split; [symmetry; apply List.app_nil_r|cbn; lia]].
        eexists [_]. split; [reflexivity|cbn; lia].
      - unfold post_extend.
        destruct (_ || _); [exists []; split; [symmetry; apply List.app_nil_r|cbn; lia]|].
        destruct (find_rental k (rentals st)) as [[idx r0]|];
          [|exists []; split; [symmetry; apply List.app_nil_r|cbn; lia]].
        destruct (Map_get (cars st) k); eexists [_]; (split; [reflexivity|cbn; lia]). }
    destruct Hstep as (l1 & H1 & Hlen1).
    destruct (IH (snd (handle c st))) as (l2 & H2 & Hlen2).
    exists (l1 ++ l2). split.
    + unfold run in H2. rewrite H2, H1. now rewrite <- List.app_assoc.
    + rewrite List.length_app. cbn [length]. lia.
Qed.

Lemma values_put_new {V} (o : obj V) k v :
  ~ In k (map fst o) -> map snd (put k v o) = map snd o ++ [v].
Proof.
  induction o as [|[k' v'] o IH]; cbn [put map fst snd In app]; intros Hn; [reflexivity|].
  destruct (String.eqb_spec k' k) as [->|Hne]; [tauto|].
  cbn [map snd]. rewrite IH by tauto. reflexivity.
Qed.

(** X19. A car created by [POST /cars] is found by [GET /cars/:id] under the id
    that the answer reports; the lookup of every other id is as before; and
    when the id was not in use, [GET /cars] lists the earlier cars followed
    by the new one. *)
Theorem created_car_is_found b m p rnd (st : state) :
  ToBoolean b = true -> ToBoolean m = true -> ToBoolean p = true ->
  let id := genId "C" rnd in
  let c := {| carId := id; brand := b; model := m;
              pricePerDay := ToNumber p; available := true |} in
  let st' := snd (post_cars b m p rnd st) in
  fst (post_cars b m p rnd st) = Ret {| status := 201; json := CarJson c |}
  /\ get_car id st' = (Ret {| status := 200; json := CarJson c |}, st')
  /\ (forall id', id' <> id -> fst (get_car id' st') = fst (get_car id' st))
  /\ (fresh (PostCars b m p rnd) st = true ->
      get_cars st' = (Ret {| status := 200; json := CarList (map snd (cars st) ++ [c]) |}, st')).
Proof.
  intros Hb Hm Hp id c st'. unfold st', post_cars. rewrite Hb, Hm, Hp. cbn [negb orb fst snd].
  fold id. fold c. split; [reflexivity|]. split; [|split].
  - unfold get_car. cbn [cars]. now rewrite own_put_eq.
  - intros id' Hne. unfold get_car. cbn [cars].
    rewrite own_put_ne by congruence. now destruct (own (cars st) id').
  - intros Hf. cbn [fresh] in Hf. apply negb_true_iff, existsb_eqb_not_In in Hf.
    unfold get_cars. cbn [cars]. fold id in Hf. now rewrite values_put_new.
Qed.

Lemma created_car_is_found_witness :
  get_car "Ck3x9q2a" (run (firstn 1 session) init)
  = (Ret {| status := 200;
            json := CarJson {| carId := "Ck3x9q2a"; brand := Some (JStr "Kia");
                               model := Some (JStr "Seltos"); pricePerDay := 80;
                               available := true |} |},
     run (firstn 1 session) init).
Proof.
  exact (proj1 (proj2 (created_car_is_found (Some (JStr "Kia")) (Some (JStr "Seltos"))
                         (Some (JNum 80)) "k3x9q2a" init eq_refl eq_refl eq_refl))).
Defined.

Lemma NoDup_filter_keys {V} (p : string * V -> bool) (o : obj V) :
  List.NoDup (map fst o) -> List.NoDup (map fst (List.filter p o)).
Proof.
  induction o as [|e o IH]; cbn [List.filter map]; intros Hd; [constructor|].
  inversion Hd as [|? ? Hn Hd']; subst.
  destruct (p e); cbn [map]; [|now apply IH].
  constructor; [|now apply IH].
  intros (e' & He' & Hin)%List.in_map_iff. apply List.filter_In in Hin as [Hin _].
  apply Hn. rewrite <- He'. now apply List.in_map.
Qed.

Lemma filter_values {V} (p : V -> bool) (o : obj V) :
  map snd (List.filter (fun e => p (snd e)) o) = List.filter p (map snd o).
Proof.
  induction o as [|e o IH]; cbn [List.filter map]; [reflexivity|].
  destruct (p (snd e)); cbn [map]; now rewrite IH.
Qed.

(** X20. In a consistent state [GET /rentals] lists as many rentals as [GET /cars]
    lists cars that are not available. *)
Theorem rentals_match_unavailable_cars (st : state) :
  consistent st = true ->
  exists listed active,
    get_cars st = (Ret {| status := 200; json := CarList listed |}, st)
    /\ get_rentals st = (Ret {| status := 200; json := RentalList active |}, st)
    /\ length active = length (List.filter (fun c => negb (available c)) listed).
Proof.
  intros (Hd & Hcar & Hr & Hk)%consistent_spec.
  exists (map snd (cars st)), (rentals st). split; [reflexivity|]. split; [reflexivity|].
  set (busy := List.filter (fun e : string * car => negb (available (snd e))) (cars st)).
  assert (Hbusy : List.NoDup (map fst busy)) by now apply NoDup_filter_keys.
  assert (H1 : incl (rented_cars st) (map fst busy)).
  { intros k Hin. destruct (own_In _ _ (Hk k Hin)) as [c Hc].
    destruct (Hcar k c Hc) as [_ Hfree].
    apply List.in_map_iff. exists (k, c). split; [reflexivity|].
    apply List.filter_In. split; [now apply own_entry|]. cbn [snd].
    destruct (available c); [|reflexivity]. exfalso. now apply Hfree. }
  assert (H2 : incl (map fst busy) (rented_cars st)).
  { intros k ([k' c] & <- & [Hin Hav]%List.filter_In)%List.in_map_iff. cbn [fst snd] in *.
    apply own_entry in Hin; [|exact Hd]. destruct (Hcar k' c Hin) as [_ Hfree].
    destruct (List.in_dec string_dec k' (rented_cars st)) as [|Hn]; [assumption|].
    apply Hfree in Hn. rewrite Hn in Hav. discriminate. }
  pose proof (List.NoDup_incl_length Hr H1) as L1.
  pose proof (List.NoDup_incl_length Hbusy H2) as L2.
  unfold rented_cars in L1, L2. rewrite !List.length_map in L1, L2.
  rewrite <- (filter_values (fun c => negb (available c))), List.length_map.
  fold busy. lia.
Qed.

Lemma rentals_match_unavailable_cars_witness :
  length (rentals (run (firstn 3 session) init)) = 1%nat
  /\ exists listed active,
    get_cars (run (firstn 3 session) init)
    = (Ret {| status := 200; json := CarList listed |}, run (firstn 3 session) init)
    /\ get_rentals (run (firstn 3 session) init)
      = (Ret {| status := 200; json := RentalList active |}, run (firstn 3 session) init)
    /\ length active = length (List.filter (fun c => negb (available c)) listed).
Proof.
  split; [reflexivity|].
  apply rentals_match_unavailable_cars. reflexivity.
Defined.

Lemma insert_as_map {A} (p : A -> bool) (f : A -> A) (l : list A) : forall i x,
  l !! i = Some x -> p x = true ->
  (forall j y, l !! j = Some y -> j <> i -> p y = false) ->
  <[i := f x]> l = map (fun y => if p y then f y else y) l.
Proof.
  induction l as [|a l IH]; intros [|i] x Hi Hp Hothers; try discriminate.
  - injection Hi as ->. cbn. rewrite Hp. f_equal.
    symmetry. rewrite <- (List.map_id l) at 2. apply List.map_ext_in.
    intros y [j Hj]%list_elem_of_In%list_elem_of_lookup.
    now rewrite (Hothers (S j) y Hj).
  - cbn. rewrite (Hothers 0%nat a eq_refl) by discriminate. f_equal.
    apply IH; [exact Hi|exact Hp|].
    intros j y Hj Hne. apply (Hothers (S j) y Hj). congruence.
Qed.

(** X17. A successful [POST /extend] in a consistent state adds [Number(extraDays)]
    to the days of the one active rental of the car, answers with the new
    number of days and the car's price times it, and changes nothing else in
    [cars] and [rentals]. *)
Theorem extend_adds_days k e now (st st' : state) (rp : reply) :
  consistent st = true ->
  post_extend k e now st = (Ret rp, st') ->
  status rp = 200 ->
  exists r0 car,
    In r0 (rentals st)
    /\ k = Some (JStr (rental_carId r0))
    /\ own (cars st) (rental_carId r0) = Some car
    /\ json rp = RentalExtended (rental_days r0 + ToNumber e)
                   (pricePerDay car * (rental_days r0 + ToNumber e))
    /\ cars st' = cars st
    /\ rentals st'
       = map (fun r => if has_carId k r then add_days (ToNumber e) r else r) (rentals st).
Proof.
  intros (Hd & Hcar & Hr & Hkn)%consistent_spec. unfold post_extend.
  destruct (_ || _); [intros [= <- <-]; discriminate|].
  destruct (find_rental k (rentals st)) as [[idx r0]|] eqn:Hfind;
    [|intros [= <- <-]; discriminate].
  pose proof Hfind as (Hk & Hidx & _)%find_rental_Some.
  destruct (Map_get (cars st) k) as [car|] eqn:Hget; [|discriminate].
  intros [= <- <-] _. exists r0, car.
  split; [apply list_elem_of_In; eapply list_elem_of_lookup_2; exact Hidx|].
  split; [exact Hk|]. split; [now rewrite Hk in Hget|].
  split; [reflexivity|]. split; [reflexivity|]. cbn [rentals].
  apply (insert_as_map (has_carId k) (add_days (ToNumber e))); [exact Hidx| |].
  - apply has_carId_true, Hk.
  - intros j y Hj Hne. destruct (has_carId k y) eqn:Hy; [exfalso|reflexivity].
    apply has_carId_true in Hy. rewrite Hk in Hy. injection Hy as Hy.
    apply Hne. unfold rented_cars in Hr.
    apply (NoDup_lookup (map rental_carId (rentals st)) j idx (rental_carId r0)).
    + apply NoDup_ListNoDup, Hr.
    + change (map rental_carId) with (fmap (M := list) rental_carId).
      now rewrite list_lookup_fmap, Hj, Hy.
    + change (map rental_carId) with (fmap (M := list) rental_carId).
      now rewrite list_lookup_fmap, Hidx.
Qed.

Lemma extend_adds_days_witness :
  exists r0 car,
    In r0 (rentals (run (firstn 2 session) init))
    /\ own (cars (run (firstn 2 session) init)) (rental_carId r0) = Some car
    /\ RentalExtended 5 300
       = RentalExtended (rental_days r0 + ToNumber (Some (JStr "2")))
           (pricePerDay car * (rental_days r0 + ToNumber (Some (JStr "2")))).
Proof.
  destruct (extend_adds_days (Some (JStr "C001")) (Some (JStr "2"))
              "2024-01-02T00:00:00.000Z" (run (firstn 2 session) init)
              (snd (post_extend (Some (JStr "C001")) (Some (JStr "2"))
                      "2024-01-02T00:00:00.000Z" (run (firstn 2 session) init)))
              {| status := 200; json := RentalExtended 5 300 |}
              eq_refl ltac:(vm_compute; reflexivity) eq_refl)
    as (r0 & car & Hin & _ & Hown & Hjson & _).
  exists r0, car. split; [exact Hin|]. split; [exact Hown|exact Hjson].
Defined.

End CarRentalRequests.

(** ** 22. The car and rental API: the search route *)

Section CarRentalRoutes.

Import CarRental.

Example search_cars_example :
  fst (search_cars (Some "TES") init)
  = Ret {| status := 200;
           json := CarList [ {| carId := "C004"; brand := Some (JStr "Tesla");
                                model := Some (JStr "Model 3"); pricePerDay := 200;
                                available := true |} ] |}.
Proof. reflexivity. Qed.

Example dispatch_examples :
  dispatch GET ["cars"] = Some (EpCars, [])
  /\ dispatch GET ["Cars"; "C001"] = Some (EpCarById, [("id", "C001")])
  /\ dispatch POST ["cars"; "C001"] = None
  /\ dispatch GET ["cars"; "search"] = Some (EpCarById, [("id", "search")]).
Proof. repeat split. Qed.

Lemma ids_generated_put st k c :
  ids_generated st = true -> starts_with "C" k = true ->
  forallb (starts_with "C") (map fst (put k c (cars st))) = true.
Proof.
  unfold ids_generated. rewrite !List.forallb_forall. intros H Hk k' Hin.
  destruct (List.in_dec string_dec k (map fst (cars st))) as [Hold|Hnew].
  - rewrite keys_put_old in Hin by exact Hold. now apply H.
  - rewrite keys_put_new in Hin by exact Hnew.
    apply List.in_app_iff in Hin as [Hin|[<-|[]]]; [now apply H|exact Hk].
Qed.

Lemma handle_ids_generated c st :
  ids_generated st = true -> ids_generated (snd (handle c st)) = true.
Proof.
  intros Hg.
  assert (Hkey : forall k v, own (cars st) k = Some v -> starts_with "C" k = true).
  { intros k v Hown. unfold ids_generated in Hg.
    rewrite List.forallb_forall in Hg. apply Hg. eapply own_Some_In. exact Hown. }
  destruct c as [|b m p rnd|id|k n d r1 r2 now|k now|k e now| |];
    cbn [handle]; try exact Hg.
  - unfold post_cars. destruct (_ || _); [exact Hg|]. cbn [snd].
    unfold ids_generated at 1. cbn [cars]. now apply ids_generated_put.
  - unfold get_car. now destruct (own (cars st) id).
  - unfold post_rent. destruct (_ || _); [exact Hg|].
    destruct k as [[| | |k]|]; try exact Hg.
    destruct (own (cars st) k) as [car|] eqn:Hown; [|exact Hg].
    destruct (negb (available car)); [exact Hg|]. cbn [snd].
    unfold ids_generated at 1. cbn [cars]. apply ids_generated_put; eauto.
  - unfold post_return. destruct (negb _); [exact Hg|].
    destruct (find_rental k (rentals st)) as [[idx r]|]; [|exact Hg]. cbn [snd].
    unfold ids_generated at 1. cbn [cars].
    destruct k as [[| | |k]|]; try exact Hg.
    destruct (own (cars st) k) as [car|] eqn:Hown; [|exact Hg].
    apply ids_generated_put; eauto.
  - unfold post_extend. destruct (_ || _); [exact Hg|].
    destruct (find_rental k (rentals st)) as [[idx r0]|]; [|exact Hg].
    destruct (Map_get (cars st) k); exact Hg.
Qed.

Lemma run_ids_generated cs : forall st,
  ids_generated st = true -> ids_generated (run cs st) = true.
Proof.
  induction cs as [|c cs IH]; intros st Hg; [exact Hg|].
  apply IH, handle_ids_generated, Hg.
Qed.

Lemma match_path_search path :
  is_Some (match_path [Lit "cars"; Lit "search"] path) ->
  exists a id,
    path = [a; id]
    /\ toLowerCase a = "cars" /\ toLowerCase id = "search".
Proof.
  destruct path as [|a [|id [|x path]]]; cbn [match_path].
  - intros [? [=]].
  - destruct (String.eqb _ _); intros [? [=]].
  - destruct (String.eqb (toLowerCase "cars") (toLowerCase a)) eqn:Ha;
      [|intros [? [=]]].
    destruct (String.eqb (toLowerCase "search") (toLowerCase id)) eqn:Hid;
      [|intros [? [=]]].
    intros _. exists a, id. apply String.eqb_eq in Ha, Hid.
    split; [reflexivity|]. split; symmetry; assumption.
  - destruct (String.eqb _ (toLowerCase a)); [|intros [? [=]]].
    destruct (String.eqb _ (toLowerCase id)); intros [? [=]].
Qed.

(** X21. No request reaches the handler of [GET /cars/search]: a path that
    matches that route matches [GET /cars/:id], which is registered before
    it and answers; and since no car id is ever spelled like the word
    "search", the answer is 404 "car not found", whatever the query is and
    whatever requests were served before. *)
Theorem search_route_is_shadowed (cs : list call) (path : list string) (q : option string) :
  is_Some (match_path [Lit "cars"; Lit "search"] path) ->
  (exists id, dispatch GET path = Some (EpCarById, [("id", id)]))
  /\ serve_get path q (run cs init)
     = Some (Ret {| status := 404; json := Error "car not found" |}, run cs init).
Proof.
  intros (a & id & -> & Ha & Hid)%match_path_search.
  assert (Hne : String.eqb id "" = false).
  { destruct id; [discriminate Hid|reflexivity]. }
  assert (Hd : dispatch GET [a; id] = Some (EpCarById, [("id", id)])).
  { unfold dispatch, routes. cbn [first_match method_eqb match_path].
    change (toLowerCase "cars") with "cars". rewrite Ha. cbn [String.eqb Ascii.eqb Bool.eqb].
    rewrite Hne. reflexivity. }
  split; [eauto|]. unfold serve_get. rewrite Hd. cbn [own String.eqb Ascii.eqb Bool.eqb].
  unfold get_car.
  replace (own (cars (run cs init)) id) with (@None car); [reflexivity|].
  symmetry. apply own_None. intros Hin.
  pose proof (run_ids_generated cs init eq_refl) as Hg.
  unfold ids_generated in Hg. rewrite List.forallb_forall in Hg.
  specialize (Hg id Hin).
  destruct id as [|c id']; [discriminate|]. cbn [starts_with] in Hg.
  apply andb_true_iff in Hg as [Hc _]. apply Ascii.eqb_eq in Hc. subst c.
  discriminate Hid.
Qed.

Lemma search_route_is_shadowed_witness :
  serve_get ["cars"; "search"] (Some "tesla") (run session init)
  = Some (Ret {| status := 404; json := Error "car not found" |}, run session init).
Proof.
  apply (search_route_is_shadowed session ["cars"; "search"] (Some "tesla")).
  cbn. eauto.
Defined.

(** No path at all is dispatched to the search handler. *)
Lemma search_is_never_dispatched m path params :
  dispatch m path <> Some (EpSearch, params).
Proof.
  unfold dispatch, routes. destruct m; cbn [first_match method_eqb].
  - destruct (match_path [Lit "cars"] path); [discriminate|].
    destruct (match_path [Lit "cars"; Param "id"] path) eqn:Hid; [discriminate|].
    destruct (match_path [Lit "cars"; Lit "search"] path) eqn:Hs.
    + exfalso. destruct (match_path_search path) as (a & id & -> & Ha & Hi); [eauto|].
      cbn [match_path] in Hid. change (toLowerCase "cars") with "cars" in Hid.
      rewrite Ha in Hid. cbn [String.eqb Ascii.eqb Bool.eqb] in Hid.
      destruct id; [discriminate Hi|]. cbn in Hid. discriminate.
    + repeat (destruct (match_path _ path); [discriminate|]). discriminate.
  - repeat (destruct (match_path _ path); [discriminate|]). discriminate.
Qed.

End CarRentalRoutes.
